(** * Graphite read path: a shallow embedding of [render/datalib.py] and
    [storage.py], with the properties of the specification.

    Conventions of the embedding.
    - Python [int]/[long] values are [Z]; [/] and [%] on them are Python 2's
      floor division and modulo, which are [Z.div] and [Z.modulo] for a
      non-zero divisor (a zero divisor raises [ZeroDivisionError]).
    - Python [float] values are exact rationals [Q].
    - Timestamps are integers, and a sample's value is a float.
    - [None] in a list of samples is [None : option Q].
    - A raised exception is a value [Raise e] of the type [result]; a
      generator is the list of the values it yields together with the
      exception that ended it, if any.
    - [str] is [string]. *)

From Stdlib Require Import ZArith QArith Qround String Ascii List Bool Lia.
From Stdlib Require Strings.Byte.
From stdpp Require Import gmap strings list sorting.
Import ListNotations.

Set Warnings "-clear-no-such-hyp".

Local Open Scope string_scope.
Local Open Scope Z_scope.

(** ** Python runtime *)

Module Py.

Inductive exn : Type :=
| IndexError
| KeyError
| ValueError
| NameError
| ZeroDivisionError
| OSError
| StructError
| SocketError
| Exception (msg : string).

Inductive result (A : Type) : Type :=
| Ok (a : A)
| Raise (e : exn).
Arguments Ok {A} a.
Arguments Raise {A} e.

Definition bind {A B} (r : result A) (k : A -> result B) : result B :=
  match r with
  | Ok a => k a
  | Raise e => Raise e
  end.

Notation "x <- r ;; k" := (bind r (fun x => k))
  (at level 100, r at next level, right associativity).

(** [l[i] = v] on a Python list: a negative index counts from the end, and an
    index outside [-len l, len l) raises [IndexError]. *)
Definition setitem {A} (l : list A) (i : Z) (v : A) : result (list A) :=
  let n := Z.of_nat (length l) in
  if (0 <=? i) && (i <? n) then Ok (<[Z.to_nat i := v]> l)
  else if (- n <=? i) && (i <? 0) then Ok (<[Z.to_nat (n + i) := v]> l)
  else Raise IndexError.

(** [a % b] and [a / b] on Python 2 integers. *)
Definition mod_ (a b : Z) : result Z :=
  if b =? 0 then Raise ZeroDivisionError else Ok (a mod b).

Definition floordiv (a b : Z) : result Z :=
  if b =? 0 then Raise ZeroDivisionError else Ok (a / b).

(** [c in s] for a one-character string [c]. *)
Fixpoint char_in (c : ascii) (s : string) : bool :=
  match s with
  | EmptyString => false
  | String a s' => Ascii.eqb c a || char_in c s'
  end.

(** [int(x)] on a float truncates toward zero. *)
Definition int_of_float (q : Q) : Z := Z.quot (Qnum q) (Z.pos (Qden q)).

(** A generator, run to its end: the values it yielded, and the exception
    that ended it ([None] when it ended by returning or by raising
    [StopIteration]). *)
Definition Gen (A : Type) : Type := list A * option exn.

Definition yield_ {A} (v : A) (g : Gen A) : Gen A := (v :: fst g, snd g).
Definition stop {A} : Gen A := ([], None).
Definition throw {A} (e : exn) : Gen A := ([], Some e).

(** [round(x)] in Python 2: to the nearest integer, halves away from zero. *)
Definition round (q : Q) : Z :=
  if Qle_bool 0 q then Qfloor (q + (1#2)) else Qceiling (q - (1#2)).

(** [l.remove(x)]: deletes the first member equal to [x], and raises
    [ValueError] when there is none. *)
Fixpoint list_remove (x : string) (l : list string) : result (list string) :=
  match l with
  | [] => Raise ValueError
  | y :: l' =>
      if String.eqb y x then Ok l'
      else match list_remove x l' with
           | Ok l'' => Ok (y :: l'')
           | Raise e => Raise e
           end
  end.

(** The order of [sorted] on [str]. *)
Definition str_le (a b : string) : Prop := Is_true (String.leb a b).

Global Instance str_le_dec : RelDecision str_le.
Proof. intros a b. unfold str_le. apply _. Defined.

Definition gen_app {A} (g1 g2 : Gen A) : Gen A :=
  match snd g1 with
  | Some e => g1
  | None => (fst g1 ++ fst g2, snd g2)%list
  end.

(** [for a in g: <body a>], the body being a piece of a generator. *)
Fixpoint gen_for {A B} (l : list A) (raised : option exn) (body : A -> Gen B)
  : Gen B :=
  match l with
  | [] => ([], raised)
  | a :: l' => gen_app (body a) (gen_for l' raised body)
  end.

Definition gen_bind {A B} (g : Gen A) (body : A -> Gen B) : Gen B :=
  gen_for (fst g) (snd g) body.

(** **** Strings *)

Definition startswith_char (c : ascii) (s : string) : bool :=
  match s with
  | String a _ => Ascii.eqb a c
  | EmptyString => false
  end.

(** [s.replace(a, b)] for one-character strings. *)
Fixpoint replace_char (a b : ascii) (s : string) : string :=
  match s with
  | EmptyString => EmptyString
  | String c s' => String (if Ascii.eqb c a then b else c) (replace_char a b s')
  end.

(** [s.split(c)] for a one-character string. *)
Fixpoint split_char (c : ascii) (s : string) : list string :=
  match s with
  | EmptyString => [EmptyString]
  | String a s' =>
      if Ascii.eqb a c then EmptyString :: split_char c s'
      else match split_char c s' with
           | x :: xs => String a x :: xs
           | [] => [String a EmptyString]
           end
  end.

(** [s.lstrip(c)] *)
Fixpoint lstrip_char (c : ascii) (s : string) : string :=
  match s with
  | String a s' => if Ascii.eqb a c then lstrip_char c s' else s
  | EmptyString => EmptyString
  end.

(** The rest of [s] after the prefix [d], if [s] starts with [d]. *)
Fixpoint strip_prefix (d s : string) : option string :=
  match d, s with
  | EmptyString, _ => Some s
  | String a d', String b s' => if Ascii.eqb a b then strip_prefix d' s' else None
  | String _ _, EmptyString => None
  end.

(** [d in s] *)
Fixpoint contains (d s : string) : bool :=
  match strip_prefix d s with
  | Some _ => true
  | None => match s with
            | EmptyString => false
            | String _ s' => contains d s'
            end
  end.

(** [s.rsplit(d, 1)] when [d] occurs in [s]: the parts before and after the
    last occurrence. *)
Fixpoint rsplit1 (d s : string) : option (string * string) :=
  match s with
  | EmptyString =>
      match strip_prefix d s with
      | Some t => Some (EmptyString, t)
      | None => None
      end
  | String c s' =>
      match rsplit1 d s' with
      | Some (h, t) => Some (String c h, t)
      | None =>
          match strip_prefix d s with
          | Some t => Some (EmptyString, t)
          | None => None
          end
      end
  end.

(** [s.endswith(d)] *)
Definition endswith (s d : string) : bool :=
  String.eqb (String.substring (String.length s - String.length d)
                (String.length d) s) d
  && (String.length d <=? String.length s)%nat.

(** [s[k:]] and [s[:-k]] for [k >= 0]. *)
Definition slice_from (k : nat) (s : string) : string :=
  String.substring k (String.length s - k) s.

Definition slice_to_minus (k : nat) (s : string) : string :=
  match k with
  | O => EmptyString
  | _ => String.substring 0 (String.length s - k) s
  end.

(** [os.path.basename] *)
Fixpoint basename (p : string) : string :=
  match p with
  | EmptyString => EmptyString
  | String c p' =>
      if char_in "/" p' then basename p'
      else if Ascii.eqb c "/" then p' else p
  end.

(** [os.path.join] of two parts. *)
Definition join (a b : string) : string :=
  if startswith_char "/" b then b
  else if String.eqb a "" || endswith a "/" then (a ++ b)%string
  else (a ++ "/" ++ b)%string.

(** [os.path.splitext] on a path without [/]: the extension starts at the
    last dot, unless only dots come before it. *)
Fixpoint all_dots (s : string) : bool :=
  match s with
  | EmptyString => true
  | String c s' => Ascii.eqb c "." && all_dots s'
  end.

Definition splitext (p : string) : string * string :=
  match rsplit1 "." p with
  | Some (root, ext) =>
      if all_dots root then (p, EmptyString)
      else (root, String "." ext)
  | None => (p, EmptyString)
  end.

End Py.

Import Py.

(** ** render/datalib.py *)

Module Datalib.

(** *** TimeSeries *)

(** The list part of the object is the field [values]. The attribute
    [pathExpression] is the one callers attach after construction; the
    attribute [options], which nothing here reads, is left out. *)
Record TimeSeries : Type := mkTimeSeries {
  name : string;
  start : Z;
  end_ : Z;
  step : Z;
  values : list (option Q);
  consolidationFunc : string;
  valuesPerPoint : Z;
  pathExpression : option string
}.

Definition TimeSeries_init (name : string) (start end_ step : Z)
    (values : list (option Q)) (consolidate : string) : TimeSeries :=
  {| name := name; start := start; end_ := end_; step := step;
     values := values; consolidationFunc := consolidate;
     valuesPerPoint := 1; pathExpression := None |}.

Definition consolidate (self : TimeSeries) (valuesPerPoint : Q) : TimeSeries :=
  {| name := name self; start := start self; end_ := end_ self;
     step := step self; values := values self;
     consolidationFunc := consolidationFunc self;
     valuesPerPoint := int_of_float valuesPerPoint;
     pathExpression := pathExpression self |}.

(** [[v for v in values if v is not None]] *)
Fixpoint usable (values : list (option Q)) : list Q :=
  match values with
  | [] => []
  | None :: values' => usable values'
  | Some v :: values' => v :: usable values'
  end.

(** [sum(usable)]: starts from 0 and adds from the left. The values are
    taken as exact rationals: the rounding of floating-point addition is
    not modelled. *)
Definition sum (l : list Q) : Q := fold_left Qplus l 0%Q.

Definition consolidate_values (self : TimeSeries) (values : list (option Q))
  : result (option Q) :=
  match usable values with
  | [] => Ok None
  | u =>
      if String.eqb (consolidationFunc self) "sum" then Ok (Some (sum u))
      else if String.eqb (consolidationFunc self) "average"
      then Ok (Some (sum u / inject_Z (Z.of_nat (length u)))%Q)
      else Raise (Exception "Invalid consolidation function!")
  end.

(** [while None in buf: buf.remove(None)] deletes every [None] and keeps the
    order of the other members. *)
Fixpoint remove_None (buf : list (option Q)) : list (option Q) :=
  match buf with
  | [] => []
  | None :: buf' => remove_None buf'
  | Some v :: buf' => Some v :: remove_None buf'
  end.

(** The part of [__consolidatingGenerator] after the [for] loop. *)
Definition consolidating_tail (self : TimeSeries) (buf : list (option Q))
  : Gen (option Q) :=
  match remove_None buf with
  | [] => yield_ None stop
  | buf' =>
      match consolidate_values self buf' with
      | Ok v => yield_ v stop
      | Raise e => throw e
      end
  end.

(** [__consolidatingGenerator]: the [for] loop over [gen] with the buffer
    [buf], then the tail. *)
Fixpoint consolidatingGenerator_from (self : TimeSeries)
    (gen : list (option Q)) (buf : list (option Q)) : Gen (option Q) :=
  match gen with
  | [] => consolidating_tail self buf
  | x :: gen' =>
      let buf := (buf ++ [x])%list in
      if Z.of_nat (length buf) =? valuesPerPoint self then
        match remove_None buf with
        | [] => yield_ None (consolidatingGenerator_from self gen' [])
        | buf' =>
            match consolidate_values self buf' with
            | Ok v => yield_ v (consolidatingGenerator_from self gen' [])
            | Raise e => throw e
            end
        end
      else consolidatingGenerator_from self gen' buf
  end.

Definition consolidatingGenerator (self : TimeSeries) (gen : list (option Q))
  : Gen (option Q) :=
  consolidatingGenerator_from self gen [].

Definition iter (self : TimeSeries) : Gen (option Q) :=
  if 1 <? valuesPerPoint self
  then consolidatingGenerator self (values self)
  else (values self, None).

(** *** CarbonLink: receiving a response *)

(** [struct.unpack("!L", s)[0]]: four bytes, most significant first. *)
Definition byte_val (b : Byte.byte) : Z := Z.of_N (Byte.to_N b).

Definition unpack_L (s : list Byte.byte) : result Z :=
  match s with
  | [b0; b1; b2; b3] =>
      Ok (byte_val b0 * 2 ^ 24 + byte_val b1 * 2 ^ 16
          + byte_val b2 * 2 ^ 8 + byte_val b3)
  | _ => Raise StructError
  end.

Section CarbonLink.
(** A connection is its state [Conn]; [recv conn bufsize] is one call of
      [conn.recv(bufsize)]: the data it returned or the exception it raised
      (a timeout, a reset), and the connection afterwards. *)
Variable Conn : Type.
Variable recv : Conn -> Z -> result (list Byte.byte) * Conn.

(** [pickle.loads] *)
Variable Obj : Type.
Variable loads : list Byte.byte -> result Obj.

(** The outcome of a receive: the value or the exception, the connection
      afterwards, and the data of each [recv] call that returned, in order. *)
Definition Received (A : Type) : Type :=
    result A * Conn * list (list Byte.byte).

(** The [while] loop of [recv_exactly]. Every turn that does not raise makes
      [buf] longer, so [num_bytes - len(buf)] turns are enough; [None] is a
      loop that was cut short by [fuel]. *)
Fixpoint recv_exactly_loop (fuel : nat) (conn : Conn) (num_bytes : Z)
      (buf : list Byte.byte) (reads : list (list Byte.byte))
    : option (Received (list Byte.byte)) :=
    if Z.of_nat (length buf) <? num_bytes then
      match fuel with
      | O => None
      | S fuel' =>
          match recv conn (num_bytes - Z.of_nat (length buf)) with
          | (Raise e, conn') => Some (Raise e, conn', reads)
          | (Ok [], conn') =>
              Some (Raise (Exception "Connection lost"), conn', reads ++ [[]])%list
          | (Ok data, conn') =>
              recv_exactly_loop fuel' conn' num_bytes (buf ++ data)
                (reads ++ [data])
          end
      end
    else Some (Ok buf, conn, reads).

Definition recv_exactly (conn : Conn) (num_bytes : Z)
    : option (Received (list Byte.byte)) :=
    recv_exactly_loop (Z.to_nat num_bytes) conn num_bytes [] [].

Definition recv_response (conn : Conn) : option (Received Obj) :=
    match recv_exactly conn 4 with
    | None => None
    | Some (Raise e, conn1, reads1) => Some (Raise e, conn1, reads1)
    | Some (Ok len_prefix, conn1, reads1) =>
        match unpack_L len_prefix with
        | Raise e => Some (Raise e, conn1, reads1)
        | Ok body_size =>
            match recv_exactly conn1 body_size with
            | None => None
            | Some (Raise e, conn2, reads2) =>
                Some (Raise e, conn2, (reads1 ++ reads2)%list)
            | Some (Ok body, conn2, reads2) =>
                Some (loads body, conn2, (reads1 ++ reads2)%list)
            end
        end
    end.

End CarbonLink.

Arguments recv_exactly_loop {Conn} recv fuel conn num_bytes buf reads.
Arguments recv_exactly {Conn} recv conn num_bytes.
Arguments recv_response {Conn} recv {Obj} loads conn.

(** *** fetchDataFromHyperTable *)

(** The resampling of one metric: [steps] buckets, and every sample
    [(its, val)] stored in the bucket
    [int(min(round(float(its - start) / float(rate)), steps - 1))]. *)
Definition bucket_of (start rate steps its : Z) : Z :=
  Z.min (round (inject_Z (its - start) / inject_Z rate)) (steps - 1).

Fixpoint push_values (start rate steps : Z) (finalValues : list (option Q))
    (samples : list (Z * Q)) : result (list (option Q)) :=
  match samples with
  | [] => Ok finalValues
  | x :: samples' =>
      finalValues' <-
        setitem finalValues (bucket_of start rate steps (fst x)) (Some (snd x)) ;;
      push_values start rate steps finalValues' samples'
  end.

Definition resample (start end_ rate : Z) (samples : list (Z * Q))
  : result (list (option Q)) :=
  steps <- floordiv (end_ - start) rate ;;
  push_values start rate steps (replicate (Z.to_nat steps) None) samples.

Record CellInterval : Type := mkCellInterval {
  start_row : string;
  start_column : string;
  start_inclusive : bool;
  end_row : string;
  end_column : string;
  end_inclusive : bool
}.

Record ScanSpec : Type := mkScanSpec {
  start_time : Z;
  end_time : Z;
  cell_intervals : list CellInterval;
  versions : Z
}.

(** The arguments of one call of the scan callback. *)
Record Cell : Type := mkCell {
  cell_key : string;
  cell_family : string;
  cell_column : string;
  cell_val : Q;
  cell_ts : Z
}.

Definition MIN_INTERVAL_SECS : Z := 10.
Definition COL_INTERVAL_SECS : Z := 60 * 60.

(** [not m[1]]: the rate is absent or zero. *)
Definition no_rate (r : option Z) : bool :=
  match r with
  | None => true
  | Some z => z =? 0
  end.

Section HyperTable.
(** What the function takes from the rest of the code base: the request's
      calendar times with [timestamp] ([time.mktime]) and [strftime], the
      prefix helpers of [graphite.hypertable_client], the metric index, and
      the scan, given as the cells it hands to the callback, in order. *)
Variable DateTime : Type.
Variable timestamp : DateTime -> Q.
Variable strftime : DateTime -> string -> string.
Variables addPrefix removePrefix : string -> string.
Variable findMetric : string -> list (string * option Z).
Variable doScan : ScanSpec -> string -> list Cell.

Record RequestContext : Type := mkRequestContext {
    ctx_startTime : DateTime;
    ctx_endTime : DateTime;
    ctx_localOnly : bool
  }.

Inductive LogEntry : Type :=
  | LogInfo (msg : string)
  | LogInfoDateTime (d : DateTime)
  | LogInfoScanSpec (s : ScanSpec).

Definition no_rate_message (metric : string) : LogEntry :=
    LogInfo ("metric " ++ metric ++ " doesn't specify a rate! Not rendering...").

(** The loop [for m in metricData] that fills [metricRate] and takes the
      metrics without a rate out of [metrics]. *)
Fixpoint check_rates (metricData : list (string * option Z))
      (metrics : list string) (metricRate : gmap string Z) (log : list LogEntry)
    : result (list string * gmap string Z) * list LogEntry :=
    match metricData with
    | [] => (Ok (metrics, metricRate), log)
    | m :: metricData' =>
        if no_rate (snd m) then
          let log := (log ++ [no_rate_message (fst m)])%list in
          match list_remove (fst m) metrics with
          | Ok metrics' => check_rates metricData' metrics' metricRate log
          | Raise e => (Raise e, log)
          end
        else
          check_rates metricData' metrics
            (<[fst m := default 0 (snd m)]> metricRate) log
    end.

(** [processResult], once per cell. *)
Definition processResult (valuesMap : gmap string (list (Z * Q))) (c : Cell)
    : gmap string (list (Z * Q)) :=
    let its := cell_ts c / 10 ^ 9 in
    <[cell_key c := (default [] (valuesMap !! cell_key c)
                       ++ [(its, cell_val c)])%list]> valuesMap.

(** [sorted(valuesMap.keys())] *)
Definition sorted_keys {A} (valuesMap : gmap string A) : list string :=
    merge_sort str_le (elements (dom valuesMap)).

(** The loop [for m in valuesMap.keys()]. Python leaves the order of the
      keys open; the turns are independent of each other, and the keys are
      taken here in sorted order. *)
Fixpoint resample_keys (start end_ : Z) (metricRate : gmap string Z)
      (valuesMap : gmap string (list (Z * Q))) (keys : list string)
    : result (gmap string (list (option Q))) :=
    match keys with
    | [] => Ok ∅
    | m :: keys' =>
        match metricRate !! m with
        | None => Raise KeyError
        | Some rate =>
            finalValues <-
              resample start end_ rate (default [] (valuesMap !! m)) ;;
            rest <- resample_keys start end_ metricRate valuesMap keys' ;;
            Ok (<[m := finalValues]> rest)
        end
    end.

(** The loop [for m in sorted(valuesMap.keys())] that builds the series. *)
Fixpoint build_series (start end_ : Z) (pathExpr : string)
      (metricRate : gmap string Z) (valuesMap : gmap string (list (option Q)))
      (keys : list string) : result (list TimeSeries) :=
    match keys with
    | [] => Ok []
    | m :: keys' =>
        match metricRate !! m, valuesMap !! m with
        | Some rate, Some finalValues =>
            let series :=
              TimeSeries_init (removePrefix m) start end_ rate finalValues
                "average" in
            let series :=
              {| name := name series; start := Datalib.start series;
                 end_ := Datalib.end_ series; step := step series;
                 values := values series;
                 consolidationFunc := consolidationFunc series;
                 valuesPerPoint := valuesPerPoint series;
                 pathExpression := Some pathExpr |} in
            rest <- build_series start end_ pathExpr metricRate valuesMap keys' ;;
            Ok (series :: rest)
        | _, _ => Raise KeyError
        end
    end.

Definition fetchDataFromHyperTable (requestContext : RequestContext)
      (pathExpr : string) : result (list TimeSeries) * list LogEntry :=
    let log := [LogInfo ("fetching " ++ pathExpr)] in
    let pathExpr := addPrefix pathExpr in
    let metricData := findMetric pathExpr in
    let metrics := map (fun m => addPrefix (fst m)) metricData in
    match check_rates metricData metrics ∅ log with
    | (Raise e, log) => (Raise e, log)
    | (Ok (metrics, metricRate), log) =>
        match metrics with
        | [] => (Ok [], log)
        | _ :: _ =>
            let startDateTime := ctx_startTime requestContext in
            let endDateTime := ctx_endTime requestContext in
            let start := int_of_float (timestamp startDateTime) in
            let end_ := int_of_float (timestamp endDateTime) in
            let startColString := strftime startDateTime "metric:%Y-%m-%d %H" in
            let endColString := strftime endDateTime "metric:%Y-%m-%d %H" in
            let cellIntervals :=
              map (fun m => mkCellInterval m startColString true
                                           m endColString true) metrics in
            let nanosStart := start * 10 ^ 9 in
            let nanosEnd := end_ * 10 ^ 9 in
            let scan_spec :=
              {| start_time := nanosStart; end_time := nanosEnd;
                 cell_intervals := cellIntervals;
                 versions := COL_INTERVAL_SECS / MIN_INTERVAL_SECS |} in
            let log :=
              (log ++ [LogInfoDateTime startDateTime;
                       LogInfoDateTime endDateTime;
                       LogInfoScanSpec scan_spec])%list in
            let valuesMap :=
              fold_left processResult (doScan scan_spec "metrics") ∅ in
            let keys := sorted_keys valuesMap in
            (finalValuesMap <-
               resample_keys start end_ metricRate valuesMap keys ;;
             build_series start end_ pathExpr metricRate finalValuesMap keys,
             log)
        end
    end.

End HyperTable.

Arguments LogInfo {DateTime} msg.
Arguments no_rate_message {DateTime} metric.
Arguments check_rates {DateTime} metricData metrics metricRate log.
Arguments fetchDataFromHyperTable {DateTime} timestamp strftime
  addPrefix removePrefix findMetric doScan requestContext pathExpr.

(** *** mergeResults *)

Section MergeResults.
(** The merge never inspects a sample's value. *)
Context {V : Type}.

Definition TimeInfo : Type := Z * Z * Z.

(** What [mergeResults] returns: its (listified) second argument when the
      first one is falsy, and otherwise a database result. *)
Inductive Merged : Type :=
  | CacheResults (c : list (Z * V))
  | DbResults (timeInfo : TimeInfo) (values : list V).

(** One iteration of [for (timestamp, value) in cacheResults]. The modulo is
      outside the [try]; the division and the store are inside it, and the
      bare [except: pass] leaves [values] as it was. *)
Definition merge_sample (start step : Z) (values : list V) (s : Z * V)
    : result (list V) :=
    let '(timestamp, value) := s in
    m <- mod_ timestamp step ;;
    let interval := timestamp - m in
    match (i <- floordiv (interval - start) step ;; setitem values i value) with
    | Ok values' => Ok values'
    | Raise _ => Ok values
    end.

Fixpoint merge_loop (start step : Z) (values : list V) (cache : list (Z * V))
    : result (list V) :=
    match cache with
    | [] => Ok values
    | s :: cache' =>
        values' <- merge_sample start step values s ;;
        merge_loop start step values' cache'
    end.

(** [dbResults] is [None] when the argument is falsy ([None], [[]], [()]),
      and a pair [(timeInfo, values)] otherwise. *)
Definition mergeResults (dbResults : option (TimeInfo * list V))
      (cacheResults : list (Z * V)) : result Merged :=
    match dbResults with
    | None => Ok (CacheResults cacheResults)
    | Some (timeInfo, values) =>
        match cacheResults with
        | [] => Ok (DbResults timeInfo values)
        | _ :: _ =>
            let '(start, _, step) := timeInfo in
            values' <- merge_loop start step values cacheResults ;;
            Ok (DbResults timeInfo values')
        end
    end.

(** The slot a cache sample is aimed at. *)
Definition slot (start step timestamp : Z) : Z :=
    (timestamp - timestamp mod step - start) / step.

End MergeResults.

End Datalib.

(** ** The matching of [fnmatch]

    [fnmatch.translate] turns a pattern into a regular expression: [*]
    matches any run of characters, [?] any one character, [[seq]] one
    character of [seq] and [[!seq]] one character not of it, a [[] that is
    never closed and every other character match themselves. A leading dot of
    the name is not special. *)

Module Fnmatch.

Inductive item : Type :=
| Star
| AnyChar
| Lit (c : ascii)
| Class (negate : bool) (set : list (ascii * ascii)).

Fixpoint split_at_char (c : ascii) (s : string) : option (string * string) :=
  match s with
  | EmptyString => None
  | String a s' =>
      if Ascii.eqb a c then Some (EmptyString, s')
      else match split_at_char c s' with
           | Some (before, after) => Some (String a before, after)
           | None => None
           end
  end.

(** After a [[]: the text up to the closing [[]], which may start with [!]
    and then with a [[]] that does not close, and the rest of the pattern. *)
Definition bracket (r : string) : option (string * string) :=
  let '(bang, r1) :=
    match r with
    | String a r' => if Ascii.eqb a "!" then ("!", r') else ("", r)
    | EmptyString => ("", r)
    end in
  let '(close, r2) :=
    match r1 with
    | String a r' => if Ascii.eqb a "]" then ("]", r') else ("", r1)
    | EmptyString => ("", r1)
    end in
  match split_at_char "]" r2 with
  | Some (before, after) => Some ((bang ++ close ++ before)%string, after)
  | None => None
  end.

Fixpoint ranges (body : string) : list (ascii * ascii) :=
  match body with
  | EmptyString => []
  | String a rest =>
      match rest with
      | String m (String b rest') =>
          if Ascii.eqb m "-" then (a, b) :: ranges rest'
          else (a, a) :: ranges rest
      | _ => (a, a) :: ranges rest
      end
  end.

Definition class_of (stuff : string) : item :=
  match stuff with
  | String a body =>
      if Ascii.eqb a "!" then Class true (ranges body)
      else Class false (ranges stuff)
  | EmptyString => Class false []
  end.

Fixpoint translate (fuel : nat) (pat : string) : list item :=
  match fuel, pat with
  | S fuel', String c rest =>
      if Ascii.eqb c "*" then Star :: translate fuel' rest
      else if Ascii.eqb c "?" then AnyChar :: translate fuel' rest
      else if Ascii.eqb c "[" then
        match bracket rest with
        | Some (stuff, rest') => class_of stuff :: translate fuel' rest'
        | None => Lit "[" :: translate fuel' rest
        end
      else Lit c :: translate fuel' rest
  | _, _ => []
  end.

Definition in_class (c : ascii) (set : list (ascii * ascii)) : bool :=
  existsb (fun r => (nat_of_ascii (fst r) <=? nat_of_ascii c)%nat
                    && (nat_of_ascii c <=? nat_of_ascii (snd r))%nat) set.

Fixpoint matches (items : list item) (s : string) : bool :=
  match items with
  | [] => match s with EmptyString => true | _ => false end
  | Star :: items' =>
      (fix star (s : string) : bool :=
         matches items' s
         || match s with
            | String _ s' => star s'
            | EmptyString => false
            end) s
  | AnyChar :: items' =>
      match s with String _ s' => matches items' s' | EmptyString => false end
  | Lit c :: items' =>
      match s with
      | String a s' => Ascii.eqb a c && matches items' s'
      | EmptyString => false
      end
  | Class negate set :: items' =>
      match s with
      | String a s' => xorb negate (in_class a set) && matches items' s'
      | EmptyString => false
      end
  end.

Definition fnmatch (name pat : string) : bool :=
  matches (translate (String.length pat) pat) name.

End Fnmatch.

(** ** storage.py *)

Module Storage.

Definition DATASOURCE_DELIMETER : string := "::RRD_DATASOURCE::".

(** What the module takes from the operating system and from the libraries
    it imports: [os.listdir] (which may raise), [isdir], [isfile],
    [realpath], [fnmatch.fnmatch name pattern], whether [rrdtool] was
    imported, the names in [rrdtool.info(path)['ds']], and of [ceres]
    [CeresNode.isNodeDir], the [nodePath] of the node at a path and its
    [hasDataForInterval]. *)
Record World : Type := mkWorld {
  listdir : string -> result (list string);
  isdir : string -> bool;
  isfile : string -> bool;
  realpath : string -> string;
  fnmatch : string -> string -> bool;
  rrdtool : bool;
  rrd_info_ds : string -> result (list string);
  isNodeDir : string -> bool;
  nodePath : string -> string;
  hasDataForInterval : string -> option Z -> option Z -> bool
}.

(** *** Query *)

Record Query : Type := mkQuery {
  pattern : string;
  startTime : option Z;
  endTime : option Z
}.

Definition isExact (self : Query) : bool :=
  negb (char_in "*" (pattern self))
  && negb (char_in "?" (pattern self))
  && negb (char_in "[" (pattern self)).

(** *** Node classes *)

Inductive NodeClass : Type :=
| Branch
| WhisperFile
| GzippedWhisperFile
| RRDFile
| RRDDataSource
| CeresDirectory
| RemoteNode.

Record Node : Type := mkNode {
  class : NodeClass;
  fs_path : string;
  metric_path : string;
  real_metric : string;
  name : string
}.

Definition set_real_metric (self : Node) (real_metric : string) : Node :=
  {| class := class self; fs_path := fs_path self;
     metric_path := metric_path self; real_metric := real_metric;
     name := name self |}.

(** [Node.__init__], for the class [cls] being constructed. *)
Definition Node_init (cls : NodeClass) (fs_path metric_path : string) : Node :=
  {| class := cls; fs_path := fs_path; metric_path := metric_path;
     real_metric := metric_path;
     name := List.last (split_char "." metric_path) "" |}.

(** [WhisperFile.__init__]; [GzippedWhisperFile] inherits it with its own
    [extension]. *)
Definition WhisperFile_init_ext (w : World) (cls : NodeClass)
    (extension : string) (fs_path metric_path : string) : Node :=
  let self := Node_init cls fs_path metric_path in
  let real_fs_path := realpath w (Storage.fs_path self) in
  if negb (String.eqb real_fs_path (Storage.fs_path self)) then
    let relative_fs_path :=
      (replace_char "." "/" (Storage.metric_path self) ++ extension)%string in
    let base_fs_path :=
      slice_to_minus (String.length relative_fs_path) (Storage.fs_path self) in
    let relative_real_fs_path :=
      slice_from (String.length base_fs_path) real_fs_path in
    set_real_metric self
      (replace_char "/" "."
         (slice_to_minus (String.length extension) relative_real_fs_path))
  else self.

Definition WhisperFile_init (w : World) : string -> string -> Node :=
  WhisperFile_init_ext w WhisperFile ".wsp".

Definition GzippedWhisperFile_init (w : World) : string -> string -> Node :=
  WhisperFile_init_ext w GzippedWhisperFile ".wsp.gz".

(** [RRDDataSource.__init__] reads the name [metric_path], which is neither
    a local nor a global name there. *)
Definition RRDDataSource_init (rrd_file : Node) (name : string) : result Node :=
  Raise NameError.

Definition getDataSources (w : World) (self : Node) : result (list Node) :=
  ds <- rrd_info_ds w (fs_path self) ;;
  (fix sources (ds : list string) : result (list Node) :=
     match ds with
     | [] => Ok []
     | source :: ds' =>
         n <- RRDDataSource_init self source ;;
         rest <- sources ds' ;;
         Ok (n :: rest)
     end) ds.

Definition CeresDirectory_init (w : World) (fsPath : string) : Node :=
  let self :=
    {| class := CeresDirectory; fs_path := fsPath;
       metric_path := nodePath w fsPath; real_metric := nodePath w fsPath;
       name := List.last (split_char "." (nodePath w fsPath)) "" |} in
  let real_fs_path := realpath w (fs_path self) in
  if negb (String.eqb real_fs_path (fs_path self)) then
    let relative_fs_path := replace_char "." "/" (metric_path self) in
    let base_fs_path :=
      slice_to_minus (String.length relative_fs_path) (fs_path self) in
    let relative_real_fs_path :=
      slice_from (String.length base_fs_path) real_fs_path in
    set_real_metric self (replace_char "/" "." relative_real_fs_path)
  else self.

(** *** The finder *)

(** [fnmatch.filter(names, pattern)] followed by [sort()]. *)
Definition sorted_matches (w : World) (names : list string) (pattern : string)
  : list string :=
  merge_sort str_le (List.filter (fun e => fnmatch w e pattern) names).

Fixpoint _find (w : World) (current_dir : string) (patterns : list string)
  : Gen string :=
  match patterns with
  | [] => throw IndexError
  | pattern :: patterns =>
      match listdir w current_dir with
      | Raise e => throw e
      | Ok entries =>
          let subdirs :=
            List.filter (fun e => isdir w (join current_dir e)) entries in
          let matching_subdirs := sorted_matches w subdirs pattern in
          let files :=
            List.filter (fun e => isfile w (join current_dir e)) entries in
          gen_app
            (match patterns with
             | [datasource_pattern] =>
                 if rrdtool w then
                   let rrd_files :=
                     sorted_matches w files (pattern ++ ".rrd")%string in
                   gen_for rrd_files None (fun rrd_file =>
                     let absolute_path := join current_dir rrd_file in
                     yield_ (absolute_path ++ DATASOURCE_DELIMETER
                               ++ datasource_pattern)%string stop)
                 else stop
             | _ => stop
             end)
            (match patterns with
             | _ :: _ =>
                 gen_for matching_subdirs None (fun subdir =>
                   let absolute_path := join current_dir subdir in
                   _find w absolute_path patterns)
             | [] =>
                 let matching_files :=
                   sorted_matches w files (pattern ++ ".*")%string in
                 gen_for (matching_subdirs ++ matching_files)%list None
                   (fun basename => yield_ (join current_dir basename) stop)
             end)
      end
  end.

(** The body of the loop of [find], for one path that [_find] yielded. *)
Definition find_node (w : World) (root_dir : string) (query : Query)
    (absolute_path : string) : Gen Node :=
  if startswith_char "." (basename absolute_path) then stop else
  let '(absolute_path, datasource_pattern) :=
    if contains DATASOURCE_DELIMETER (basename absolute_path) then
      match rsplit1 DATASOURCE_DELIMETER absolute_path with
      | Some (h, t) => (h, Some t)
      | None => (absolute_path, None)
      end
    else (absolute_path, None) in
  let relative_path :=
    lstrip_char "/" (slice_from (String.length root_dir) absolute_path) in
  let metric_path := replace_char "/" "." relative_path in
  if isdir w absolute_path then
    if isNodeDir w absolute_path then
      let ceresDir := CeresDirectory_init w absolute_path in
      if hasDataForInterval w absolute_path (startTime query) (endTime query)
      then yield_ ceresDir stop
      else stop
    else yield_ (Node_init Branch absolute_path metric_path) stop
  else if isfile w absolute_path then
    let '(metric_path, extension) := splitext metric_path in
    if String.eqb extension ".wsp" then
      yield_ (WhisperFile_init w absolute_path metric_path) stop
    else if String.eqb extension ".gz" && endswith metric_path ".wsp" then
      let metric_path := fst (splitext metric_path) in
      yield_ (GzippedWhisperFile_init w absolute_path metric_path) stop
    else if rrdtool w && String.eqb extension ".rrd" then
      let rrd := Node_init RRDFile absolute_path metric_path in
      match datasource_pattern with
      | None => yield_ rrd stop
      | Some datasource_pattern =>
          match getDataSources w rrd with
          | Raise e => throw e
          | Ok sources =>
              gen_for sources None (fun source =>
                if fnmatch w (name source) datasource_pattern
                then yield_ source stop
                else stop)
          end
      end
    else stop
  else stop.

Definition find (w : World) (root_dir : string) (query : Query) : Gen Node :=
  let pattern_parts := split_char "." (pattern query) in
  gen_bind (_find w root_dir pattern_parts) (find_node w root_dir query).

(** *** Store *)

(** A remote store: its [available] flag, and the results its find request
    delivers for a query. *)
Record RemoteStore : Type := mkRemoteStore {
  available : bool;
  get_results : Query -> Gen Node
}.

Record Store : Type := mkStore {
  directories : list string;
  remote_stores : list RemoteStore
}.

(** [for match in find(directory, query): yield match; found.add(...)] *)
Fixpoint yield_local (found : gset string) (matches : list Node)
  : list Node * gset string :=
  match matches with
  | [] => ([], found)
  | m :: matches' =>
      let '(ys, found') := yield_local ({[metric_path m]} ∪ found) matches' in
      (m :: ys, found')
  end.

(** [for match in request.get_results(): if match.metric_path not in found:
    yield match; found.add(...)] *)
Fixpoint yield_unseen (found : gset string) (matches : list Node)
  : list Node * gset string :=
  match matches with
  | [] => ([], found)
  | m :: matches' =>
      if decide (metric_path m ∈ found) then yield_unseen found matches'
      else
        let '(ys, found') := yield_unseen ({[metric_path m]} ∪ found) matches' in
        (m :: ys, found')
  end.

(** A loop over generators, each run through [each] with the set [found]. *)
Fixpoint find_loop (each : gset string -> list Node -> list Node * gset string)
    (found : gset string) (gens : list (Gen Node))
    (k : gset string -> Gen Node) : Gen Node :=
  match gens with
  | [] => k found
  | g :: gens' =>
      let '(ys, found') := each found (fst g) in
      match snd g with
      | Some e => (ys, Some e)
      | None => gen_app (ys, None) (find_loop each found' gens' k)
      end
  end.

Definition find_all (w : World) (self : Store) (query : Query) : Gen Node :=
  let found : gset string := ∅ in
  let remote_requests :=
    map (fun r => get_results r query)
        (List.filter available (remote_stores self)) in
  find_loop yield_local found
    (map (fun directory => find w directory query) (directories self))
    (fun found => find_loop yield_unseen found remote_requests (fun _ => stop)).

End Storage.

(** ** storage.py: the rest of [Store] *)

Module StoreOps.
Import Storage.

(** [for g in gens: for match in g: return match], and [None] at the end.
    A generator is only run up to its first value. *)
Fixpoint first_match (gens : list (Gen Node)) : result (option Node) :=
  match gens with
  | [] => Ok None
  | g :: gens' =>
      match fst g, snd g with
      | m :: _, _ => Ok (Some m)
      | [], Some e => Raise e
      | [], None => first_match gens'
      end
  end.

Definition find_first (w : World) (self : Store) (query : Query)
  : result (option Node) :=
  match first_match
          (map (fun directory => find w directory query) (directories self)) with
  | Ok None =>
      let remote_requests :=
        map (fun r => get_results r query)
            (List.filter available (remote_stores self)) in
      first_match remote_requests
  | found => found
  end.

(** [Store.find], without its log line. *)
Definition Store_find (w : World) (self : Store) (pattern : string)
    (startTime endTime : option Z) : Gen Node :=
  let query := mkQuery pattern startTime endTime in
  if isExact query then
    match find_first w self query with
    | Raise e => throw e
    | Ok (Some m) => yield_ m stop
    | Ok None => stop
    end
  else find_all w self query.

Section LocalInterface.
(** [socket.socket().bind((host, port))]: [None] when it binds, and the
    [errno] of the [socket.error] otherwise. *)
Variable bind : string -> Z -> option Z.
Variable EADDRNOTAVAIL : Z.
(** [str(e)] for a [socket.error], and [RemoteStore(host)]. *)
Variable str_error : Z -> string.
Variable RemoteStore_new : string -> RemoteStore.

(** The loop [for port in xrange(...)] from [port] on, [count] ports,
    with [e] the last exception caught. *)
Fixpoint try_ports (count : nat) (port : Z) (host : string) (e : option Z)
  : result bool :=
  match count with
  | O =>
      Raise (Exception
               ("Failed all attempts at binding to interface " ++ host
                ++ ", last exception was "
                ++ match e with Some errno => str_error errno | None => "" end))
  | S count' =>
      match bind host port with
      | None => Ok true
      | Some errno =>
          if errno =? EADDRNOTAVAIL then Ok false
          else try_ports count' (port + 1) host (Some errno)
      end
  end.

Definition interface_of (host : string) : string :=
  if char_in ":" host then hd EmptyString (split_char ":" host) else host.

Definition is_local_interface (host : string) : result bool :=
  try_ports (Z.to_nat (65535 - 1025)) 1025 (interface_of host) None.

(** [[host for host in hosts if not is_local_interface(host)]] *)
Fixpoint remote_hosts_of (hosts : list string) : result (list string) :=
  match hosts with
  | [] => Ok []
  | host :: hosts' =>
      b <- is_local_interface host ;;
      rest <- remote_hosts_of hosts' ;;
      Ok (if b then rest else host :: rest)
  end.

(** [Store.__init__]. The test [directories or remote_hosts] reads the name
    [remote_hosts], which is bound nowhere: it is evaluated, and raises
    [NameError], when [directories] is empty. *)
Definition Store_init (directories hosts : list string) : result Store :=
  remote_hosts <- remote_hosts_of hosts ;;
  let remote_stores := map RemoteStore_new remote_hosts in
  match directories with
  | _ :: _ =>
      Ok {| Storage.directories := directories;
            Storage.remote_stores := remote_stores |}
  | [] => Raise NameError
  end.

End LocalInterface.

End StoreOps.

(** ** render/datalib.py: [CarbonLinkPool] *)

Module CarbonLink.
Import Datalib.

(** A host of the pool: [(server, instance)]. *)
Definition Host : Type := string * option string.

(** [struct.pack("!L", n)]: four bytes, most significant first;
    [struct.error] for a number that does not fit. *)
Definition byte_of (n : Z) : Byte.byte :=
  default Byte.x00 (Byte.of_N (Z.to_N (n mod 256))).

Definition pack_L (n : Z) : result (list Byte.byte) :=
  if (0 <=? n) && (n <? 2 ^ 32)
  then Ok [byte_of (n / 2 ^ 24); byte_of (n / 2 ^ 16); byte_of (n / 2 ^ 8);
           byte_of n]
  else Raise StructError.

(** The three requests that the pool sends; each is a dictionary with the
    keys [type] and [metric], and [key] and [value] where they apply. *)
Inductive Request (Val : Type) : Type :=
| cache_query (metric : string)
| get_metadata (metric key : string)
| set_metadata (metric key : string) (value : Val).
Arguments cache_query {Val} metric.
Arguments get_metadata {Val} metric key.
Arguments set_metadata {Val} metric key value.

Definition request_metric {Val} (request : Request Val) : string :=
  match request with
  | cache_query metric => metric
  | get_metadata metric _ => metric
  | set_metadata metric _ _ => metric
  end.

(** How a call ends: with a value, with an exception, or with
    [CarbonLinkRequestError(error)]. *)
Inductive Outcome (Val A : Type) : Type :=
| Returned (a : A)
| Raised (e : exn)
| RequestError (error : Val).
Arguments Returned {Val A} a.
Arguments Raised {Val A} e.
Arguments RequestError {Val A} error.

Record CarbonLinkPool (Conn : Type) : Type := mkCarbonLinkPool {
  hosts : list Host;
  ports : gmap Host Z;
  timeout : Q;
  connections : gmap Host (list Conn);
  last_failure : gmap Host Q
}.
Arguments mkCarbonLinkPool {Conn} hosts ports timeout connections last_failure.
Arguments hosts {Conn} c.
Arguments ports {Conn} c.
Arguments timeout {Conn} c.
Arguments connections {Conn} c.
Arguments last_failure {Conn} c.

Section Pool.
(** Sockets: [Conn] is a connected socket with its state. [connect server
    port timeout] stands for [socket.socket()], [settimeout], [connect] and
    [setsockopt], of which [connect] may raise; [sendall] and [recv] are the
    methods of the socket. *)
Variable Conn : Type.
Variable connect : string -> Z -> Q -> result Conn.
Variable sendall : Conn -> list Byte.byte -> result unit * Conn.
Variable recv : Conn -> Z -> result (list Byte.byte) * Conn.

(** [set.pop()] on a pool of connections: some member and the others;
    [None] for the empty set, where Python raises [KeyError]. *)
Variable pop : list Conn -> option (Conn * list Conn).

(** [pickle.dumps(request, protocol=-1)] and [pickle.loads], a response
    being a dictionary from strings to values; and
    [ConsistentHashRing(hosts).get_node(metric)]. *)
Variable Val : Type.
Variable dumps : Request Val -> list Byte.byte.
Variable loads : list Byte.byte -> result (gmap string Val).
Variable get_node : list Host -> string -> Host.

(** [CarbonLinkPool.__init__]: in [ports] a later entry for the same host
    replaces an earlier one. *)
Definition CarbonLinkPool_init (hosts : list (string * Z * option string))
    (timeout : Q) : CarbonLinkPool Conn :=
  let hosts' := map (fun h => (fst (fst h), snd h)) hosts in
  {| hosts := hosts';
     ports := list_to_map
                (rev (map (fun h => ((fst (fst h), snd h), snd (fst h))) hosts));
     timeout := timeout;
     connections := fold_left (fun c host => <[host := []]> c) hosts' ∅;
     last_failure := ∅ |}.

Definition select_host (self : CarbonLinkPool Conn) (metric : string) : Host :=
  get_node (hosts self) metric.

Definition set_connections (self : CarbonLinkPool Conn) (host : Host)
    (pool : list Conn) : CarbonLinkPool Conn :=
  {| hosts := hosts self; ports := ports self; timeout := timeout self;
     connections := <[host := pool]> (connections self);
     last_failure := last_failure self |}.

Definition set_last_failure (self : CarbonLinkPool Conn) (host : Host)
    (now : Q) : CarbonLinkPool Conn :=
  {| hosts := hosts self; ports := ports self; timeout := timeout self;
     connections := connections self;
     last_failure := <[host := now]> (last_failure self) |}.

(** [get_connection], [now] being what [time.time()] returns. *)
Definition get_connection (self : CarbonLinkPool Conn) (now : Q) (host : Host)
  : result Conn * CarbonLinkPool Conn :=
  match ports self !! host, connections self !! host with
  | Some port, Some connectionPool =>
      match pop connectionPool with
      | Some (conn, rest) => (Ok conn, set_connections self host rest)
      | None =>
          match connect (fst host) port (timeout self) with
          | Raise e => (Raise e, set_last_failure self host now)
          | Ok connection => (Ok connection, self)
          end
      end
  | _, _ => (Raise KeyError, self)
  end.

(** [send_request]. [None] stands for a receive loop cut short by its fuel,
    as in [recv_exactly]. Where the connection is put back,
    [self.connections[host]] is there, [get_connection] having read it; the
    connection is not a member of the set, from which it was popped unless it
    is a new one. *)
Definition send_request (self : CarbonLinkPool Conn) (now : Q)
    (request : Request Val)
  : option (Outcome Val (gmap string Val) * CarbonLinkPool Conn) :=
  let metric := request_metric request in
  let serialized_request := dumps request in
  match pack_L (Z.of_nat (length serialized_request)) with
  | Raise e => Some (Raised e, self)
  | Ok len_prefix =>
      let request_packet := (len_prefix ++ serialized_request)%list in
      let host := select_host self metric in
      match get_connection self now host with
      | (Raise e, self) => Some (Raised e, self)
      | (Ok conn, self) =>
          match sendall conn request_packet with
          | (Raise e, _) => Some (Raised e, set_last_failure self host now)
          | (Ok _, conn) =>
              match recv_response recv loads conn with
              | None => None
              | Some (Raise e, _, _) =>
                  Some (Raised e, set_last_failure self host now)
              | Some (Ok result, conn, _) =>
                  let self :=
                    set_connections self host
                      (conn :: default [] (connections self !! host)) in
                  match result !! "error" with
                  | Some error => Some (RequestError error, self)
                  | None => Some (Returned result, self)
                  end
              end
          end
      end
  end.

(** [query], [get_metadata] and [set_metadata], without their log lines. *)
Definition lookup_result (key : string)
    (r : option (Outcome Val (gmap string Val) * CarbonLinkPool Conn))
  : option (Outcome Val Val * CarbonLinkPool Conn) :=
  match r with
  | None => None
  | Some (Returned results, self) =>
      match results !! key with
      | Some v => Some (Returned v, self)
      | None => Some (Raised KeyError, self)
      end
  | Some (Raised e, self) => Some (Raised e, self)
  | Some (RequestError error, self) => Some (RequestError error, self)
  end.

Definition query (self : CarbonLinkPool Conn) (now : Q) (metric : string)
  : option (Outcome Val Val * CarbonLinkPool Conn) :=
  lookup_result "datapoints" (send_request self now (cache_query metric)).

Definition get_metadata_ (self : CarbonLinkPool Conn) (now : Q)
    (metric key : string) : option (Outcome Val Val * CarbonLinkPool Conn) :=
  lookup_result "value" (send_request self now (get_metadata metric key)).

Definition set_metadata_ (self : CarbonLinkPool Conn) (now : Q)
    (metric key : string) (value : Val)
  : option (Outcome Val (gmap string Val) * CarbonLinkPool Conn) :=
  send_request self now (set_metadata metric key value).

End Pool.

End CarbonLink.

(** ** render/datalib.py: [fetchDataLocal] *)

Module Render.
Import Datalib Storage StoreOps.

Section FetchDataLocal.
(** The calendar times of the request with [timestamp] ([time.mktime]), the
    file system, and the two stores of [graphite.storage]. *)
Variable DateTime : Type.
Variable timestamp : DateTime -> Q.
Variable w : World.
Variables LOCAL_STORE STORE : Store.

(** [fetch] of the nodes that hold data: the result of [whisper.fetch], of
    the Ceres node or of the remote store, [None] standing for a falsy one,
    or the exception raised. *)
Variable fetch_data :
  Node -> Q -> Q -> result (option (TimeInfo * list (option Q))).

(** [list(CarbonLink.query(metric))]: the cached samples or the exception,
    and the pool afterwards. *)
Variable Pool : Type.
Variable query : Pool -> string -> result (list (Z * option Q)) * Pool.

(** [dbFile.fetch]: a [Branch], and an [RRDFile], which inherits from it,
    returns [[]]. *)
Definition Node_fetch (dbFile : Node) (startTime endTime : Q)
  : result (option (TimeInfo * list (option Q))) :=
  match class dbFile with
  | Branch | RRDFile => Ok None
  | _ => fetch_data dbFile startTime endTime
  end.

(** The [try] block: [results] is what the merge returns, and [dbResults]
    when the query or the merge raises. The merge raises before it has
    stored a value, so that [dbResults] is then as the database gave it.
    [None] is a falsy [dbResults]. *)
Definition merged (dbResults : option (TimeInfo * list (option Q)))
    (cachedResults : result (list (Z * option Q)))
  : option (@Merged (option Q)) :=
  match (c <- cachedResults ;; mergeResults dbResults c) with
  | Ok results => Some results
  | Raise _ =>
      match dbResults with
      | Some (timeInfo, values) => Some (DbResults timeInfo values)
      | None => None
      end
  end.

(** The loop [for dbFile in store.find(pathExpr)], over the nodes that the
    generator yields and the exception that ends it, if any. Unpacking a
    list of cached samples, which are pairs, as [(timeInfo, values)] and
    then as [(start, end, step)] raises [ValueError] whatever its length. *)
Fixpoint fetch_loop (startTime endTime : Q) (pathExpr : string)
    (dbFiles : list Node) (raised : option exn) (pool : Pool)
  : result (list TimeSeries) * Pool :=
  match dbFiles with
  | [] =>
      (match raised with
       | Some e => Raise e
       | None => Ok []
       end, pool)
  | dbFile :: dbFiles' =>
      match Node_fetch dbFile startTime endTime with
      | Raise e => (Raise e, pool)
      | Ok dbResults =>
          let '(cachedResults, pool) := query pool (real_metric dbFile) in
          match merged dbResults cachedResults with
          | None | Some (CacheResults []) =>
              fetch_loop startTime endTime pathExpr dbFiles' raised pool
          | Some (CacheResults (_ :: _)) => (Raise ValueError, pool)
          | Some (DbResults (start, end_, step) values) =>
              let series :=
                TimeSeries_init (metric_path dbFile) start end_ step values
                  "average" in
              let series :=
                {| Datalib.name := Datalib.name series;
                   start := Datalib.start series;
                   end_ := Datalib.end_ series; step := Datalib.step series;
                   values := Datalib.values series;
                   consolidationFunc := consolidationFunc series;
                   valuesPerPoint := valuesPerPoint series;
                   pathExpression := Some pathExpr |} in
              match fetch_loop startTime endTime pathExpr dbFiles' raised pool
              with
              | (Ok seriesList, pool) => (Ok (series :: seriesList), pool)
              | (Raise e, pool) => (Raise e, pool)
              end
          end
      end
  end.

Definition fetchDataLocal (requestContext : RequestContext DateTime)
    (pathExpr : string) (pool : Pool) : result (list TimeSeries) * Pool :=
  let startTime := ctx_startTime _ requestContext in
  let endTime := ctx_endTime _ requestContext in
  let store := if ctx_localOnly _ requestContext then LOCAL_STORE else STORE in
  let found := Store_find w store pathExpr None None in
  fetch_loop (timestamp startTime) (timestamp endTime) pathExpr
    (fst found) (snd found) pool.

End FetchDataLocal.

End Render.

(** * Notions used to state the properties, and small installations *)

Module DatalibSpec.
Import Datalib.

(** What the generator yields for a group [g], in the loop and in the tail
    alike: the consolidation of the non-null members of [g]. *)
Definition group_result (self : TimeSeries) (g : list (option Q))
    (rest : Gen (option Q)) : Gen (option Q) :=
  match consolidate_values self g with
  | Ok v => yield_ v rest
  | Raise e => throw e
  end.

Definition valid_consolidationFunc (self : TimeSeries) : Prop :=
  consolidationFunc self = "sum" \/ consolidationFunc self = "average".

(** The series of the specification's example: [1, 2, None, 4] with
    [consolidate(2)] and the default function. *)
Definition spec_series : TimeSeries :=
  consolidate
    (TimeSeries_init "m" 0 40 10
       [Some (1#1); Some (2#1); None; Some (4#1)]%Q "average")
    (2#1)%Q.

Definition connection_lost {A} : result A := Raise (Exception "Connection lost").

(** Reading a response, as the specification words it. *)
Section Reading.
Variable Conn : Type.
Variable recv : Conn -> Z -> result (list Byte.byte) * Conn.

Definition received_after (data : list Byte.byte)
    (r : result (list Byte.byte)) : result (list Byte.byte) :=
  match r with
  | Ok rest => Ok (data ++ rest)%list
  | Raise e => Raise e
  end.

(** [reads_exactly conn n reads r conn']: reading [n] bytes from [conn]
    makes the reads [reads], in order, ends with [r] and leaves [conn'].
    Nothing is read when no byte is wanted. Otherwise the connection is
    asked for the bytes still wanted: a read of zero bytes is a lost
    connection, an exception of the socket passes, and any other data is
    kept, the reading going on for the rest. *)
Inductive reads_exactly
  : Conn -> Z -> list (list Byte.byte) -> result (list Byte.byte) -> Conn
    -> Prop :=
| reads_nothing conn n :
    n <= 0 -> reads_exactly conn n [] (Ok []) conn
| reads_zero conn n conn' :
    0 < n -> recv conn n = (Ok [], conn') ->
    reads_exactly conn n [[]] connection_lost conn'
| reads_raise conn n e conn' :
    0 < n -> recv conn n = (Raise e, conn') ->
    reads_exactly conn n [] (Raise e) conn'
| reads_more conn n data conn1 reads r conn' :
    0 < n -> recv conn n = (Ok data, conn1) -> data <> [] ->
    reads_exactly conn1 (n - Z.of_nat (length data)) reads r conn' ->
    reads_exactly conn n (data :: reads) (received_after data r) conn'.

(** [reads_response loads conn reads r conn']: four bytes are read; they
    are a length [L], most significant byte first; [L] more bytes are read,
    and the response is what [loads] makes of them. A reading that fails
    fails the response. *)
Definition reads_response {Obj : Type} (loads : list Byte.byte -> result Obj)
    (conn : Conn) (reads : list (list Byte.byte)) (r : result Obj)
    (conn' : Conn) : Prop :=
  exists r1 reads1 conn1,
    reads_exactly conn 4 reads1 r1 conn1
    /\ match r1 with
       | Raise e => r = Raise e /\ reads = reads1 /\ conn' = conn1
       | Ok [b0; b1; b2; b3] =>
           let L := byte_val b0 * 2 ^ 24 + byte_val b1 * 2 ^ 16
                    + byte_val b2 * 2 ^ 8 + byte_val b3 in
           exists r2 reads2,
             reads_exactly conn1 L reads2 r2 conn'
             /\ reads = (reads1 ++ reads2)%list
             /\ match r2 with
                | Raise e => r = Raise e
                | Ok body => Z.of_nat (length body) = L /\ r = loads body
                end
       | Ok _ => False
       end.

End Reading.

Arguments reads_exactly {Conn} recv conn n reads r conn'.
Arguments reads_response {Conn} recv {Obj} loads conn reads r conn'.

(** A connection that delivers a fixed sequence of segments: each [recv]
    returns at most [bufsize] bytes of the first segment; an empty segment, or
    the end of the sequence, is a read of zero bytes. *)
Definition segments_recv (conn : list (list Byte.byte)) (bufsize : Z)
  : result (list Byte.byte) * list (list Byte.byte) :=
  if bufsize <? 0 then (Raise ValueError, conn) else
  match conn with
  | [] => (Ok [], [])
  | seg :: conn' =>
      let n := Z.to_nat bufsize in
      (Ok (firstn n seg),
       match skipn n seg with
       | [] => conn'
       | seg' => seg' :: conn'
       end)
  end.

(** A response whose prefix announces three bytes, arriving in four
    segments; and the same response cut after two bytes of the body. *)
Definition response_in_pieces : list (list Byte.byte) :=
  [[Byte.x00; Byte.x00]; [Byte.x00; Byte.x03];
   [Byte.x61; Byte.x62]; [Byte.x63]].

Definition response_cut_short : list (list Byte.byte) :=
  [[Byte.x00; Byte.x00]; [Byte.x00; Byte.x03]; [Byte.x61; Byte.x62]].

(** The value a bucket ends with: that of the last sample aimed at it. *)
Definition last_in_bucket (start rate steps : Z) (samples : list (Z * Q))
    (b : Z) : option (Z * Q) :=
  last (filter (fun x => bucket_of start rate steps (fst x) = b) samples).


(** [metricRate] after the loop over [metricData]. *)
Fixpoint collect_rates (metricData : list (string * option Z))
    (metricRate : gmap string Z) : gmap string Z :=
  match metricData with
  | [] => metricRate
  | m :: metricData' =>
      if no_rate (snd m) then collect_rates metricData' metricRate
      else collect_rates metricData' (<[fst m := default 0 (snd m)]> metricRate)
  end.

Fixpoint count (n : string) (l : list string) : nat :=
  match l with
  | [] => O
  | y :: l' => if String.eqb y n then S (count n l') else count n l'
  end.

(** The names of the index that come without a rate. *)
Definition without_rate (index : list (string * option Z)) (n : string) : Prop :=
  exists rate, In (n, rate) index /\ no_rate rate = true.

Global Instance without_rate_dec index n : Decision (without_rate index n).
Proof.
    unfold without_rate.
    induction index as [|[n' r] index IH].
    - right. intros (? & [] & _).
    - destruct IH as [IH|IH].
      + left. destruct IH as (rate & ? & ?). exists rate. split; [now right | auto].
      + destruct (decide (n' = n /\ no_rate r = true)) as [[-> E]|N].
        * left. exists r. split; [now left | auto].
        * right. intros (rate & [[= -> ->]|Hin] & Hno); [tauto|].
          apply IH. eauto.
Defined.

End DatalibSpec.

(** A small installation: names are stored under the prefix "fs.", the
    index knows a metric with a rate and one without, and the scan returns
    one cell of the first. *)
Module DatalibDemo.
Import Datalib.

Definition addPrefix (s : string) : string :=
  if String.prefix "fs." s then s else "fs." ++ s.

Definition removePrefix (s : string) : string :=
  if String.prefix "fs." s then String.substring 3 (String.length s - 3) s
  else s.

Definition findMetric (pathExpr : string) : list (string * option Z) :=
  [("fs.web.cpu", Some 60); ("fs.web.mem", None)].

Definition doScan (spec : ScanSpec) (table : string) : list Cell :=
  [mkCell "fs.web.cpu" "metric" "2026-01-01 00" (5#1)%Q (70 * 10 ^ 9)].

Definition requestContext : RequestContext Z := mkRequestContext Z 0 180 false.

Definition fetch (find : string -> list (string * option Z))
  : result (list TimeSeries) * list (LogEntry Z) :=
  fetchDataFromHyperTable inject_Z (fun _ fmt => fmt) addPrefix removePrefix
    find doScan requestContext "web.*".

End DatalibDemo.

Module StorageSpec.
Import Storage.

(** Whether some component of a path starts with a dot. *)
Definition has_dot_component (p : string) : bool :=
  existsb (startswith_char ".") (split_char "/" p).

(** The generators of a list run one after the other: what they yield up to
    the first that raises. *)
Fixpoint gen_concat {A} (gens : list (Gen A)) : Gen A :=
  match gens with
  | [] => stop
  | g :: gens' => gen_app g (gen_concat gens')
  end.

Definition paths (ms : list Node) : gset string :=
  list_to_set (map metric_path ms).

(** [Unseen found ms ys]: going through [ms] with the seen-set [found], a
    node is passed on exactly when its [metric_path] is not in the set, and
    is then added to it; [ys] are the nodes passed on. *)
Inductive Unseen : gset string -> list Node -> list Node -> Prop :=
| Unseen_nil found : Unseen found [] []
| Unseen_skip found m ms ys :
    metric_path m ∈ found ->
    Unseen found ms ys ->
    Unseen found (m :: ms) ys
| Unseen_yield found m ms ys :
    metric_path m ∉ found ->
    Unseen ({[metric_path m]} ∪ found) ms ys ->
    Unseen found (m :: ms) (m :: ys).

End StorageSpec.

(** A small installation. The root [/data] has the directories [.hidden],
    [a] and [x]; [a] is a symbolic link to [x]; [.hidden] holds [cpu.wsp]
    and [x] holds [y.wsp] and [.z.wsp]. One remote store is available and
    answers every query with the metric [a.y]. *)
Module StorageDemo.
Import Storage.

Definition mem (p : string) (l : list string) : bool :=
  existsb (String.eqb p) l.

Definition world : World :=
  {| listdir := fun p =>
       if String.eqb p "/data" then Ok [".hidden"; "x"; "a"]
       else if String.eqb p "/data/.hidden" then Ok ["cpu.wsp"]
       else if mem p ["/data/a"; "/data/x"] then Ok ["y.wsp"; ".z.wsp"]
       else Raise OSError;
     isdir := fun p => mem p ["/data"; "/data/.hidden"; "/data/a"; "/data/x"];
     isfile := fun p =>
       mem p ["/data/.hidden/cpu.wsp"; "/data/a/y.wsp"; "/data/x/y.wsp";
              "/data/a/.z.wsp"; "/data/x/.z.wsp"];
     realpath := fun p =>
       if String.eqb p "/data/a" then "/data/x"
       else if String.eqb p "/data/a/y.wsp" then "/data/x/y.wsp"
       else p;
     fnmatch := Fnmatch.fnmatch;
     rrdtool := false;
     rrd_info_ds := fun _ => Ok [];
     isNodeDir := fun _ => false;
     nodePath := fun p => p;
     hasDataForInterval := fun _ _ _ => true |}.

Definition remote_node : Node :=
  {| class := RemoteNode; fs_path := "/opt/graphite/storage/whisper/a/y.wsp";
     metric_path := "a.y"; real_metric := "a.y"; name := "y" |}.

Definition store : Store :=
  {| directories := ["/data"];
     remote_stores := [mkRemoteStore true (fun _ => ([remote_node], None))] |}.

Definition hidden_cpu : Node :=
  {| class := WhisperFile; fs_path := "/data/.hidden/cpu.wsp";
     metric_path := ".hidden.cpu"; real_metric := ".hidden.cpu";
     name := "cpu" |}.

Definition a_y : Node :=
  {| class := WhisperFile; fs_path := "/data/a/y.wsp";
     metric_path := "a.y"; real_metric := "x.y"; name := "y" |}.

Definition x_y : Node :=
  {| class := WhisperFile; fs_path := "/data/x/y.wsp";
     metric_path := "x.y"; real_metric := "x.y"; name := "y" |}.

End StorageDemo.

(** * Further notions *)

Module StorageExtraSpec.
Import Storage StoreOps.

(** Binding fails at this port for a reason other than the address not
    being available. *)
Definition other_error (bind : string -> Z -> option Z) (EADDRNOTAVAIL : Z)
    (host : string) (port : Z) : Prop :=
  exists errno, bind host port = Some errno /\ errno <> EADDRNOTAVAIL.

(** The world [w] with another [os.listdir]. *)
Definition with_listdir (w : World) (ld : string -> result (list string))
  : World :=
  {| listdir := ld; isdir := isdir w; isfile := isfile w;
     realpath := realpath w; fnmatch := fnmatch w; rrdtool := rrdtool w;
     rrd_info_ds := rrd_info_ds w; isNodeDir := isNodeDir w;
     nodePath := nodePath w; hasDataForInterval := hasDataForInterval w |}.

(** Two listings of a directory that differ in order at most. *)
Definition same_entries (a b : result (list string)) : Prop :=
  match a, b with
  | Ok l, Ok l' => Permutation l l'
  | Raise e, Raise e' => e = e'
  | _, _ => False
  end.

(** What the file system says of the path of a node, by the class of the
    node. *)
Definition kind_matches (w : World) (query : Query) (n : Node) : Prop :=
  match class n with
  | Branch => isdir w (fs_path n) = true /\ isNodeDir w (fs_path n) = false
  | CeresDirectory =>
      isdir w (fs_path n) = true /\ isNodeDir w (fs_path n) = true
      /\ hasDataForInterval w (fs_path n) (startTime query) (endTime query)
         = true
  | WhisperFile | GzippedWhisperFile =>
      isdir w (fs_path n) = false /\ isfile w (fs_path n) = true
  | RRDFile =>
      isdir w (fs_path n) = false /\ isfile w (fs_path n) = true
      /\ rrdtool w = true
  | RRDDataSource | RemoteNode => False
  end.

(** The paths beneath [current_dir] that match [patterns] component by
    component: a directory for each pattern but the last, and for the last
    one a directory, or a file whose name matches the pattern followed by
    an extension; and, where [rrdtool] is there, an RRD file for the last
    pattern but one, the last pattern then being that of a data source. *)
Fixpoint matching (w : World) (current_dir : string) (patterns : list string)
    (path : string) : Prop :=
  match patterns with
  | [] => False
  | pattern :: patterns' =>
      exists entries e,
        listdir w current_dir = Ok entries /\ In e entries
        /\ match patterns' with
           | [] =>
               path = join current_dir e
               /\ (isdir w (join current_dir e) = true
                   /\ fnmatch w e pattern = true
                   \/ isfile w (join current_dir e) = true
                      /\ fnmatch w e (pattern ++ ".*") = true)
           | _ :: _ =>
               (isdir w (join current_dir e) = true
                /\ fnmatch w e pattern = true
                /\ matching w (join current_dir e) patterns' path)
               \/ (exists datasource_pattern,
                      patterns' = [datasource_pattern]
                      /\ rrdtool w = true
                      /\ isfile w (join current_dir e) = true
                      /\ fnmatch w e (pattern ++ ".rrd") = true
                      /\ path = (join current_dir e ++ DATASOURCE_DELIMETER
                                 ++ datasource_pattern)%string)
           end
  end.

End StorageExtraSpec.

Module DatalibExtraSpec.
Import Datalib.

(** The position that [l[i] = v] writes to in a list of [len] members, if
    any: [i] itself, or [len + i] for a negative [i]. *)
Definition target (len : nat) (i : Z) : option nat :=
  if (0 <=? i) && (i <? Z.of_nat len) then Some (Z.to_nat i)
  else if (- Z.of_nat len <=? i) && (i <? 0)
       then Some (Z.to_nat (Z.of_nat len + i))
       else None.

(** The last cache sample that is written to position [j]. *)
Definition last_written {V} (start step : Z) (len : nat)
    (cache : list (Z * V)) (j : nat) : option (Z * V) :=
  last (filter (fun s => target len (slot start step (fst s)) = Some j) cache).

Definition invalid_consolidation : exn :=
  Exception "Invalid consolidation function!".

(** The scan that a fetch asks for: of the rows [metrics], the cells in the
    columns from the hour of the start to the hour of the end, both
    included, written between the start and the end, in nanoseconds, in
    360 versions at most. *)
Definition requested_scan (start end_ : Z)
    (startColString endColString : string) (metrics : list string)
  : ScanSpec :=
  {| start_time := start * 10 ^ 9;
     end_time := end_ * 10 ^ 9;
     cell_intervals :=
       map (fun m => mkCellInterval m startColString true
                                    m endColString true) metrics;
     versions := 360 |}.

End DatalibExtraSpec.

(** A pool with one carbon host and one open connection to it, on which a
    response with an empty dictionary is waiting. *)
Module CarbonLinkDemo.
Import Datalib CarbonLink.

Definition carbon : Host := ("127.0.0.1", None).

Definition pop_first {A} (l : list A) : option (A * list A) :=
  match l with
  | [] => None
  | c :: rest => Some (c, rest)
  end.

Definition answered : list (list Byte.byte) :=
  [[Byte.x00; Byte.x00]; [Byte.x00; Byte.x00]].

Definition pool : CarbonLinkPool (list (list Byte.byte)) :=
  {| hosts := [carbon];
     ports := {[carbon := 7002]};
     timeout := 1;
     connections := {[carbon := [answered]]};
     last_failure := ∅ |}.

End CarbonLinkDemo.

Module RenderSpec.
Import Datalib Render.

(** The cache [query] with every failure turned into an empty answer. *)
Definition quiet {Pool : Type}
    (query : Pool -> string -> result (list (Z * option Q)) * Pool)
    (pool : Pool) (metric : string) : result (list (Z * option Q)) * Pool :=
  match query pool metric with
  | (Raise _, pool') => (Ok [], pool')
  | answer => answer
  end.

(** A fetch from the database that returned, and not a falsy value. *)
Definition has_data (r : result (option (TimeInfo * list (option Q)))) : bool :=
  match r with
  | Ok (Some _) => true
  | _ => false
  end.

End RenderSpec.

(** The store of the small installation, where each file holds four values
    from time 0 in steps of 10 and the cache has one sample, at time 15, for
    every metric. *)
Module RenderDemo.
Import Datalib Storage Render.

Definition fetch_data (dbFile : Node) (startTime endTime : Q)
  : result (option (TimeInfo * list (option Q))) :=
  Ok (Some ((0, 40, 10), [Some (1#1)%Q; None; None; None])).

Definition query (pool : unit) (metric : string)
  : result (list (Z * option Q)) * unit :=
  (Ok [(15, Some (7#1)%Q)], pool).

Definition requestContext : RequestContext Z := mkRequestContext Z 0 40 true.

Definition fetchDataLocal (pathExpr : string)
  : result (list TimeSeries) * unit :=
  Render.fetchDataLocal Z inject_Z StorageDemo.world StorageDemo.store
    StorageDemo.store fetch_data unit query requestContext pathExpr tt.

End RenderDemo.

(** * Properties *)

(** ** The runtime *)

Module PyProps.

Lemma char_in_spec c s : char_in c s = true <-> In c (list_ascii_of_string s).
Proof.
  induction s as [|a s IH]; simpl.
  - split; [discriminate | tauto].
  - rewrite orb_true_iff, IH, Ascii.eqb_eq. intuition congruence.
Qed.

Lemma gen_app_In {A} (g1 g2 : Gen A) x :
  In x (fst (gen_app g1 g2)) -> In x (fst g1) \/ In x (fst g2).
Proof.
  unfold gen_app. destruct (snd g1); simpl; [auto|].
  rewrite in_app_iff. auto.
Qed.

Lemma gen_for_In {A B} (l : list A) raised (body : A -> Gen B) b :
  In b (fst (gen_for l raised body)) ->
  exists a, In a l /\ In b (fst (body a)).
Proof.
  induction l as [|a l IH]; simpl; [tauto|].
  intros H. destruct (gen_app_In _ _ _ H) as [Ha|Hl].
  - exists a. auto.
  - destruct (IH Hl) as (a' & ? & ?). exists a'. auto.
Qed.

Lemma gen_bind_In {A B} (g : Gen A) (body : A -> Gen B) b :
  In b (fst (gen_bind g body)) ->
  exists a, In a (fst g) /\ In b (fst (body a)).
Proof. apply gen_for_In. Qed.

(** Unfolding [++] on strings that start with a known character. *)
Ltac append_head :=
  repeat match goal with
    | H : context [(String ?a ?s ++ ?t)%string] |- _ =>
        change (String a s ++ t)%string with (String a (s ++ t)%string) in H
    | H : context [(EmptyString ++ ?t)%string] |- _ =>
        change (EmptyString ++ t)%string with t in H
    | |- context [(String ?a ?s ++ ?t)%string] =>
        change (String a s ++ t)%string with (String a (s ++ t)%string)
    | |- context [(EmptyString ++ ?t)%string] =>
        change (EmptyString ++ t)%string with t
    end.

Lemma char_in_app c (a b : string) :
  char_in c (a ++ b) = char_in c a || char_in c b.
Proof.
  induction a as [|x a IH]; simpl; [reflexivity|].
  now rewrite IH, orb_assoc.
Qed.

Lemma strip_prefix_app d : forall s t,
  strip_prefix d s = Some t -> s = (d ++ t)%string.
Proof.
  induction d as [|a d IH]; intros s t; simpl.
  - now intros [= ->].
  - destruct s as [|b s]; [discriminate|].
    destruct (Ascii.eqb_spec a b) as [->|]; [|discriminate].
    intros H. now rewrite (IH _ _ H).
Qed.

Lemma rsplit1_app d : forall s h t,
  rsplit1 d s = Some (h, t) -> s = (h ++ d ++ t)%string.
Proof.
  induction s as [|c s IH]; intros h t; cbn [rsplit1].
  - destruct (strip_prefix d "") as [t'|] eqn:E; [|discriminate].
    intros [= <- <-]. exact (strip_prefix_app _ _ _ E).
  - destruct (rsplit1 d s) as [[h' t']|].
    + intros [= <- <-]. rewrite (IH h' t' eq_refl) at 1. reflexivity.
    + destruct (strip_prefix d (String c s)) as [t'|] eqn:E; [|discriminate].
      intros [= <- <-]. exact (strip_prefix_app _ _ _ E).
Qed.

Lemma contains_rsplit1 d : forall s,
  contains d s = true -> rsplit1 d s <> None.
Proof.
  induction s as [|c s IH]; cbn [contains rsplit1].
  - destruct (strip_prefix d ""); [discriminate | discriminate].
  - destruct (rsplit1 d s) as [[h t]|]; [discriminate|].
    destruct (strip_prefix d (String c s)); [discriminate|].
    intros H. now apply IH in H.
Qed.

Lemma contains_tail d c s : contains d s = true -> contains d (String c s) = true.
Proof.
  intros H. cbn [contains].
  destruct (strip_prefix d (String c s)); [reflexivity | exact H].
Qed.

Lemma basename_noslash b : char_in "/" b = false -> basename b = b.
Proof.
  destruct b as [|c b]; cbn [basename char_in]; [reflexivity|].
  rewrite orb_false_iff. intros [Hc ->].
  rewrite Ascii.eqb_sym, Hc. reflexivity.
Qed.

Lemma basename_app (a b : string) :
  char_in "/" b = false -> basename (a ++ b) = (basename a ++ b)%string.
Proof.
  intros Hb. induction a as [|c a IH].
  - now apply basename_noslash.
  - change (String c a ++ b)%string with (String c (a ++ b)).
    cbn [basename]. rewrite char_in_app, Hb, orb_false_r.
    destruct (char_in "/" a); [exact IH|].
    destruct (Ascii.eqb c "/"); reflexivity.
Qed.

Lemma contains_basename d : forall p,
  contains d (basename p) = true -> contains d p = true.
Proof.
  induction p as [|c p IH]; [auto|].
  cbn [basename].
  destruct (char_in "/" p).
  - intros H. apply contains_tail. auto.
  - destruct (Ascii.eqb c "/"); [apply contains_tail | auto].
Qed.

(** When the separator [d] has no [/] and occurs in the last component of
    [p], the last occurrence of [d] in [p] lies in that component. *)
Lemma rsplit1_in_basename d :
  char_in "/" d = false ->
  forall p h t,
    rsplit1 d p = Some (h, t) ->
    contains d (basename p) = true ->
    char_in "/" t = false.
Proof.
  intros Hd. induction p as [|c p IH]; intros h t.
  - cbn [rsplit1]. destruct (strip_prefix d "") as [t'|] eqn:E; [|discriminate].
    intros [= <- <-] _. apply strip_prefix_app in E.
    destruct d; append_head; [now subst | discriminate].
  - cbn [rsplit1 basename].
    destruct (rsplit1 d p) as [[h' t']|] eqn:Hr.
    + intros [= <- <-]. destruct (char_in "/" p) eqn:Hp.
      * intros H. eapply IH; eauto.
      * intros _. apply rsplit1_app in Hr. rewrite Hr in Hp.
        rewrite !char_in_app, !orb_false_iff in Hp. tauto.
    + destruct (strip_prefix d (String c p)) as [t'|] eqn:E; [|discriminate].
      intros [= <- <-]. destruct (char_in "/" p) eqn:Hp.
      * intros H. apply contains_basename, contains_rsplit1 in H. contradiction.
      * intros _. apply strip_prefix_app in E.
        destruct d as [|a d].
        -- destruct p; simpl in Hr.
           ++ discriminate.
           ++ destruct (rsplit1 "" p) as [[? ?]|]; discriminate.
        -- append_head. injection E as _ E. rewrite E in Hp.
           rewrite char_in_app, orb_false_iff in Hp. tauto.
Qed.

Lemma startswith_char_app c (a b : string) :
  startswith_char c a = true -> startswith_char c (a ++ b) = true.
Proof. destruct a; append_head; simpl; [discriminate | auto]. Qed.

(** Cutting a path at the last [d] of its last component keeps a last
    component that does not start with a dot. *)
Lemma basename_rsplit1_no_dot d p h t :
  char_in "/" d = false ->
  rsplit1 d p = Some (h, t) ->
  contains d (basename p) = true ->
  startswith_char "." (basename p) = false ->
  startswith_char "." (basename h) = false.
Proof.
  intros Hd Hr Hc Hdot.
  pose proof (rsplit1_in_basename d Hd p h t Hr Hc) as Ht.
  apply rsplit1_app in Hr. rewrite Hr in Hdot.
  rewrite basename_app in Hdot by (rewrite char_in_app, Hd, Ht; reflexivity).
  destruct (startswith_char "." (basename h)) eqn:E; [|reflexivity].
  now rewrite (startswith_char_app _ _ _ E) in Hdot.
Qed.

Lemma setitem_length {A} (l l' : list A) i v :
  setitem l i v = Ok l' -> length l' = length l.
Proof.
  unfold setitem.
  destruct (_ && _); [|destruct (_ && _)]; intros H; inversion H;
    now rewrite length_insert.
Qed.

(** **** The order of strings *)

Lemma ascii_compare_eq a b : Ascii.compare a b = Eq -> a = b.
Proof. apply Ascii.compare_eq_iff. Qed.

Lemma ascii_compare_trans a b c :
  Ascii.compare a b <> Gt -> Ascii.compare b c <> Gt ->
  Ascii.compare a c <> Gt
  /\ (Ascii.compare a c = Eq -> Ascii.compare a b = Eq /\ Ascii.compare b c = Eq).
Proof.
  unfold Ascii.compare. rewrite !N.compare_gt_iff, !N.compare_eq_iff.
  intros H1 H2. split; [lia|]. lia.
Qed.

Lemma string_leb_trans : forall a b c,
  String.leb a b = true -> String.leb b c = true -> String.leb a c = true.
Proof.
  unfold String.leb.
  induction a as [|x a IH]; intros [|y b] [|z c]; simpl; try easy.
  intros H1 H2.
  assert (Hxy : Ascii.compare x y <> Gt) by (destruct (Ascii.compare x y); easy).
  assert (Hyz : Ascii.compare y z <> Gt) by (destruct (Ascii.compare y z); easy).
  destruct (ascii_compare_trans x y z Hxy Hyz) as [Hxz Heq].
  destruct (Ascii.compare x z) eqn:Exz; [|reflexivity | contradiction].
  destruct (Heq eq_refl) as [E1 E2]. rewrite E1 in H1. rewrite E2 in H2.
  apply (IH b c); assumption.
Qed.

Global Instance str_le_trans : Transitive str_le.
Proof.
  intros a b c. unfold str_le. rewrite !Is_true_true. apply string_leb_trans.
Qed.

Global Instance str_le_antisym : AntiSymm (=) str_le.
Proof.
  intros a b. unfold str_le. rewrite !Is_true_true. apply String.leb_antisym.
Qed.

Global Instance str_le_total : Total str_le.
Proof.
  intros a b. unfold str_le. rewrite !Is_true_true. apply String.leb_total.
Qed.

Lemma merge_sort_Permutation_eq l l' :
  Permutation l l' -> merge_sort str_le l = merge_sort str_le l'.
Proof.
  intros H. apply (Sorted_unique str_le).
  - apply Sorted_merge_sort. apply _.
  - apply Sorted_merge_sort. apply _.
  - now rewrite !merge_sort_Permutation.
Qed.

End PyProps.

Import PyProps.

(** ** render/datalib.py *)

Module DatalibProps.
Import Datalib.
Import DatalibSpec.

(** **** Consolidating iteration *)

Lemma usable_remove_None buf : usable (remove_None buf) = usable buf.
Proof. induction buf as [|[v|] buf IH]; simpl; congruence. Qed.

Lemma remove_None_nil_usable buf : remove_None buf = [] -> usable buf = [].
Proof. intros H. rewrite <- usable_remove_None, H. reflexivity. Qed.

Lemma consolidate_values_remove_None self buf :
  consolidate_values self (remove_None buf) = consolidate_values self buf.
Proof. unfold consolidate_values. now rewrite usable_remove_None. Qed.

Lemma consolidate_values_all_None self buf :
  remove_None buf = [] -> consolidate_values self buf = Ok None.
Proof.
  intros H. unfold consolidate_values. now rewrite (remove_None_nil_usable _ H).
Qed.

Lemma consolidating_tail_eq self buf :
  consolidating_tail self buf = group_result self buf stop.
Proof.
  unfold consolidating_tail, group_result.
  destruct (remove_None buf) as [|o buf'] eqn:E.
  - now rewrite (consolidate_values_all_None _ _ E).
  - rewrite <- E, consolidate_values_remove_None. reflexivity.
Qed.

(** While the buffer stays short of [valuesPerPoint] the loop only appends. *)
Lemma consolidating_fill self g rest buf :
  Z.of_nat (length buf + length g) < valuesPerPoint self ->
  consolidatingGenerator_from self (g ++ rest) buf
  = consolidatingGenerator_from self rest (buf ++ g).
Proof.
  revert buf. induction g as [|x g IH]; intros buf Hlt; simpl.
  - now rewrite app_nil_r.
  - simpl in Hlt.
    destruct (Z.eqb_spec (Z.of_nat (length (buf ++ [x]))) (valuesPerPoint self))
      as [E|_].
    + rewrite length_app in E. simpl in E. lia.
    + rewrite IH by (rewrite length_app; simpl; lia).
      now rewrite <- app_assoc.
Qed.

(** A full group of [valuesPerPoint] samples yields one value, and the loop
    goes on with an empty buffer. *)
Lemma consolidating_full_group self g rest :
  Z.of_nat (length g) = valuesPerPoint self ->
  1 < valuesPerPoint self ->
  consolidatingGenerator_from self (g ++ rest) []
  = group_result self g (consolidatingGenerator_from self rest []).
Proof.
  intros Hlen Hvpp.
  destruct (exists_last (l := g)) as (g0 & x & ->).
  { intros ->. simpl in Hlen. lia. }
  rewrite <- app_assoc. simpl.
  rewrite length_app in Hlen. simpl in Hlen.
  rewrite consolidating_fill by (simpl; lia).
  simpl.
  destruct (Z.eqb_spec (Z.of_nat (length (g0 ++ [x]))) (valuesPerPoint self))
    as [_|N]; [|rewrite length_app in N; simpl in N; lia].
  unfold group_result.
  destruct (remove_None (g0 ++ [x])) as [|o buf'] eqn:E.
  - now rewrite (consolidate_values_all_None _ _ E).
  - rewrite <- E, consolidate_values_remove_None. reflexivity.
Qed.

(** What is left after the last full group yields one more value, also when
    nothing is left: then that value is [None]. *)
Lemma consolidating_partial_group self g :
  Z.of_nat (length g) < valuesPerPoint self ->
  consolidatingGenerator_from self g [] = group_result self g stop.
Proof.
  intros Hlt.
  rewrite <- (app_nil_r g) at 1.
  rewrite consolidating_fill by (simpl; lia).
  simpl. apply consolidating_tail_eq.
Qed.

Lemma consolidating_nothing_left self :
  0 < valuesPerPoint self ->
  consolidatingGenerator_from self [] [] = ([None], None).
Proof. reflexivity. Qed.

Lemma consolidate_values_valid self g :
  valid_consolidationFunc self -> exists v, consolidate_values self g = Ok v.
Proof.
  intros [H|H]; unfold consolidate_values; rewrite H;
    destruct (usable g); simpl; eauto.
Qed.

(** The number of values the iteration yields: one per full group and always
    one more. *)
Lemma consolidating_count self gen :
  valid_consolidationFunc self ->
  1 < valuesPerPoint self ->
  snd (consolidatingGenerator_from self gen []) = None /\
  Z.of_nat (length (fst (consolidatingGenerator_from self gen [])))
  = Z.of_nat (length gen) / valuesPerPoint self + 1.
Proof.
  intros Hv Hvpp.
  remember (length gen) as k eqn:Hk.
  revert gen Hk. induction k as [k IH] using lt_wf_ind. intros gen Hk.
  destruct (Z_lt_le_dec (Z.of_nat (length gen)) (valuesPerPoint self)) as [Hlt|Hge].
  - rewrite consolidating_partial_group by assumption.
    unfold group_result.
    destruct (consolidate_values_valid self gen Hv) as [v ->].
    simpl. rewrite Z.div_small by lia. split; reflexivity.
  - set (n := Z.to_nat (valuesPerPoint self)).
    rewrite <- (firstn_skipn n gen).
    assert (Hn : length (firstn n gen) = n) by (apply firstn_length_le; lia).
    rewrite consolidating_full_group by lia.
    unfold group_result.
    destruct (consolidate_values_valid self (firstn n gen) Hv) as [v ->].
    assert (Hs : length (skipn n gen) = (length gen - n)%nat) by apply length_skipn.
    destruct (IH (length (skipn n gen))) with (gen := skipn n gen) as [IH1 IH2];
      [lia | reflexivity |].
    simpl. split; [exact IH1|].
    rewrite Nat2Z.inj_succ, IH2, Hs, Hk.
    replace (Z.of_nat (length gen))
      with (Z.of_nat (length gen - n) + 1 * valuesPerPoint self) by lia.
    rewrite Z.div_add by lia. lia.
Qed.

(** C2. Iterating [1, 2, None, 4] with two values per point and [average]
    gives 1.5, 4.0 and then one more value, [None]: the generator ends
    normally after three values, not two. *)
Theorem consolidated_iteration_trailing_None :
  valuesPerPoint spec_series = 2 /\
  map (option_map Qred) (fst (iter spec_series))
    = [Some (3#2)%Q; Some (4#1)%Q; None] /\
  snd (iter spec_series) = None.
Proof. repeat split; reflexivity. Qed.

(** **** Plain iteration *)

Lemma int_of_float_le_1 (q : Q) : (q <= 1)%Q -> int_of_float q <= 1.
Proof.
  unfold Qle, int_of_float. destruct q as [a b]. simpl. intros H.
  rewrite Z.mul_1_r, Z.mul_1_l in H.
  rewrite <- (Z.quot_same (Z.pos b)) by lia.
  apply Z.quot_le_mono; lia.
Qed.

(** C9. A series as constructed, or after [consolidate(f)] with [f <= 1],
    iterates as its stored values, in order. *)
Theorem iter_identity_when_not_consolidating :
  (forall name start end_ step values func,
      iter (TimeSeries_init name start end_ step values func) = (values, None))
  /\ (forall (self : TimeSeries) (f : Q),
         (f <= 1)%Q -> iter (consolidate self f) = (values self, None))
  /\ (forall self : TimeSeries,
         valuesPerPoint self <= 1 -> iter self = (values self, None)).
Proof.
  assert (H : forall self, valuesPerPoint self <= 1 -> iter self = (values self, None)).
  { intros self Hle. unfold iter.
    destruct (Z.ltb_spec 1 (valuesPerPoint self)); [lia | reflexivity]. }
  split; [|split].
  - intros. reflexivity.
  - intros self f Hf. rewrite H; [reflexivity|].
    simpl. now apply int_of_float_le_1.
  - exact H.
Qed.

Lemma iter_identity_when_not_consolidating_witness :
  (1#2 <= 1)%Q /\
  iter (consolidate spec_series (1#2)%Q) = (values spec_series, None).
Proof.
  split; [discriminate|].
  apply (proj1 (proj2 iter_identity_when_not_consolidating)). discriminate.
Defined.

(** **** Receiving a response *)

Lemma unpack_L_length s L : unpack_L s = Ok L -> length s = 4%nat.
Proof.
  destruct s as [|? [|? [|? [|? [|? ?]]]]]; simpl; intros H;
    try discriminate; reflexivity.
Qed.

Lemma byte_val_range b : 0 <= byte_val b < 256.
Proof.
  unfold byte_val. pose proof (Byte.to_N_bounded b) as H.
  change 256 with (Z.of_N 256%N). lia.
Qed.

Lemma unpack_L_range s L : unpack_L s = Ok L -> 0 <= L < 2 ^ 32.
Proof.
  destruct s as [|b0 [|b1 [|b2 [|b3 [|? ?]]]]]; simpl; intros H;
    try discriminate.
  inversion H; subst; clear H.
  pose proof (byte_val_range b0). pose proof (byte_val_range b1).
  pose proof (byte_val_range b2). pose proof (byte_val_range b3).
  change (2 ^ 24) with 16777216. change (2 ^ 16) with 65536.
  change (2 ^ 8) with 256. change (2 ^ 32) with 4294967296. lia.
Qed.

Section CarbonLinkProps.
Variable Conn : Type.
Variable recv : Conn -> Z -> result (list Byte.byte) * Conn.
Variable Obj : Type.
Variable loads : list Byte.byte -> result Obj.

(** The contract of [socket.recv]: at most [bufsize] bytes are returned. *)
Hypothesis recv_bound : forall conn bufsize data conn',
      recv conn bufsize = (Ok data, conn') ->
      Z.of_nat (length data) <= bufsize.

(** The loop returns for every connection; a read of zero bytes makes it
      raise; and what it returns is [buf] followed by all the data read,
      [num_bytes] bytes in all. *)
Lemma recv_exactly_loop_spec fuel : forall conn num_bytes buf reads,
      num_bytes - Z.of_nat (length buf) <= Z.of_nat fuel ->
      Z.of_nat (length buf) <= num_bytes ->
      exists r conn' reads',
        recv_exactly_loop recv fuel conn num_bytes buf reads
          = Some (r, conn', (reads ++ reads')%list)
        /\ (In [] reads' -> r = connection_lost)
        /\ (forall b, r = Ok b ->
               b = (buf ++ concat reads')%list
               /\ Z.of_nat (length b) = num_bytes).
Proof.
    induction fuel as [|fuel IH]; intros conn num_bytes buf reads Hfuel Hbuf;
      simpl; destruct (Z.ltb_spec (Z.of_nat (length buf)) num_bytes) as [Hlt|Hge].
    - lia.
    - exists (Ok buf), conn, []. rewrite !app_nil_r. simpl.
      split; [reflexivity|]. split; [tauto|].
      intros b [= <-]. split; [reflexivity | lia].
    - destruct (recv conn (num_bytes - Z.of_nat (length buf)))
        as [[data|e] conn'] eqn:Hrecv.
      + destruct data as [|x data].
        * exists connection_lost, conn', [[]]. split; [reflexivity|].
          split; [reflexivity | discriminate].
        * pose proof (recv_bound _ _ _ _ Hrecv) as Hb.
          destruct (IH conn' num_bytes (buf ++ x :: data)%list
                      (reads ++ [x :: data])%list)
            as (r & conn'' & reads' & Heq & Hzero & Hok).
          { rewrite length_app. simpl in *. lia. }
          { rewrite length_app. simpl in *. lia. }
          exists r, conn'', ((x :: data) :: reads').
          rewrite Heq, <- app_assoc. simpl. split; [reflexivity|].
          split.
          -- intros [H|H]; [discriminate | auto].
          -- intros b Hr. destruct (Hok b Hr) as [Hb' Hl].
             split; [|exact Hl].
             rewrite Hb', <- app_assoc. reflexivity.
      + exists (Raise e), conn', []. rewrite app_nil_r. simpl.
        split; [reflexivity|]. split; [tauto | discriminate].
    - exists (Ok buf), conn, []. rewrite !app_nil_r. simpl.
      split; [reflexivity|]. split; [tauto|].
      intros b [= <-]. split; [reflexivity | lia].
Qed.

Lemma recv_exactly_spec conn num_bytes :
    0 <= num_bytes ->
    exists r conn' reads,
      recv_exactly recv conn num_bytes = Some (r, conn', reads)
      /\ (In [] reads -> r = connection_lost)
      /\ (forall b, r = Ok b ->
             b = concat reads /\ Z.of_nat (length b) = num_bytes).
Proof.
    intros Hn. unfold recv_exactly.
    destruct (recv_exactly_loop_spec (Z.to_nat num_bytes) conn num_bytes [] [])
      as (r & conn' & reads & Heq & Hzero & Hok); simpl; try lia.
    exists r, conn', reads. auto.
Qed.

Lemma recv_response_outcome conn :
    exists r conn' reads,
      recv_response recv loads conn = Some (r, conn', reads)
      /\ (In [] reads -> r = connection_lost)
      /\ (forall obj, r = Ok obj ->
             exists len_prefix body body_size,
               concat reads = (len_prefix ++ body)%list
               /\ length len_prefix = 4%nat
               /\ unpack_L len_prefix = Ok body_size
               /\ Z.of_nat (length body) = body_size
               /\ loads body = Ok obj).
Proof.
    unfold recv_response.
    destruct (recv_exactly_spec conn 4) as (r1 & conn1 & reads1 & -> & Hz1 & Hok1);
      [lia|].
    destruct r1 as [len_prefix|e].
    2:{ exists (Raise e), conn1, reads1. split; [reflexivity|].
        split; [|discriminate].
        intros H. specialize (Hz1 H). inversion Hz1. reflexivity. }
    destruct (Hok1 _ eq_refl) as [Hp Hlen].
    assert (Hno1 : ~ In [] reads1) by (intros H; specialize (Hz1 H); discriminate).
    destruct (unpack_L len_prefix) as [body_size|e] eqn:Hu.
    2:{ exists (Raise e), conn1, reads1. split; [reflexivity|].
        split; [tauto | discriminate]. }
    destruct (recv_exactly_spec conn1 body_size)
      as (r2 & conn2 & reads2 & -> & Hz2 & Hok2).
    { apply (unpack_L_range _ _ Hu). }
    destruct r2 as [body|e].
    2:{ exists (Raise e), conn2, (reads1 ++ reads2)%list. split; [reflexivity|].
        split; [|discriminate].
        rewrite in_app_iff. intros [H|H]; [tauto|].
        specialize (Hz2 H). inversion Hz2. reflexivity. }
    destruct (Hok2 _ eq_refl) as [Hb Hblen].
    assert (Hno2 : ~ In [] reads2) by (intros H; specialize (Hz2 H); discriminate).
    exists (loads body), conn2, (reads1 ++ reads2)%list. split; [reflexivity|].
    split.
    - rewrite in_app_iff. tauto.
    - intros obj Hobj. exists len_prefix, body, body_size.
      rewrite concat_app, <- Hp, <- Hb.
      repeat split; auto. lia.
Qed.

(** The loop against the reading of the specification. *)
Lemma recv_exactly_loop_reads fuel : forall conn num_bytes buf reads,
      num_bytes - Z.of_nat (length buf) <= Z.of_nat fuel ->
      exists r conn' reads',
        recv_exactly_loop recv fuel conn num_bytes buf reads
          = Some (received_after buf r, conn', (reads ++ reads')%list)
        /\ reads_exactly recv conn (num_bytes - Z.of_nat (length buf))
             reads' r conn'
        /\ (forall b, r = Ok b ->
               Z.of_nat (length b)
               = Z.max 0 (num_bytes - Z.of_nat (length buf))).
Proof.
    induction fuel as [|fuel IH]; intros conn num_bytes buf reads Hfuel;
      simpl; destruct (Z.ltb_spec (Z.of_nat (length buf)) num_bytes) as [Hlt|Hge].
    - lia.
    - exists (Ok []), conn, []. simpl. rewrite !app_nil_r.
      split; [reflexivity|]. split; [constructor; lia|].
      intros b [= <-]. simpl. lia.
    - destruct (recv conn (num_bytes - Z.of_nat (length buf)))
        as [[data|e] conn'] eqn:Hrecv.
      + destruct data as [|x data].
        * exists connection_lost, conn', [[]]. split; [reflexivity|].
          split; [apply reads_zero; [lia | exact Hrecv] | discriminate].
        * pose proof (recv_bound _ _ _ _ Hrecv) as Hb.
          destruct (IH conn' num_bytes (buf ++ x :: data)%list
                      (reads ++ [x :: data])%list)
            as (r & conn'' & reads' & Heq & Hreads & Hlen).
          { rewrite length_app. simpl in *. lia. }
          exists (received_after (x :: data) r), conn'', ((x :: data) :: reads').
          rewrite Heq, <- app_assoc. simpl. split; [|split].
          -- destruct r; simpl; [rewrite <- app_assoc|]; reflexivity.
          -- apply reads_more with conn'; [lia | exact Hrecv | discriminate |].
             replace (num_bytes - Z.of_nat (length buf)
                      - Z.of_nat (length (x :: data)))
               with (num_bytes - Z.of_nat (length (buf ++ x :: data)))
               by (rewrite length_app; lia).
             exact Hreads.
          -- intros b Hr. destruct r as [rest|]; [|discriminate].
             simpl in Hr. injection Hr as <-.
             specialize (Hlen rest eq_refl).
             rewrite length_app in Hlen. cbn [length] in *.
             rewrite length_app. lia.
      + exists (Raise e), conn', []. rewrite app_nil_r. simpl.
        split; [reflexivity|].
        split; [apply reads_raise; [lia | exact Hrecv] | discriminate].
    - exists (Ok []), conn, []. simpl. rewrite !app_nil_r.
      split; [reflexivity|]. split; [constructor; lia|].
      intros b [= <-]. simpl. lia.
Qed.

Lemma recv_exactly_reads conn num_bytes :
    0 <= num_bytes ->
    exists r conn' reads,
      recv_exactly recv conn num_bytes = Some (r, conn', reads)
      /\ reads_exactly recv conn num_bytes reads r conn'
      /\ (forall b, r = Ok b -> Z.of_nat (length b) = num_bytes).
Proof.
    intros Hn. unfold recv_exactly.
    destruct (recv_exactly_loop_reads (Z.to_nat num_bytes) conn num_bytes [] [])
      as (r & conn' & reads & Heq & Hreads & Hlen); simpl; [lia|].
    simpl in Heq, Hreads, Hlen. rewrite Z.sub_0_r in Hreads, Hlen.
    exists r, conn', reads. split; [|split; [exact Hreads|]].
    - rewrite Heq. destruct r; reflexivity.
    - intros b Hb. rewrite (Hlen b Hb). lia.
Qed.

Lemma recv_response_reads conn :
    exists r conn' reads,
      recv_response recv loads conn = Some (r, conn', reads)
      /\ reads_response recv loads conn reads r conn'.
Proof.
    unfold recv_response, reads_response.
    destruct (recv_exactly_reads conn 4) as (r1 & conn1 & reads1 & -> & H1 & Hlen1);
      [lia|].
    destruct r1 as [len_prefix|e].
    2:{ exists (Raise e), conn1, reads1. split; [reflexivity|].
        exists (Raise e), reads1, conn1. auto. }
    specialize (Hlen1 _ eq_refl).
    destruct len_prefix as [|b0 [|b1 [|b2 [|b3 [|b4 rest]]]]];
      simpl in Hlen1; try lia.
    cbn [unpack_L].
    set (L := byte_val b0 * 2 ^ 24 + byte_val b1 * 2 ^ 16
              + byte_val b2 * 2 ^ 8 + byte_val b3).
    destruct (recv_exactly_reads conn1 L) as (r2 & conn2 & reads2 & -> & H2 & Hlen2).
    { pose proof (byte_val_range b0). pose proof (byte_val_range b1).
      pose proof (byte_val_range b2). pose proof (byte_val_range b3).
      unfold L. lia. }
    destruct r2 as [body|e].
    - exists (loads body), conn2, (reads1 ++ reads2)%list.
      split; [reflexivity|].
      exists (Ok [b0; b1; b2; b3]), reads1, conn1. split; [exact H1|].
      exists (Ok body), reads2. auto.
    - exists (Raise e), conn2, (reads1 ++ reads2)%list.
      split; [reflexivity|].
      exists (Ok [b0; b1; b2; b3]), reads1, conn1. split; [exact H1|].
      exists (Raise e), reads2. auto.
Qed.

(** C4. Receiving a response returns for every connection, and goes as
      the specification says: four bytes are read, by as many reads as it
      takes; they are a length, most significant byte first; that many more
      bytes are read in the same way, and the response is the
      deserialisation of exactly these. So when an object is returned, the
      data read is the 4-byte prefix followed by exactly as many bytes as
      the prefix says; and when some read returned zero bytes, "Connection
      lost" is raised and no object returned. *)
Theorem recv_response_exact_or_error conn :
    exists r conn' reads,
      recv_response recv loads conn = Some (r, conn', reads)
      /\ reads_response recv loads conn reads r conn'
      /\ (In [] reads -> r = connection_lost)
      /\ (forall obj, r = Ok obj ->
             exists len_prefix body body_size,
               concat reads = (len_prefix ++ body)%list
               /\ length len_prefix = 4%nat
               /\ unpack_L len_prefix = Ok body_size
               /\ Z.of_nat (length body) = body_size
               /\ loads body = Ok obj).
Proof.
    destruct (recv_response_reads conn) as (r & conn' & reads & Heq & Hreads).
    destruct (recv_response_outcome conn) as (r' & conn'' & reads' & Heq' & Hout).
    rewrite Heq in Heq'. injection Heq' as <- <- <-.
    exists r, conn', reads. split; [exact Heq|]. split; [exact Hreads|].
    exact Hout.
Qed.

End CarbonLinkProps.

Lemma segments_recv_bound conn bufsize data conn' :
  segments_recv conn bufsize = (Ok data, conn') ->
  Z.of_nat (length data) <= bufsize.
Proof.
  unfold segments_recv.
  destruct (Z.ltb_spec bufsize 0); [discriminate|].
  destruct conn as [|seg conn0]; intros [= <- _]; simpl; [lia|].
  rewrite length_firstn. lia.
Qed.

Example recv_response_in_pieces :
  recv_response segments_recv Ok response_in_pieces
  = Some (Ok [Byte.x61; Byte.x62; Byte.x63], [], response_in_pieces).
Proof. reflexivity. Qed.

Example recv_response_cut_short :
  recv_response segments_recv Ok response_cut_short
  = Some (Raise (Exception "Connection lost"), [],
          (response_cut_short ++ [[]])%list).
Proof. reflexivity. Qed.

Lemma recv_response_exact_or_error_witness :
  exists r conn' reads,
    recv_response segments_recv Ok response_in_pieces = Some (r, conn', reads)
    /\ reads_response segments_recv Ok response_in_pieces reads r conn'
    /\ (In [] reads -> r = Raise (Exception "Connection lost"))
    /\ (forall obj, r = Ok obj ->
           exists len_prefix body body_size,
             concat reads = (len_prefix ++ body)%list
             /\ length len_prefix = 4%nat
             /\ unpack_L len_prefix = Ok body_size
             /\ Z.of_nat (length body) = body_size
             /\ Ok body = Ok obj).
Proof.
  exact (recv_response_exact_or_error _ segments_recv _ Ok segments_recv_bound
           response_in_pieces).
Defined.

(** **** Resampling *)

Lemma round_nonneg (q : Q) : (0 <= q)%Q -> 0 <= round q.
Proof.
  intros Hq. unfold round.
  rewrite (proj2 (Qle_bool_iff 0 q) Hq).
  change 0 with (Qfloor 0). apply Qfloor_resp_le.
  apply Qle_trans with q; [exact Hq|].
  rewrite <- (Qplus_0_r q) at 1. apply Qplus_le_r. discriminate.
Qed.

Lemma quotient_nonneg (a b : Z) :
  0 <= a -> 0 < b -> (0 <= inject_Z a / inject_Z b)%Q.
Proof.
  intros Ha Hb. apply Qle_shift_div_l.
  - change 0%Q with (inject_Z 0). rewrite <- Zlt_Qlt. exact Hb.
  - rewrite Qmult_0_l. change 0%Q with (inject_Z 0). rewrite <- Zle_Qle. exact Ha.
Qed.

(** With a bucket to land in and a sample not older than [start], the bucket
    is one of the array. *)
Lemma bucket_of_range start rate steps its :
  0 < rate -> 1 <= steps -> start <= its ->
  0 <= bucket_of start rate steps its <= steps - 1.
Proof.
  intros Hr Hs Hi. unfold bucket_of.
  pose proof (round_nonneg _ (quotient_nonneg (its - start) rate ltac:(lia) Hr)).
  lia.
Qed.

Lemma setitem_in_range {A} (l : list A) i v :
  0 <= i < Z.of_nat (length l) -> setitem l i v = Ok (<[Z.to_nat i := v]> l).
Proof.
  intros H. unfold setitem.
  destruct (Z.leb_spec 0 i); [|lia].
  destruct (Z.ltb_spec i (Z.of_nat (length l))); [|lia]. reflexivity.
Qed.

Lemma push_values_spec start rate steps samples : forall finalValues,
  (forall x, In x samples ->
     0 <= bucket_of start rate steps (fst x) < Z.of_nat (length finalValues)) ->
  exists finalValues',
    push_values start rate steps finalValues samples = Ok finalValues'
    /\ length finalValues' = length finalValues
    /\ forall i : nat,
         finalValues' !! i =
           match last_in_bucket start rate steps samples (Z.of_nat i) with
           | Some x => if decide (i < length finalValues)%nat
                       then Some (Some (snd x)) else None
           | None => finalValues !! i
           end.
Proof.
  unfold last_in_bucket.
  induction samples as [|x samples IH]; intros fv Hb; simpl.
  - exists fv. repeat split; reflexivity.
  - pose proof (Hb x (or_introl eq_refl)) as Hx.
    rewrite (setitem_in_range fv _ _ Hx). simpl.
    destruct (IH (<[Z.to_nat (bucket_of start rate steps (fst x)) := Some (snd x)]> fv))
      as (fv' & -> & Hlen & Hlook).
    { intros y Hy. rewrite length_insert. apply Hb. now right. }
    exists fv'. split; [reflexivity|].
    rewrite length_insert in Hlen. split; [exact Hlen|].
    intros i. rewrite Hlook, length_insert. rewrite filter_cons.
    destruct (decide (bucket_of start rate steps (fst x) = Z.of_nat i)) as [E|N].
    + rewrite last_cons.
      destruct (last (filter _ samples)) as [y|]; [reflexivity|].
      rewrite E, Nat2Z.id.
      destruct (decide (i < length fv)%nat) as [Hi|Hi]; [|lia].
      now apply list_lookup_insert_eq.
    + destruct (last (filter _ samples)) as [y|]; [reflexivity|].
      apply list_lookup_insert_ne. lia.
Qed.

(** The examples of the specification: rate 60 over [0, 180) gives three
    buckets, and a sample at 179 goes to bucket 2. *)
Example resample_spec_example :
  (180 - 0) / 60 = 3 /\
  bucket_of 0 60 3 179 = 2 /\
  resample 0 180 60 [(179, (5#1)%Q)] = Ok [None; None; Some (5#1)%Q].
Proof. repeat split; reflexivity. Qed.

(** C6, as the code has it. For a rate [r > 0], a range of at least one
    bucket ([r <= end - start]) and samples not older than [start], the
    resampling returns an array of [(end - start) / r] buckets, puts every
    sample in the bucket [min(round((timestamp - start) / r), steps - 1)],
    which is one of the array, and leaves in each bucket the value of the
    last sample put there, or [None]. *)
Theorem resample_buckets start end_ rate samples :
  0 < rate ->
  rate <= end_ - start ->
  (forall x, In x samples -> start <= fst x) ->
  let steps := (end_ - start) / rate in
  exists finalValues,
    resample start end_ rate samples = Ok finalValues
    /\ Z.of_nat (length finalValues) = steps
    /\ (forall x, In x samples ->
          0 <= bucket_of start rate steps (fst x) <= steps - 1)
    /\ (forall b, 0 <= b < steps ->
          finalValues !! Z.to_nat b
          = Some (snd <$> last_in_bucket start rate steps samples b)).
Proof.
  intros Hr Hrange Hts steps.
  assert (Hsteps : 1 <= steps).
  { unfold steps. apply Z.div_le_lower_bound; lia. }
  assert (Hb : forall x, In x samples ->
                 0 <= bucket_of start rate steps (fst x) <= steps - 1).
  { intros x Hx. apply bucket_of_range; auto. }
  unfold resample, floordiv.
  destruct (Z.eqb_spec rate 0) as [|_]; [lia|]. simpl. fold steps.
  destruct (push_values_spec start rate steps samples
              (replicate (Z.to_nat steps) None))
    as (fv & Heq & Hlen & Hlook).
  { intros x Hx. rewrite length_replicate. specialize (Hb x Hx). lia. }
  rewrite length_replicate in Hlen.
  exists fv. split; [exact Heq|]. split; [lia|]. split; [exact Hb|].
  intros b Hbb. rewrite Hlook, Z2Nat.id by lia.
  destruct (last_in_bucket start rate steps samples b) as [x|]; simpl.
  - rewrite length_replicate.
    destruct (decide (Z.to_nat b < Z.to_nat steps)%nat); [reflexivity | lia].
  - apply lookup_replicate_2. lia.
Qed.

Lemma resample_buckets_witness :
  exists finalValues,
    resample 0 180 60 [(10, (1#1)%Q); (179, (2#1)%Q); (170, (3#1)%Q)] = Ok finalValues
    /\ Z.of_nat (length finalValues) = 3
    /\ (forall x, In x [(10, (1#1)%Q); (179, (2#1)%Q); (170, (3#1)%Q)] ->
          0 <= bucket_of 0 60 3 (fst x) <= 3 - 1)
    /\ (forall b, 0 <= b < 3 ->
          finalValues !! Z.to_nat b
          = Some (snd <$> last_in_bucket 0 60 3
                            [(10, (1#1)%Q); (179, (2#1)%Q); (170, (3#1)%Q)] b)).
Proof.
  apply (resample_buckets 0 180 60 [(10, (1#1)%Q); (179, (2#1)%Q); (170, (3#1)%Q)]).
  - lia.
  - lia.
  - simpl. intros x [<-|[<-|[<-|[]]]]; simpl; lia.
Defined.

(** With less than one bucket in the range, the array is empty and storing
    a sample raises; and a sample older than [start] by a whole bucket is
    stored from the end of the array. *)
Lemma resample_outside_buckets :
  (30 - 0) / 60 = 0 /\
  resample 0 30 60 [(10, (1#1)%Q)] = Raise IndexError /\
  bucket_of 0 60 3 (-60) = -1 /\
  resample 0 180 60 [(-60, (1#1)%Q)] = Ok [None; None; Some (1#1)%Q].
Proof. repeat split; reflexivity. Qed.

(** **** Metrics without a rate *)

Lemma count_zero_not_in n l : count n l = O -> ~ In n l.
Proof.
  induction l as [|y l IH]; simpl; [tauto|].
  destruct (String.eqb_spec y n); [discriminate|].
  intros H [E|Hin]; [congruence | exact (IH H Hin)].
Qed.


Lemma list_remove_absent n l : ~ In n l -> list_remove n l = Raise ValueError.
Proof.
  induction l as [|y l IH]; simpl; [reflexivity|]. intros H.
  destruct (String.eqb_spec y n) as [->|_]; [tauto|].
  rewrite IH by tauto. reflexivity.
Qed.


(** A rate found in [metricRate] is a declared, non-zero rate of the index. *)
Lemma collect_rates_lookup metricData : forall metricRate k v,
  collect_rates metricData metricRate !! k = Some v ->
  metricRate !! k = Some v \/ (In (k, Some v) metricData /\ v <> 0).
Proof.
  induction metricData as [|[n r] md IH]; intros R k v; simpl; [auto|].
  destruct (no_rate r) eqn:E; intros H.
  - destruct (IH _ _ _ H) as [?|[? ?]]; auto.
  - destruct (IH _ _ _ H) as [HR|[? ?]]; [|auto].
    rewrite lookup_insert in HR.
    destruct (decide (n = k)) as [->|]; [|auto].
    right. destruct r as [z|]; simpl in *; [|discriminate].
    inversion HR; subst. split; [auto|].
    now apply Z.eqb_neq.
Qed.

Section HyperTableProps.
Variable DateTime : Type.
Variable timestamp : DateTime -> Q.
Variable strftime : DateTime -> string -> string.
Variables addPrefix removePrefix : string -> string.
Variable findMetric : string -> list (string * option Z).
Variable doScan : ScanSpec -> string -> list Cell.


(** An index in which every metric declares a rate goes through the loop
      untouched. *)
Lemma check_rates_all_rated metricData : forall metrics metricRate (log : list (LogEntry DateTime)),
    (forall m, In m metricData -> no_rate (snd m) = false) ->
    check_rates metricData metrics metricRate log
    = (Ok (metrics, collect_rates metricData metricRate), log).
Proof.
    induction metricData as [|m md IH]; intros M R log Hall; simpl; [reflexivity|].
    rewrite (Hall m) by now left.
    apply IH. intros m' Hm'. apply Hall. now right.
Qed.





End HyperTableProps.

Example fetch_demo :
  fst (DatalibDemo.fetch DatalibDemo.findMetric)
  = Ok [mkTimeSeries "web.cpu" 0 180 60 [None; Some (5#1)%Q; None] "average" 1
          (Some "fs.web.*")]
  /\ In (no_rate_message "fs.web.mem") (snd (DatalibDemo.fetch DatalibDemo.findMetric)).
Proof. split; vm_compute; [reflexivity | tauto]. Qed.

(** When [addPrefix] changes the names of the index, [metrics] holds the
    prefixed names and [metrics.remove(m[0])] finds nothing to remove. *)
Example fetch_demo_prefix_changes_name :
  fetchDataFromHyperTable inject_Z (fun _ fmt => fmt)
    (fun s => "fs." ++ s)%string DatalibDemo.removePrefix
    (fun _ => [("web.cpu", Some 60); ("web.mem", None)])
    DatalibDemo.doScan DatalibDemo.requestContext "web.*"
  = (Raise ValueError,
     [LogInfo "fetching web.*"; no_rate_message "web.mem"]).
Proof. vm_compute. reflexivity. Qed.



Section MergeSample.
Context {V : Type}.
Implicit Types (values : list V) (v : V).

Lemma merge_sample_unfold start step values t v :
    step <> 0 ->
    merge_sample start step values (t, v) =
      match setitem values (slot start step t) v with
      | Ok values' => Ok values'
      | Raise _ => Ok values
      end.
Proof.
    intros Hs. unfold merge_sample, mod_, floordiv, slot.
    destruct (Z.eqb_spec step 0) as [|_]; [contradiction|]. reflexivity.
Qed.

(** A sample whose slot is within bounds overwrites that slot. *)
Lemma merge_sample_in_range start step values t v :
    step <> 0 ->
    0 <= slot start step t < Z.of_nat (length values) ->
    merge_sample start step values (t, v) =
      Ok (<[Z.to_nat (slot start step t) := v]> values).
Proof.
    intros Hs Hr. rewrite merge_sample_unfold by assumption.
    unfold setitem.
    destruct (Z.leb_spec 0 (slot start step t)); [|lia].
    destruct (Z.ltb_spec (slot start step t) (Z.of_nat (length values))); [|lia].
    reflexivity.
Qed.

(** A sample whose slot is past the end is dropped. *)
Lemma merge_sample_past_end start step values t v :
    step <> 0 ->
    Z.of_nat (length values) <= slot start step t ->
    merge_sample start step values (t, v) = Ok values.
Proof.
    intros Hs Hr. rewrite merge_sample_unfold by assumption.
    unfold setitem.
    destruct (Z.leb_spec 0 (slot start step t)); [|lia].
    destruct (Z.ltb_spec (slot start step t) (Z.of_nat (length values))); [lia|].
    destruct (Z.ltb_spec (slot start step t) 0); [lia|].
    destruct (_ <=? _); reflexivity.
Qed.

(** A sample whose slot is negative is not dropped while the slot is at
      least [- len values]: it lands on the slot counted from the end. *)
Lemma merge_sample_negative start step values t v :
    step <> 0 ->
    - Z.of_nat (length values) <= slot start step t < 0 ->
    merge_sample start step values (t, v) =
      Ok (<[Z.to_nat (Z.of_nat (length values) + slot start step t) := v]> values).
Proof.
    intros Hs Hr. rewrite merge_sample_unfold by assumption.
    unfold setitem.
    destruct (Z.leb_spec 0 (slot start step t)); [lia|].
    destruct (Z.leb_spec (- Z.of_nat (length values)) (slot start step t)); [|lia].
    destruct (Z.ltb_spec (slot start step t) 0); [|lia].
    reflexivity.
Qed.

Lemma merge_sample_far_negative start step values t v :
    step <> 0 ->
    slot start step t < - Z.of_nat (length values) ->
    merge_sample start step values (t, v) = Ok values.
Proof.
    intros Hs Hr. rewrite merge_sample_unfold by assumption.
    unfold setitem.
    destruct (Z.leb_spec 0 (slot start step t)); [lia|].
    destruct (Z.leb_spec (- Z.of_nat (length values)) (slot start step t)); [lia|].
    reflexivity.
Qed.

End MergeSample.

(** The example of the specification: disk values [1,2,3,4], start 0, step 10,
    cache samples (5,99) and (25,77). *)
Example mergeResults_spec_example :
  mergeResults (Some ((0, 40, 10), [1; 2; 3; 4])) [(5, 99); (25, 77)]
  = Ok (DbResults (0, 40, 10) [99; 2; 77; 4]).
Proof. reflexivity. Qed.

(** C1. A cache sample older than [start] is not always dropped: with disk
    values [1,2,3,4], start 100, step 10, the sample (95, 99) has slot -1 and
    overwrites the last slot of the array. *)
Theorem mergeResults_early_sample_wraps :
  slot 100 10 95 = -1 /\
  mergeResults (Some ((100, 140, 10), [1; 2; 3; 4])) [(95, 99)]
  = Ok (DbResults (100, 140, 10) [1; 2; 3; 99]).
Proof. split; reflexivity. Qed.

End DatalibProps.

(** ** storage.py *)

Module StorageProps.
Import Storage.
Import StorageSpec.

Example find_examples :
  find StorageDemo.world "/data" (mkQuery "a.*" None None) = ([StorageDemo.a_y], None)
  /\ find StorageDemo.world "/data" (mkQuery "*.y" None None)
     = ([StorageDemo.a_y; StorageDemo.x_y], None)
  /\ find StorageDemo.world "/data" (mkQuery "x.*" None None) = ([StorageDemo.x_y], None)
  /\ _find StorageDemo.world "/data" ["x"; "*"]
     = (["/data/x/.z.wsp"; "/data/x/y.wsp"], None)
  /\ find StorageDemo.world "/data" (mkQuery ".*" None None) = ([], None)
  /\ find StorageDemo.world "/nowhere" (mkQuery "a.*" None None)
     = ([], Some OSError).
Proof. repeat split; vm_compute; reflexivity. Qed.

Example fnmatch_examples :
  Fnmatch.fnmatch "web01" "web*" = true
  /\ Fnmatch.fnmatch ".hidden" "*" = true
  /\ Fnmatch.fnmatch "cpu.wsp" "cpu.*" = true
  /\ Fnmatch.fnmatch "web01" "web0[1-3]" = true
  /\ Fnmatch.fnmatch "web04" "web0[1-3]" = false
  /\ Fnmatch.fnmatch "web04" "web0[!1-3]" = true
  /\ Fnmatch.fnmatch "a[b" "a[b" = true
  /\ Fnmatch.fnmatch "ab" "a?c" = false.
Proof. repeat split; reflexivity. Qed.

Example path_examples :
  basename "/data/.hidden/cpu.wsp" = "cpu.wsp"
  /\ basename "/data/web/" = ""
  /\ join "/data" "web" = "/data/web"
  /\ join "/data/" "web" = "/data/web"
  /\ splitext "web.cpu.wsp" = ("web.cpu", ".wsp")
  /\ splitext ".wsp" = (".wsp", "")
  /\ split_char "." "servers.web*.cpu" = ["servers"; "web*"; "cpu"]
  /\ rsplit1 "::" "a::b::c" = Some ("a::b", "c")
  /\ endswith "cpu.wsp" ".wsp" = true
  /\ slice_to_minus 3 "abcdef" = "abc"
  /\ slice_from 2 "abcdef" = "cdef".
Proof. repeat split; reflexivity. Qed.

(** C5. [isExact] holds exactly when the pattern has none of the characters
    [*], [?], [[]; it holds for "servers.web01.cpu" and fails for
    "servers.web*.cpu". *)
Theorem isExact_iff_no_wildcard :
  (forall q : Query,
      isExact q = true <->
      (forall c, In c (list_ascii_of_string (pattern q)) ->
                 c <> "*"%char /\ c <> "?"%char /\ c <> "["%char))
  /\ isExact (mkQuery "servers.web01.cpu" None None) = true
  /\ isExact (mkQuery "servers.web*.cpu" None None) = false.
Proof.
  split; [|split; reflexivity].
  intros q. unfold isExact.
  rewrite !andb_true_iff, !negb_true_iff.
  rewrite <- !not_true_iff_false, !char_in_spec.
  split.
  - intros [[H1 H2] H3] c Hc. repeat split; intros ->; tauto.
  - intros H. repeat split; intros Hc; destruct (H _ Hc) as (? & ? & ?); congruence.
Qed.

(** **** Nodes *)

Lemma fs_path_WhisperFile_init_ext w cls ext fs mp :
  fs_path (WhisperFile_init_ext w cls ext fs mp) = fs.
Proof.
  unfold WhisperFile_init_ext. simpl.
  destruct (negb (String.eqb (realpath w fs) fs)); reflexivity.
Qed.

Lemma metric_path_WhisperFile_init_ext w cls ext fs mp :
  metric_path (WhisperFile_init_ext w cls ext fs mp) = mp.
Proof.
  unfold WhisperFile_init_ext. simpl.
  destruct (negb (String.eqb (realpath w fs) fs)); reflexivity.
Qed.

Lemma fs_path_CeresDirectory_init w fs : fs_path (CeresDirectory_init w fs) = fs.
Proof.
  unfold CeresDirectory_init. simpl.
  destruct (negb (String.eqb (realpath w fs) fs)); reflexivity.
Qed.



(** **** The finder and dot entries *)

Lemma getDataSources_nil w rrd sources :
  getDataSources w rrd = Ok sources -> sources = [].
Proof.
  unfold getDataSources. destruct (rrd_info_ds w (fs_path rrd)) as [ds|e];
    simpl; [|discriminate].
  destruct ds; simpl; [now intros [= <-] | discriminate].
Qed.

Lemma In_yield_stop {A} (a b : A) : In b (fst (yield_ a stop)) -> b = a.
Proof. simpl. intros [H|[]]. now symmetry. Qed.

(** Every node that [find_node] yields for a path has, as its [fs_path],
    that path or the part of it before the data-source delimiter, and in
    both cases a last component that does not start with a dot. *)
Lemma find_node_basename w root_dir query absolute_path n :
  In n (fst (find_node w root_dir query absolute_path)) ->
  startswith_char "." (basename (fs_path n)) = false.
Proof.
  unfold find_node.
  destruct (startswith_char "." (basename absolute_path)) eqn:Hdot;
    [intros []|].
  set (cut := if contains DATASOURCE_DELIMETER (basename absolute_path)
              then match rsplit1 DATASOURCE_DELIMETER absolute_path with
                   | Some (h, t) => (h, Some t)
                   | None => (absolute_path, None)
                   end
              else (absolute_path, None)).
  assert (Hcut : startswith_char "." (basename (fst cut)) = false).
  { unfold cut.
    destruct (contains DATASOURCE_DELIMETER (basename absolute_path)) eqn:Hc;
      [|exact Hdot].
    destruct (rsplit1 DATASOURCE_DELIMETER absolute_path) as [[h t]|] eqn:Hr;
      [|exact Hdot].
    simpl.
    apply (basename_rsplit1_no_dot DATASOURCE_DELIMETER absolute_path h t);
      [reflexivity | exact Hr | exact Hc | exact Hdot]. }
  destruct cut as [path datasource_pattern]. simpl in Hcut.
  destruct (isdir w path).
  { destruct (isNodeDir w path).
    - destruct (hasDataForInterval w path _ _); [|intros []].
      intros H. apply In_yield_stop in H. subst n.
      now rewrite fs_path_CeresDirectory_init.
    - intros H. apply In_yield_stop in H. now subst n. }
  destruct (isfile w path); [|intros []].
  destruct (splitext _) as [metric_path extension].
  destruct (String.eqb extension ".wsp").
  { intros H. apply In_yield_stop in H. subst n.
    unfold WhisperFile_init. now rewrite fs_path_WhisperFile_init_ext. }
  destruct (String.eqb extension ".gz" && endswith metric_path ".wsp").
  { intros H. apply In_yield_stop in H. subst n.
    unfold GzippedWhisperFile_init. now rewrite fs_path_WhisperFile_init_ext. }
  destruct (rrdtool w && String.eqb extension ".rrd"); [|intros []].
  destruct datasource_pattern as [datasource_pattern|].
  - destruct (getDataSources w _) as [sources|e] eqn:Hs; [|intros []].
    apply getDataSources_nil in Hs. subst sources. intros [].
  - intros H. apply In_yield_stop in H. now subst n.
Qed.

(** C8, as the code has it. For every root directory and every query, the
    last component of the path of a node that the finder yields does not
    start with a dot. *)
Theorem find_never_yields_dot_basename w root_dir query n :
  In n (fst (find w root_dir query)) ->
  startswith_char "." (basename (fs_path n)) = false.
Proof.
  unfold find. intros H.
  destruct (gen_bind_In _ _ _ H) as (absolute_path & _ & Hn).
  eapply find_node_basename; eauto.
Qed.

Lemma find_never_yields_dot_basename_witness :
  In StorageDemo.x_y (fst (find StorageDemo.world "/data" (mkQuery "x.*" None None)))
  /\ startswith_char "." (basename (fs_path StorageDemo.x_y)) = false.
Proof.
  assert (H : In StorageDemo.x_y
                (fst (find StorageDemo.world "/data" (mkQuery "x.*" None None))))
    by (vm_compute; tauto).
  split; [exact H|].
  exact (find_never_yields_dot_basename StorageDemo.world "/data"
           (mkQuery "x.*" None None) StorageDemo.x_y H).
Defined.

(** A directory whose name starts with a dot is searched when it matches its
    segment of the pattern, and the nodes below it are yielded. *)
Lemma find_yields_node_under_dot_directory :
  find StorageDemo.world "/data" (mkQuery "*.cpu" None None) = ([StorageDemo.hidden_cpu], None)
  /\ fs_path StorageDemo.hidden_cpu = "/data/.hidden/cpu.wsp"
  /\ has_dot_component (fs_path StorageDemo.hidden_cpu) = true.
Proof. repeat split; vm_compute; reflexivity. Qed.

(** **** Federated find *)

Lemma yield_local_spec ms : forall found,
  yield_local found ms = (ms, paths ms ∪ found).
Proof.
  induction ms as [|m ms IH]; intros found; simpl.
  - f_equal. unfold paths. simpl. set_solver.
  - rewrite IH. f_equal. unfold paths. simpl. set_solver.
Qed.

Lemma yield_unseen_spec ms : forall found,
  exists ys,
    yield_unseen found ms = (ys, paths ms ∪ found) /\ Unseen found ms ys.
Proof.
  induction ms as [|m ms IH]; intros found; simpl.
  - exists []. split; [|constructor]. f_equal. unfold paths. simpl. set_solver.
  - destruct (decide (metric_path m ∈ found)) as [Hin|Hout].
    + destruct (IH found) as (ys & -> & Hys).
      exists ys. split; [|now constructor].
      f_equal. unfold paths. simpl. set_solver.
    + destruct (IH ({[metric_path m]} ∪ found)) as (ys & -> & Hys).
      exists (m :: ys). split; [|now constructor].
      f_equal. unfold paths. simpl. set_solver.
Qed.

Lemma Unseen_app found ms1 ys1 ms2 ys2 :
  Unseen found ms1 ys1 ->
  Unseen (paths ms1 ∪ found) ms2 ys2 ->
  Unseen found (ms1 ++ ms2) (ys1 ++ ys2).
Proof.
  intros H. revert ms2 ys2. induction H as [found|found m ms ys Hin H IH|found m ms ys Hout H IH];
    intros ms2 ys2 H2; simpl.
  - replace (paths [] ∪ found) with found in H2 by (unfold paths; simpl; set_solver).
    exact H2.
  - apply Unseen_skip; [exact Hin|]. apply IH.
    replace (paths ms ∪ found) with (paths (m :: ms) ∪ found)
      by (unfold paths; simpl; set_solver).
    exact H2.
  - apply Unseen_yield; [exact Hout|]. apply IH.
    replace (paths ms ∪ ({[metric_path m]} ∪ found))
      with (paths (m :: ms) ∪ found) by (unfold paths; simpl; set_solver).
    exact H2.
Qed.

Lemma paths_app ms1 ms2 : paths (ms1 ++ ms2) = paths ms1 ∪ paths ms2.
Proof. unfold paths. rewrite map_app, list_to_set_app_L. reflexivity. Qed.

(** The loop over the local roots yields all that the finder yields, root
    after root, and hands over the set of their paths. *)
Lemma find_loop_local gens : forall found k,
  find_loop yield_local found gens k
  = gen_app (gen_concat gens) (k (paths (fst (gen_concat gens)) ∪ found)).
Proof.
  induction gens as [|[ms raised] gens IH]; intros found k; simpl.
  - unfold gen_app. simpl.
    replace (paths [] ∪ found) with found by (unfold paths; simpl; set_solver).
    now destruct (k found).
  - rewrite yield_local_spec. simpl. destruct raised as [e|].
    + reflexivity.
    + rewrite IH. unfold gen_app at 1 3 4. simpl.
      unfold gen_app at 2. simpl.
      destruct (gen_concat gens) as [ms' [e|]]; simpl.
      * reflexivity.
      * rewrite paths_app.
        replace (paths ms ∪ paths ms' ∪ found)
          with (paths ms' ∪ (paths ms ∪ found)) by set_solver.
        unfold gen_app. simpl.
        destruct (k _) as [ys r]. simpl. now rewrite app_assoc.
Qed.

(** The loop over the remote requests yields, of what they deliver, the
    nodes with a path not seen before. *)
Lemma find_loop_remote gens : forall found,
  exists ys,
    find_loop yield_unseen found gens (fun _ => stop)
    = (ys, snd (gen_concat gens))
    /\ Unseen found (fst (gen_concat gens)) ys.
Proof.
  induction gens as [|[ms raised] gens IH]; intros found; simpl.
  - exists []. split; [reflexivity | constructor].
  - destruct (yield_unseen_spec ms found) as (ys & -> & Hys).
    simpl. destruct raised as [e|].
    + exists ys. split; [reflexivity | exact Hys].
    + destruct (IH (paths ms ∪ found)) as (ys' & -> & Hys').
      exists (ys ++ ys')%list. unfold gen_app; simpl. split; [reflexivity|].
      now apply Unseen_app.
Qed.

(** C3, as the code has it. A wildcard find over local roots and remote
    stores yields every match of every local root, in order and with its
    duplicates, and then, of the results of the available remote stores,
    each node whose [metric_path] is not in the seen-set, which holds the
    [metric_path] of every node yielded so far. *)
Theorem find_all_dedups_remote_by_metric_path w (self : Store) (query : Query) :
  let local :=
    gen_concat (map (fun d => find w d query) (directories self)) in
  let remote :=
    gen_concat (map (fun r => get_results r query)
                    (List.filter available (remote_stores self))) in
  exists ys,
    fst (find_all w self query) = (fst local ++ ys)%list
    /\ (snd local = None -> Unseen (paths (fst local)) (fst remote) ys)
    /\ (snd local <> None -> ys = [])
    /\ snd (find_all w self query)
       = match snd local with Some e => Some e | None => snd remote end.
Proof.
  intros local remote. unfold find_all.
  rewrite find_loop_local. fold local.
  destruct (find_loop_remote
              (map (fun r => get_results r query)
                   (List.filter available (remote_stores self)))
              (paths (fst local) ∪ ∅)) as (ys & -> & Hys).
  fold remote in Hys |- *.
  replace (paths (fst local) ∪ ∅) with (paths (fst local)) in Hys by set_solver.
  unfold gen_app. destruct (snd local) as [e|] eqn:E; simpl.
  - exists []. rewrite app_nil_r, E. repeat split; congruence.
  - exists ys. repeat split; auto. congruence.
Qed.

(** Two local roots holding the same metric: both nodes are yielded, and the
    remote node of that path is not. *)
Example find_all_keeps_local_duplicates :
  find_all StorageDemo.world
    {| directories := ["/data"; "/data"];
       remote_stores := remote_stores StorageDemo.store |}
    (mkQuery "a.*" None None)
  = ([StorageDemo.a_y; StorageDemo.a_y], None).
Proof. vm_compute. reflexivity. Qed.

(** The seen-set holds [metric_path], not [real_metric]: the local node
    [a.y] has the canonical path [x.y]; the remote node has the canonical
    path [a.y], which no earlier result has, and is suppressed all the
    same. *)
Lemma find_all_suppresses_unseen_canonical_path :
  find_all StorageDemo.world StorageDemo.store (mkQuery "a.*" None None) = ([StorageDemo.a_y], None)
  /\ real_metric StorageDemo.a_y = "x.y"
  /\ real_metric StorageDemo.remote_node = "a.y"
  /\ map (fun r => get_results r (mkQuery "a.*" None None))
         (List.filter available (remote_stores StorageDemo.store))
     = [([StorageDemo.remote_node], None)].
Proof. repeat split; vm_compute; reflexivity. Qed.

End StorageProps.

(** * Further properties *)

(** ** render/datalib.py *)

Module DatalibExtra.
Import Datalib DatalibSpec DatalibExtraSpec DatalibProps.

(** **** mergeResults *)

Lemma setitem_target {A} (l : list A) i v :
  setitem l i v = match target (length l) i with
                  | Some k => Ok (<[k := v]> l)
                  | None => Raise IndexError
                  end.
Proof.
  unfold setitem, target.
  destruct (_ && _); [reflexivity|]. destruct (_ && _); reflexivity.
Qed.

Lemma target_lt len i k : target len i = Some k -> (k < len)%nat.
Proof.
  unfold target.
  destruct (Z.leb_spec 0 i), (Z.ltb_spec i (Z.of_nat len)); simpl;
    try (intros [= <-]; lia);
    destruct (Z.leb_spec (- Z.of_nat len) i), (Z.ltb_spec i 0); simpl;
    try discriminate; intros [= <-]; lia.
Qed.

Section Merge.
Context {V : Type}.
Implicit Types (values : list V) (cache : list (Z * V)).

Lemma merge_sample_target start step values s :
  step <> 0 ->
  merge_sample start step values s
  = Ok (match target (length values) (slot start step (fst s)) with
        | Some k => <[k := snd s]> values
        | None => values
        end).
Proof.
  intros Hs. destruct s as [t v]. rewrite merge_sample_unfold by assumption.
  rewrite setitem_target. simpl. now destruct (target _ _).
Qed.

Lemma merge_loop_spec start step cache : forall values,
  step <> 0 ->
  exists values',
    merge_loop start step values cache = Ok values'
    /\ length values' = length values
    /\ forall j, (j < length values)%nat ->
         values' !! j
         = match last_written start step (length values) cache j with
           | Some s => Some (snd s)
           | None => values !! j
           end.
Proof.
  unfold last_written.
  induction cache as [|s cache IH]; intros values Hs; simpl.
  - exists values. repeat split; reflexivity.
  - rewrite merge_sample_target by assumption. simpl.
    set (values1 := match target (length values) (slot start step (fst s)) with
                    | Some k => <[k := snd s]> values
                    | None => values
                    end).
    assert (Hlen1 : length values1 = length values).
    { unfold values1. destruct (target _ _); [apply length_insert | reflexivity]. }
    destruct (IH values1 Hs) as (values' & -> & Hlen & Hlook).
    exists values'. split; [reflexivity|]. split; [congruence|].
    intros j Hj. rewrite Hlook by lia. rewrite Hlen1, filter_cons.
    destruct (decide (target (length values) (slot start step (fst s)) = Some j))
      as [E|N].
    + rewrite last_cons.
      destruct (last (filter _ cache)); [reflexivity|].
      unfold values1. rewrite E. now apply list_lookup_insert_eq.
    + destruct (last (filter _ cache)); [reflexivity|].
      unfold values1. destruct (target _ _) as [k|] eqn:E; [|reflexivity].
      apply list_lookup_insert_ne. congruence.
Qed.

(** X1. With a step other than zero, merging never raises and returns the
    time information as it was and an array of the same length; each
    position holds the value of the last cache sample written to it (a
    negative index counting from the end), and its disk value when no
    sample is written to it. *)
Theorem mergeResults_last_write_wins start end_ step values cache :
  step <> 0 ->
  exists values',
    mergeResults (Some ((start, end_, step), values)) cache
    = Ok (DbResults (start, end_, step) values')
    /\ length values' = length values
    /\ forall j, (j < length values)%nat ->
         values' !! j
         = match last_written start step (length values) cache j with
           | Some s => Some (snd s)
           | None => values !! j
           end.
Proof.
  intros Hs. unfold mergeResults. destruct cache as [|s cache].
  - exists values. repeat split; reflexivity.
  - destruct (merge_loop_spec start step (s :: cache) values Hs)
      as (values' & -> & Hlen & Hlook).
    exists values'. repeat split; assumption.
Qed.

(** X2. Merging raises in one case only: both sides are present and the
    step is zero; the exception is then [ZeroDivisionError]. *)
Theorem mergeResults_raises_iff_zero_step
    (dbResults : option (TimeInfo * list V)) cache e :
  mergeResults dbResults cache = Raise e <->
  e = ZeroDivisionError /\ cache <> []
  /\ exists start end_ values, dbResults = Some ((start, end_, 0), values).
Proof.
  unfold TimeInfo in *. split.
  - destruct dbResults as [[[[start end_] step] values]|]; [|discriminate].
    destruct (Z.eq_dec step 0) as [->|Hs].
    + destruct cache as [|[t v] cache]; [discriminate|].
      simpl. intros [= <-]. split; [reflexivity|]. split; [discriminate|].
      eauto.
    + unfold mergeResults. destruct cache as [|s cache]; [discriminate|].
      destruct (merge_loop_spec start step (s :: cache) values Hs)
        as (values' & -> & _). discriminate.
  - intros (-> & Hc & start & end_ & values & ->).
    destruct cache as [|[t v] cache]; [contradiction|]. reflexivity.
Qed.

End Merge.

Lemma mergeResults_last_write_wins_witness :
  exists values',
    mergeResults (Some ((0, 40, 10), [1; 2; 3; 4])) [(5, 99); (7, 98); (-3, 77)]
    = Ok (DbResults (0, 40, 10) values')
    /\ length values' = 4%nat
    /\ forall j, (j < 4)%nat ->
         values' !! j
         = match last_written 0 10 4 [(5, 99); (7, 98); (-3, 77)] j with
           | Some s => Some (snd s)
           | None => [1; 2; 3; 4] !! j
           end.
Proof.
  apply (mergeResults_last_write_wins 0 40 10 [1; 2; 3; 4]
           [(5, 99); (7, 98); (-3, 77)]).
  lia.
Defined.

(** **** Consolidating iteration *)

(** X3. With [sum] or [average] and more than one value per point, the
    iteration ends normally and yields one value more than there are full
    groups: [len / valuesPerPoint + 1] values. *)
Theorem iter_consolidated_count (self : TimeSeries) :
  valid_consolidationFunc self ->
  1 < valuesPerPoint self ->
  snd (iter self) = None /\
  Z.of_nat (length (fst (iter self)))
  = Z.of_nat (length (values self)) / valuesPerPoint self + 1.
Proof.
  intros Hv Hvpp. unfold iter, consolidatingGenerator.
  destruct (Z.ltb_spec 1 (valuesPerPoint self)); [|lia].
  now apply consolidating_count.
Qed.

Lemma iter_consolidated_count_witness :
  snd (iter spec_series) = None /\
  Z.of_nat (length (fst (iter spec_series)))
  = Z.of_nat (length (values spec_series)) / valuesPerPoint spec_series + 1.
Proof.
  apply (iter_consolidated_count spec_series).
  - right. reflexivity.
  - reflexivity.
Defined.

Lemma usable_app a b : usable (a ++ b) = (usable a ++ usable b)%list.
Proof.
  induction a as [|[v|] a IH]; simpl; [reflexivity | now rewrite IH | exact IH].
Qed.

Lemma remove_None_nil_iff buf : remove_None buf = [] <-> usable buf = [].
Proof.
  induction buf as [|[v|] buf IH]; simpl; [tauto | split; discriminate | exact IH].
Qed.

Lemma consolidate_values_invalid self g :
  ~ valid_consolidationFunc self ->
  consolidate_values self g
  = match usable g with
    | [] => Ok None
    | _ => Raise invalid_consolidation
    end.
Proof.
  intros Hv. unfold consolidate_values, valid_consolidationFunc in *.
  destruct (usable g); [reflexivity|].
  destruct (String.eqb_spec (consolidationFunc self) "sum"); [tauto|].
  destruct (String.eqb_spec (consolidationFunc self) "average"); [tauto|].
  reflexivity.
Qed.

Lemma consolidating_invalid self gen : forall buf,
  ~ valid_consolidationFunc self ->
  Forall (fun v => v = None) (fst (consolidatingGenerator_from self gen buf))
  /\ snd (consolidatingGenerator_from self gen buf)
     = match usable (buf ++ gen) with
       | [] => None
       | _ => Some invalid_consolidation
       end.
Proof.
  intros buf Hv. revert buf.
  induction gen as [|x gen IH]; intros buf.
  - cbn [consolidatingGenerator_from]. rewrite app_nil_r.
    unfold consolidating_tail.
    destruct (remove_None buf) as [|o buf'] eqn:E.
    + rewrite (proj1 (remove_None_nil_iff buf) E). simpl. auto.
    + rewrite <- E, consolidate_values_invalid, usable_remove_None by assumption.
      destruct (usable buf) eqn:Eu.
      * apply remove_None_nil_iff in Eu. congruence.
      * simpl. auto.
  - cbn [consolidatingGenerator_from].
    replace (buf ++ x :: gen)%list with ((buf ++ [x]) ++ gen)%list
      by now rewrite <- app_assoc.
    destruct (Z.of_nat (length (buf ++ [x])) =? valuesPerPoint self); [|apply IH].
    destruct (remove_None (buf ++ [x])) as [|o buf'] eqn:E.
    + rewrite usable_app, (proj1 (remove_None_nil_iff _) E). simpl.
      destruct (IH []) as [IH1 IH2]. simpl in IH2. split; [|exact IH2].
      constructor; [reflexivity | exact IH1].
    + rewrite <- E, consolidate_values_invalid, usable_remove_None by assumption.
      destruct (usable (buf ++ [x])) eqn:Eu.
      * apply remove_None_nil_iff in Eu. congruence.
      * rewrite usable_app, Eu. simpl. auto.
Qed.

(** X4. With a consolidation function other than [sum] and [average] and
    more than one value per point, every value the iteration yields is
    [None]; it ends normally when the series has no value other than
    [None], and otherwise raises "Invalid consolidation function!". *)
Theorem iter_invalid_consolidationFunc (self : TimeSeries) :
  ~ valid_consolidationFunc self ->
  1 < valuesPerPoint self ->
  Forall (fun v => v = None) (fst (iter self))
  /\ snd (iter self)
     = match usable (values self) with
       | [] => None
       | _ => Some invalid_consolidation
       end.
Proof.
  intros Hv Hvpp. unfold iter, consolidatingGenerator.
  destruct (Z.ltb_spec 1 (valuesPerPoint self)); [|lia].
  apply (consolidating_invalid self (values self) [] Hv).
Qed.

Lemma iter_invalid_consolidationFunc_witness :
  let self :=
    consolidate
      (TimeSeries_init "m" 0 40 10
         [None; None; Some (3#1)%Q; Some (4#1)%Q] "max") (2#1)%Q in
  Forall (fun v => v = None) (fst (iter self))
  /\ snd (iter self)
     = match usable (values self) with
       | [] => None
       | _ => Some invalid_consolidation
       end.
Proof.
  apply (iter_invalid_consolidationFunc
           (consolidate
              (TimeSeries_init "m" 0 40 10
                 [None; None; Some (3#1)%Q; Some (4#1)%Q] "max") (2#1)%Q)).
  - intros [H|H]; discriminate.
  - reflexivity.
Defined.

(** **** Resampling *)

Lemma setitem_outcome {A} (l : list A) i v :
  match setitem l i v with
  | Ok l' => length l' = length l
             /\ - Z.of_nat (length l) <= i < Z.of_nat (length l)
  | Raise e => e = IndexError
               /\ ~ (- Z.of_nat (length l) <= i < Z.of_nat (length l))
  end.
Proof.
  unfold setitem.
  destruct (Z.leb_spec 0 i); destruct (Z.ltb_spec i (Z.of_nat (length l)));
    simpl; rewrite ?length_insert; try (split; [reflexivity | lia]);
    destruct (Z.leb_spec (- Z.of_nat (length l)) i);
    destruct (Z.ltb_spec i 0); simpl; rewrite ?length_insert;
    split; try reflexivity; lia.
Qed.

Lemma push_values_outcome start rate steps samples : forall finalValues,
  let fits x :=
    - Z.of_nat (length finalValues) <= bucket_of start rate steps (fst x)
    < Z.of_nat (length finalValues) in
  match push_values start rate steps finalValues samples with
  | Ok finalValues' =>
      length finalValues' = length finalValues /\ Forall fits samples
  | Raise e => e = IndexError /\ Exists (fun x => ~ fits x) samples
  end.
Proof.
  induction samples as [|x samples IH]; intros fv fits; simpl.
  - split; [reflexivity | constructor].
  - pose proof (setitem_outcome fv (bucket_of start rate steps (fst x))
                  (Some (snd x))) as Hset.
    destruct (setitem fv _ _) as [fv'|e]; simpl.
    + destruct Hset as [Hlen Hfit].
      specialize (IH fv'). simpl in IH. rewrite Hlen in IH.
      destruct (push_values start rate steps fv' samples) as [fv''|e].
      * destruct IH as [Hlen' Hall]. split; [exact Hlen'|].
        constructor; [exact Hfit | exact Hall].
      * destruct IH as [-> Hex]. split; [reflexivity|].
        apply Exists_cons_tl. exact Hex.
    + destruct Hset as [-> Hfit]. split; [reflexivity|].
      apply Exists_cons_hd. exact Hfit.
Qed.

Lemma resample_Ok_length start end_ rate samples finalValues :
  resample start end_ rate samples = Ok finalValues ->
  rate <> 0 /\ length finalValues = Z.to_nat ((end_ - start) / rate).
Proof.
  unfold resample, floordiv.
  destruct (Z.eqb_spec rate 0) as [->|Hrate]; simpl; [discriminate|].
  intros H.
  pose proof (push_values_outcome start rate ((end_ - start) / rate) samples
                (replicate (Z.to_nat ((end_ - start) / rate)) None)) as Hp.
  simpl in Hp. rewrite H, length_replicate in Hp. now split.
Qed.

(** X16. How a resampling ends. It raises [ZeroDivisionError] for the rate
    0. For another rate, with [steps = (end - start) / rate], it returns
    when the bucket of every sample is in [[-steps, steps)], an array of
    [steps] values (none when [steps] is negative), and raises [IndexError]
    when the bucket of some sample is not. *)
Theorem resample_outcome (start end_ rate : Z) (samples : list (Z * Q)) :
  let steps := (end_ - start) / rate in
  let fits x := - steps <= bucket_of start rate steps (fst x) < steps in
  match resample start end_ rate samples with
  | Ok finalValues =>
      rate <> 0 /\ length finalValues = Z.to_nat steps /\ Forall fits samples
  | Raise e =>
      (e = ZeroDivisionError /\ rate = 0)
      \/ (e = IndexError /\ rate <> 0 /\ Exists (fun x => ~ fits x) samples)
  end.
Proof.
  intros steps fits. unfold resample, floordiv.
  destruct (Z.eqb_spec rate 0) as [->|Hrate]; simpl; [now left|].
  fold steps.
  pose proof (push_values_outcome start rate steps samples
                (replicate (Z.to_nat steps) None)) as H.
  simpl in H. rewrite length_replicate in H.
  assert (Hfits : forall x,
             - Z.of_nat (Z.to_nat steps) <= bucket_of start rate steps (fst x)
             < Z.of_nat (Z.to_nat steps) <-> fits x).
  { intros x. unfold fits. lia. }
  destruct (push_values start rate steps _ samples) as [fv|e].
  - destruct H as [Hlen Hall]. split; [exact Hrate|]. split; [exact Hlen|].
    eapply Forall_impl; [exact Hall|]. intros x. apply Hfits.
  - destruct H as [-> Hex]. right. split; [reflexivity|]. split; [exact Hrate|].
    eapply Exists_impl; [exact Hex|]. intros x Hx Hf. apply Hx, Hfits, Hf.
Qed.

(** **** The series of a fetch *)

Lemma sorted_keys_spec {A} (m : gmap string A) :
  Sorted str_le (sorted_keys m)
  /\ NoDup (sorted_keys m)
  /\ forall k, In k (sorted_keys m) <-> k ∈ dom m.
Proof.
  unfold sorted_keys. split; [|split].
  - apply Sorted_merge_sort. apply _.
  - rewrite merge_sort_Permutation. apply NoDup_elements.
  - intros k. rewrite <- list_elem_of_In, merge_sort_Permutation.
    apply elem_of_elements.
Qed.

Lemma processResult_dom cells : forall valuesMap,
  dom (fold_left processResult cells valuesMap)
  = dom valuesMap ∪ list_to_set (map cell_key cells).
Proof.
  induction cells as [|c cells IH]; intros m; simpl.
  - set_solver.
  - rewrite IH. unfold processResult. rewrite dom_insert_L. set_solver.
Qed.

Lemma resample_keys_spec start end_ metricRate valuesMap keys :
  forall finalValuesMap,
    resample_keys start end_ metricRate valuesMap keys = Ok finalValuesMap ->
    forall m, In m keys ->
      exists rate finalValues,
        metricRate !! m = Some rate
        /\ resample start end_ rate (default [] (valuesMap !! m))
           = Ok finalValues
        /\ finalValuesMap !! m = Some finalValues.
Proof.
  induction keys as [|k keys IH]; simpl; intros fvm H m Hm; [destruct Hm|].
  destruct (metricRate !! k) as [rate|] eqn:Hr; [|discriminate].
  destruct (resample start end_ rate _) as [fv|] eqn:Hfv; [|discriminate].
  destruct (resample_keys start end_ metricRate valuesMap keys) as [rest|];
    [|discriminate].
  simpl in H. inversion H; subst; clear H.
  destruct (decide (m = k)) as [->|Hne].
  - exists rate, fv. rewrite lookup_insert_eq. auto.
  - destruct Hm as [->|Hm]; [congruence|].
    destruct (IH rest eq_refl m Hm) as (rate' & fv' & ? & ? & ?).
    exists rate', fv'. rewrite lookup_insert_ne by auto. auto.
Qed.

Lemma build_series_shape removePrefix start end_ pathExpr metricRate valuesMap :
  forall keys seriesList,
    build_series removePrefix start end_ pathExpr metricRate valuesMap keys
    = Ok seriesList ->
    Forall2 (fun m s =>
               s = mkTimeSeries (removePrefix m) start end_ (step s) (values s)
                     "average" 1 (Some pathExpr)
               /\ metricRate !! m = Some (step s)
               /\ valuesMap !! m = Some (values s))
            keys seriesList.
Proof.
  induction keys as [|m keys IH]; simpl; intros seriesList H.
  - inversion H. constructor.
  - destruct (metricRate !! m) as [rate|] eqn:Hr; [|discriminate].
    destruct (valuesMap !! m) as [fv|] eqn:Hv; [|discriminate].
    destruct (build_series _ _ _ _ _ _ keys) as [rest|e]; [|discriminate].
    simpl in H. inversion H; subst; clear H.
    constructor; [|now apply IH].
    simpl. auto.
Qed.

Section HyperTableSeries.
Variable DateTime : Type.
Variable timestamp : DateTime -> Q.
Variable strftime : DateTime -> string -> string.
Variables addPrefix removePrefix : string -> string.
Variable findMetric : string -> list (string * option Z).
Variable doScan : ScanSpec -> string -> list Cell.

(** X17. The series of a fetch that returns. When the loop over the index
    leaves no metric, there is none. Otherwise the rows of the metrics left
    are scanned, and there is one series for each row key among the cells
    that this scan hands over, in the ascending order of these keys, named
    by the key without its prefix. Each series carries the start and the
    end of the request in whole seconds, a step other than 0,
    [(end - start) / step] values, the default consolidation and the
    prefixed path expression. *)
Theorem fetchDataFromHyperTable_series
    (requestContext : RequestContext DateTime) (pathExpr : string)
    (seriesList : list TimeSeries) :
  fst (fetchDataFromHyperTable timestamp strftime addPrefix removePrefix
         findMetric doScan requestContext pathExpr) = Ok seriesList ->
  let startDateTime := ctx_startTime _ requestContext in
  let endDateTime := ctx_endTime _ requestContext in
  let start := int_of_float (timestamp startDateTime) in
  let end_ := int_of_float (timestamp endDateTime) in
  let index := findMetric (addPrefix pathExpr) in
  (exists metrics metricRate,
      fst (check_rates (DateTime := DateTime) index
             (map (fun m => addPrefix (fst m)) index) ∅
             [LogInfo ("fetching " ++ pathExpr)])
      = Ok (metrics, metricRate)
      /\ match metrics with
         | [] => seriesList = []
         | _ :: _ =>
             let cells :=
               doScan (requested_scan start end_
                         (strftime startDateTime "metric:%Y-%m-%d %H")
                         (strftime endDateTime "metric:%Y-%m-%d %H")
                         metrics) "metrics" in
             exists keys,
               (forall k, In k keys <-> In k (map cell_key cells))
               /\ Sorted str_le keys /\ NoDup keys
               /\ map name seriesList = map removePrefix keys
         end)
  /\ Forall (fun s =>
               step s <> 0
               /\ length (values s) = Z.to_nat ((end_ - start) / step s)
               /\ s = mkTimeSeries (name s) start end_ (step s) (values s)
                        "average" 1 (Some (addPrefix pathExpr)))
            seriesList.
Proof.
  intros H startDateTime endDateTime start end_ index.
  unfold fetchDataFromHyperTable in H. cbn zeta in H.
  fold startDateTime endDateTime start end_ index in H.
  destruct (check_rates index (map (fun m => addPrefix (fst m)) index) ∅
              [LogInfo ("fetching " ++ pathExpr)])
    as [[[metrics metricRate]|e] log] eqn:Hcheck; [|discriminate].
  cbn [fst].
  destruct metrics as [|m0 metrics].
  { simpl in H. injection H as <-. split; [|constructor].
    exists [], metricRate. split; reflexivity. }
  change (COL_INTERVAL_SECS / MIN_INTERVAL_SECS) with 360 in H.
  fold (requested_scan start end_
          (strftime startDateTime "metric:%Y-%m-%d %H")
          (strftime endDateTime "metric:%Y-%m-%d %H") (m0 :: metrics)) in H.
  set (scan_spec := requested_scan start end_ _ _ (m0 :: metrics)) in *.
  set (cells := doScan scan_spec "metrics") in *.
  set (valuesMap := fold_left processResult cells ∅) in H.
  destruct (sorted_keys_spec valuesMap) as (Hsorted & Hnodup & Hkeys).
  set (keys := sorted_keys valuesMap) in *.
  simpl in H.
  destruct (resample_keys start end_ metricRate valuesMap keys)
    as [fvm|e] eqn:Hres; [|discriminate].
  simpl in H.
  pose proof (resample_keys_spec _ _ _ _ _ _ Hres) as Hfv.
  pose proof (build_series_shape _ _ _ _ _ _ _ _ H) as Hshape.
  split.
  - exists (m0 :: metrics), metricRate. split; [reflexivity|].
    exists keys.
    split; [|split; [exact Hsorted|split; [exact Hnodup|]]].
    + intros k. rewrite Hkeys. unfold valuesMap.
      rewrite processResult_dom, <- list_elem_of_In. set_solver.
    + clear -Hshape. induction Hshape as [|m s keys l (Hs & _) _ IH];
        [reflexivity|].
      simpl. rewrite IH. f_equal. rewrite Hs at 1. reflexivity.
  - assert (Hin : Forall (fun m => In m keys) keys)
      by (apply List.Forall_forall; auto).
    clear H. revert Hin Hshape. generalize keys at 2 3. generalize seriesList.
    intros l keys' Hin Hshape.
    induction Hshape as [|m s keys' l (Hs & Hrate & Hval) _ IH];
      [constructor|].
    inversion Hin as [|? ? Hm Hin']; subst.
    constructor; [|apply IH; exact Hin'].
    destruct (Hfv m Hm) as (rate & fv & Hr & Hre & Hlook).
    rewrite Hrate in Hr. injection Hr as <-.
    rewrite Hval in Hlook. injection Hlook as <-.
    destruct (resample_Ok_length _ _ _ _ _ Hre) as [Hne Hlen].
    split; [exact Hne|]. split; [exact Hlen|].
    assert (Hn : name s = removePrefix m) by (rewrite Hs; reflexivity).
    rewrite Hn. exact Hs.
Qed.

End HyperTableSeries.

Lemma fetchDataFromHyperTable_series_witness :
  (exists metrics metricRate,
      fst (check_rates (DateTime := Z)
             (DatalibDemo.findMetric (DatalibDemo.addPrefix "web.*"))
             (map (fun m => DatalibDemo.addPrefix (fst m))
                (DatalibDemo.findMetric (DatalibDemo.addPrefix "web.*"))) ∅
             [LogInfo ("fetching " ++ "web.*")])
      = Ok (metrics, metricRate)
      /\ match metrics with
         | [] =>
             [mkTimeSeries "web.cpu" 0 180 60 [None; Some (5#1)%Q; None]
                "average" 1 (Some "fs.web.*")] = []
         | _ :: _ =>
             let cells :=
               DatalibDemo.doScan
                 (requested_scan 0 180 "metric:%Y-%m-%d %H"
                    "metric:%Y-%m-%d %H" metrics) "metrics" in
             exists keys,
               (forall k, In k keys <-> In k (map cell_key cells))
               /\ Sorted str_le keys /\ NoDup keys
               /\ map name [mkTimeSeries "web.cpu" 0 180 60
                              [None; Some (5#1)%Q; None]
                              "average" 1 (Some "fs.web.*")]
                  = map DatalibDemo.removePrefix keys
         end)
  /\ Forall (fun s =>
               step s <> 0
               /\ length (values s) = Z.to_nat ((180 - 0) / step s)
               /\ s = mkTimeSeries (name s) 0 180 (step s) (values s)
                        "average" 1 (Some (DatalibDemo.addPrefix "web.*")))
            [mkTimeSeries "web.cpu" 0 180 60 [None; Some (5#1)%Q; None]
               "average" 1 (Some "fs.web.*")].
Proof.
  apply (fetchDataFromHyperTable_series Z inject_Z (fun _ fmt => fmt)
           DatalibDemo.addPrefix DatalibDemo.removePrefix
           DatalibDemo.findMetric DatalibDemo.doScan
           DatalibDemo.requestContext "web.*").
  vm_compute. reflexivity.
Defined.

Section HyperTableRows.
Variable DateTime : Type.
Variable timestamp : DateTime -> Q.
Variable strftime : DateTime -> string -> string.
Variables addPrefix removePrefix : string -> string.
Variable findMetric : string -> list (string * option Z).
Variable doScan : ScanSpec -> string -> list Cell.

(** X18. The rates are kept under the names of the index, and looked up
    under the row keys of the scan. When every metric of a non-empty index
    has a rate, and the scan hands over cells of which none has a name of
    the index as its key (the rows being stored under prefixed names, say),
    the fetch raises [KeyError]. *)
Theorem fetchDataFromHyperTable_unknown_row_keys
    (requestContext : RequestContext DateTime) (pathExpr : string) :
  let index := findMetric (addPrefix pathExpr) in
  index <> [] ->
  (forall m, In m index -> no_rate (snd m) = false) ->
  (forall scan_spec, doScan scan_spec "metrics" <> []) ->
  (forall scan_spec c, In c (doScan scan_spec "metrics") ->
     ~ In (cell_key c) (map fst index)) ->
  fst (fetchDataFromHyperTable timestamp strftime addPrefix removePrefix
         findMetric doScan requestContext pathExpr) = Raise KeyError.
Proof.
  intros index Hindex Hrated Hcells Hkeys.
  unfold fetchDataFromHyperTable. fold index.
  rewrite (check_rates_all_rated DateTime index _ _ _ Hrated).
  destruct index as [|m0 index'] eqn:Eindex; [congruence|].
  rewrite <- Eindex in *. rewrite Eindex at 1. cbn [map]. cbn zeta.
  match goal with
  | |- context [doScan ?spec "metrics"] => set (scan_spec := spec)
  end.
  specialize (Hcells scan_spec). specialize (Hkeys scan_spec).
  set (cells := doScan scan_spec "metrics") in *.
  set (valuesMap := fold_left processResult cells ∅).
  destruct (sorted_keys_spec valuesMap) as (_ & _ & Hdom).
  assert (Hdom' : forall k, In k (sorted_keys valuesMap) ->
                    exists c, In c cells /\ cell_key c = k).
  { intros k Hk. apply Hdom in Hk. unfold valuesMap in Hk.
    rewrite processResult_dom in Hk.
    assert (Hk' : k ∈ map cell_key cells) by set_solver.
    apply list_elem_of_In, in_map_iff in Hk'.
    destruct Hk' as (c & <- & Hc). eauto. }
  destruct (sorted_keys valuesMap) as [|k keys] eqn:Ekeys.
  - exfalso. destruct cells as [|c cells'] eqn:Ecells; [congruence|].
    apply (Hdom (cell_key c)). unfold valuesMap.
    rewrite processResult_dom. set_solver.
  - destruct (Hdom' k (or_introl eq_refl)) as (c & Hc & <-).
    cbn [resample_keys fst].
    destruct (collect_rates index ∅ !! cell_key c) as [rate|] eqn:Hrate;
      [|reflexivity].
    exfalso. apply (Hkeys c Hc).
    destruct (collect_rates_lookup _ _ _ _ Hrate) as [Hempty|[Hin _]].
    + rewrite lookup_empty in Hempty. discriminate.
    + apply in_map_iff. exists (cell_key c, Some rate). auto.
Qed.

End HyperTableRows.

Lemma fetchDataFromHyperTable_unknown_row_keys_witness :
  fst (fetchDataFromHyperTable inject_Z (fun _ fmt => fmt)
         (fun s => "fs." ++ s)%string DatalibDemo.removePrefix
         (fun _ => [("web.cpu", Some 60)]) DatalibDemo.doScan
         DatalibDemo.requestContext "web.*") = Raise KeyError.
Proof.
  apply (fetchDataFromHyperTable_unknown_row_keys Z inject_Z
           (fun _ fmt => fmt) (fun s => "fs." ++ s)%string
           DatalibDemo.removePrefix (fun _ => [("web.cpu", Some 60)])
           DatalibDemo.doScan DatalibDemo.requestContext "web.*").
  - discriminate.
  - simpl. intros m [<-|[]]. reflexivity.
  - discriminate.
  - simpl. intros _ c [<-|[]] [E|[]]. discriminate.
Defined.

End DatalibExtra.

(** ** storage.py *)

Module StorageExtra.
Import Storage StorageSpec StoreOps StorageExtraSpec StorageProps.

(** **** Federated find *)

Lemma find_all_eq w (self : Store) (query : Query) :
  let local :=
    gen_concat (map (fun d => find w d query) (directories self)) in
  let remote :=
    gen_concat (map (fun r => get_results r query)
                    (List.filter available (remote_stores self))) in
  exists ys,
    find_all w self query = gen_app local (ys, snd remote)
    /\ Unseen (paths (fst local)) (fst remote) ys.
Proof.
  intros local remote. unfold find_all.
  rewrite find_loop_local. fold local.
  destruct (find_loop_remote
              (map (fun r => get_results r query)
                   (List.filter available (remote_stores self)))
              (paths (fst local) ∪ ∅)) as (ys & -> & Hys).
  fold remote in Hys |- *.
  replace (paths (fst local) ∪ ∅) with (paths (fst local)) in Hys by set_solver.
  exists ys. split; [reflexivity | exact Hys].
Qed.

Lemma Unseen_facts found ms ys :
  Unseen found ms ys ->
  NoDup (map metric_path ys)
  /\ (forall y, In y ys -> (metric_path y ∉ found) /\ In y ms)
  /\ (forall m, In m ms ->
        (metric_path m ∈ found) \/ In (metric_path m) (map metric_path ys)).
Proof.
  induction 1 as [found|found m ms ys Hin H IH|found m ms ys Hout H IH].
  - split; [constructor|]. split; intros ? [].
  - destruct IH as (Hnd & Hys & Hms). split; [exact Hnd|]. split.
    + intros y Hy. destruct (Hys y Hy). split; [assumption | now right].
    + intros m' [<-|Hm']; [now left | auto].
  - destruct IH as (Hnd & Hys & Hms). split; [|split].
    + simpl. apply NoDup_cons. split; [|exact Hnd].
      rewrite list_elem_of_In, in_map_iff. intros (y & Hy & Hiny).
      destruct (Hys y Hiny) as [Hnot _]. apply Hnot. rewrite Hy. set_solver.
    + intros y [<-|Hy]; [split; [exact Hout | now left]|].
      destruct (Hys y Hy) as [Hnot Hiny]. split; [set_solver | now right].
    + intros m' [<-|Hm']; [right; now left|].
      destruct (Hms m' Hm') as [Hf|Hf]; [|right; now right].
      apply elem_of_union in Hf as [Hf|Hf]; [|now left].
      apply elem_of_singleton in Hf. right. left. now symmetry.
Qed.

Lemma elem_of_paths p ms : p ∈ paths ms <-> In p (map metric_path ms).
Proof. unfold paths. rewrite elem_of_list_to_set. apply list_elem_of_In. Qed.

(** X6. In a wildcard find the nodes taken from remote stores have
    pairwise different metric paths, none of them the metric path of a
    local match, and no metric path that a remote store delivers is lost:
    each one is the metric path of some node of the result. *)
Theorem find_all_remote_paths_distinct_and_complete w (self : Store)
    (query : Query) :
  let local :=
    gen_concat (map (fun d => find w d query) (directories self)) in
  let remote :=
    gen_concat (map (fun r => get_results r query)
                    (List.filter available (remote_stores self))) in
  snd local = None ->
  exists ys,
    fst (find_all w self query) = (fst local ++ ys)%list
    /\ NoDup (map metric_path ys)
    /\ (forall y, In y ys ->
          In y (fst remote)
          /\ ~ In (metric_path y) (map metric_path (fst local)))
    /\ (forall m, In m (fst remote) ->
          In (metric_path m) (map metric_path (fst (find_all w self query)))).
Proof.
  intros local remote Hok.
  destruct (find_all_eq w self query) as (ys & Heq & Hys).
  fold local remote in Heq, Hys.
  destruct (Unseen_facts _ _ _ Hys) as (Hnd & Hfrom & Hall).
  assert (Hfst : fst (find_all w self query) = (fst local ++ ys)%list).
  { rewrite Heq. unfold gen_app. now rewrite Hok. }
  exists ys. split; [exact Hfst|]. split; [exact Hnd|]. split.
  - intros y Hy. destruct (Hfrom y Hy) as [Hnot Hin]. split; [exact Hin|].
    now rewrite <- elem_of_paths.
  - intros m Hm. rewrite Hfst, map_app, in_app_iff.
    destruct (Hall m Hm) as [Hl|Hr]; [left; now apply elem_of_paths | now right].
Qed.

Lemma find_all_remote_paths_distinct_and_complete_witness :
  exists ys,
    fst (find_all StorageDemo.world StorageDemo.store (mkQuery "*.y" None None))
    = ([StorageDemo.a_y; StorageDemo.x_y] ++ ys)%list
    /\ NoDup (map metric_path ys)
    /\ (forall y, In y ys ->
          In y [StorageDemo.remote_node]
          /\ ~ In (metric_path y)
                  (map metric_path [StorageDemo.a_y; StorageDemo.x_y]))
    /\ (forall m, In m [StorageDemo.remote_node] ->
          In (metric_path m)
             (map metric_path
                (fst (find_all StorageDemo.world StorageDemo.store
                        (mkQuery "*.y" None None))))).
Proof.
  exact (find_all_remote_paths_distinct_and_complete StorageDemo.world
           StorageDemo.store (mkQuery "*.y" None None) eq_refl).
Defined.

(** **** Exact find *)

Lemma first_match_head gens :
  first_match gens
  = match fst (gen_concat gens), snd (gen_concat gens) with
    | m :: _, _ => Ok (Some m)
    | [], Some e => Raise e
    | [], None => Ok None
    end.
Proof.
  induction gens as [|[ms raised] gens IH]; simpl; [reflexivity|].
  unfold gen_app. simpl.
  destruct ms as [|m ms]; destruct raised as [e|]; simpl; try reflexivity.
  exact IH.
Qed.

Lemma Unseen_empty_head ms ys :
  Unseen ∅ ms ys -> hd_error ys = hd_error ms.
Proof.
  inversion 1; subst; simpl; [reflexivity | set_solver | reflexivity].
Qed.

Lemma find_first_head w (self : Store) (query : Query) :
  find_first w self query
  = match fst (find_all w self query), snd (find_all w self query) with
    | m :: _, _ => Ok (Some m)
    | [], Some e => Raise e
    | [], None => Ok None
    end.
Proof.
  destruct (find_all_eq w self query) as (ys & -> & Hys).
  unfold find_first. rewrite !first_match_head.
  destruct (gen_concat (map (fun d => find w d query) (directories self)))
    as [ls lr].
  unfold gen_app. simpl in *.
  destruct ls as [|m ls]; destruct lr as [e|]; simpl; try reflexivity.
  replace (paths []) with (∅ : gset string) in Hys by reflexivity.
  apply Unseen_empty_head in Hys.
  destruct (gen_concat _) as [rs rr]. simpl in *.
  destruct ys as [|y ys]; destruct rs as [|r rs]; simpl in Hys;
    try discriminate; [reflexivity|].
  injection Hys as ->. reflexivity.
Qed.

(** X7. The first-match search returns the node that the exhaustive search
    yields first: a match of the first local root that has one and, when no
    local root has a match, the first result of the available remote
    stores. It raises when the exhaustive search raises before yielding
    anything, and returns [None] when that search yields nothing. *)
Theorem find_first_is_head_of_find_all w (self : Store) (query : Query) :
  find_first w self query
  = match fst (find_all w self query), snd (find_all w self query) with
    | m :: _, _ => Ok (Some m)
    | [], Some e => Raise e
    | [], None => Ok None
    end.
Proof. apply find_first_head. Qed.

(** X8. For a pattern without wildcard characters, [Store.find] yields at
    most one node: the first node of the exhaustive search, when there is
    one. *)
Theorem Store_find_exact w (self : Store) pattern startTime endTime :
  isExact (mkQuery pattern startTime endTime) = true ->
  Store_find w self pattern startTime endTime
  = match find_all w self (mkQuery pattern startTime endTime) with
    | (m :: _, _) => ([m], None)
    | ([], raised) => ([], raised)
    end.
Proof.
  intros Hex. unfold Store_find. rewrite Hex, find_first_head.
  destruct (find_all w self _) as [[|m ms] [e|]]; reflexivity.
Qed.

Lemma Store_find_exact_witness :
  isExact (mkQuery "a.y" None None) = true
  /\ Store_find StorageDemo.world StorageDemo.store "a.y" None None
     = ([StorageDemo.a_y], None).
Proof.
  split; [reflexivity|].
  rewrite (Store_find_exact StorageDemo.world StorageDemo.store "a.y" None None
             eq_refl).
  vm_compute. reflexivity.
Defined.

(** **** Local interfaces and the construction of a store *)

Section LocalInterfaceProps.
Variable bind : string -> Z -> option Z.
Variable EADDRNOTAVAIL : Z.
Variable str_error : Z -> string.
Variable RemoteStore_new : string -> RemoteStore.

Lemma try_ports_spec host count : forall port e,
  match try_ports bind EADDRNOTAVAIL str_error count port host e with
  | Ok b =>
      exists p, port <= p < port + Z.of_nat count
                /\ (forall q, port <= q < p -> other_error bind EADDRNOTAVAIL host q)
                /\ bind host p = if b then None else Some EADDRNOTAVAIL
  | Raise _ =>
      forall p, port <= p < port + Z.of_nat count -> other_error bind EADDRNOTAVAIL host p
  end.
Proof.
  induction count as [|count IH]; intros port e; cbn [try_ports].
  - intros p Hp. lia.
  - destruct (bind host port) as [errno|] eqn:Hb.
    + destruct (Z.eqb_spec errno EADDRNOTAVAIL) as [->|Hne].
      * exists port. split; [lia|]. split; [intros q Hq; lia | exact Hb].
      * specialize (IH (port + 1) (Some errno)).
        destruct (try_ports _ _ _ count (port + 1) host (Some errno)) as [b|e'].
        -- destruct IH as (p & Hp & Hbefore & Hat).
           exists p. split; [lia|]. split; [|exact Hat].
           intros q Hq. destruct (Z.eq_dec q port) as [->|Hq'].
           ++ exists errno. auto.
           ++ apply Hbefore. lia.
        -- intros p Hp. destruct (Z.eq_dec p port) as [->|Hp'].
           ++ exists errno. auto.
           ++ apply IH. lia.
    + exists port. split; [lia|]. split; [intros q Hq; lia | exact Hb].
Qed.

(** X9. The answer of [is_local_interface] is that of the first port, from
    1025 on, where binding does not fail for another reason: true when it
    binds there, false when the address is not available there. It raises
    only when binding fails for another reason at every port from 1025 to
    65534. *)
Theorem is_local_interface_first_decisive_port (host : string) :
  match is_local_interface bind EADDRNOTAVAIL str_error host with
  | Ok b =>
      exists p, 1025 <= p < 65535
                /\ (forall q, 1025 <= q < p -> other_error bind EADDRNOTAVAIL (interface_of host) q)
                /\ bind (interface_of host) p
                   = if b then None else Some EADDRNOTAVAIL
  | Raise _ =>
      forall p, 1025 <= p < 65535 -> other_error bind EADDRNOTAVAIL (interface_of host) p
  end.
Proof.
  unfold is_local_interface.
  pose proof (try_ports_spec (interface_of host) (Z.to_nat (65535 - 1025))
                1025 None) as H.
  destruct (try_ports _ _ _ _ _ _ _) as [b|e].
  - destruct H as (p & Hp & H). exists p. split; [lia | exact H].
  - intros p Hp. apply H. lia.
Qed.

Lemma try_ports_not_ValueError host count : forall port e,
  try_ports bind EADDRNOTAVAIL str_error count port host e <> Raise ValueError
  /\ try_ports bind EADDRNOTAVAIL str_error count port host e <> Raise NameError.
Proof.
  induction count as [|count IH]; intros port e; cbn [try_ports].
  - split; discriminate.
  - destruct (bind host port) as [errno|]; [|split; discriminate].
    destruct (errno =? EADDRNOTAVAIL); [split; discriminate | apply IH].
Qed.

Lemma remote_hosts_of_spec hosts :
  match remote_hosts_of bind EADDRNOTAVAIL str_error hosts with
  | Ok remote_hosts =>
      Forall (fun h => exists b,
                is_local_interface bind EADDRNOTAVAIL str_error h = Ok b) hosts
      /\ remote_hosts
         = List.filter
             (fun h => match is_local_interface bind EADDRNOTAVAIL str_error h
                       with Ok false => true | _ => false end) hosts
  | Raise e => e <> ValueError /\ e <> NameError
  end.
Proof.
  induction hosts as [|h hosts IH]; cbn [remote_hosts_of].
  - split; [constructor | reflexivity].
  - destruct (is_local_interface bind EADDRNOTAVAIL str_error h) as [b|e] eqn:E;
      cbn [Py.bind].
    + destruct (remote_hosts_of _ _ _ hosts) as [rest|e]; cbn [Py.bind].
      * destruct IH as [Hall ->]. split.
        -- constructor; [eauto | exact Hall].
        -- simpl. rewrite E. now destruct b.
      * exact IH.
    + unfold is_local_interface in E.
      destruct (try_ports_not_ValueError (interface_of h)
                  (Z.to_nat (65535 - 1025)) 1025 None) as [H1 H2].
      rewrite E in H1, H2. split; congruence.
Qed.

(** X10. Constructing a store never raises [ValueError]. With an empty list
    of directories it raises [NameError] whenever the checks of the hosts
    return, whether or not remote hosts are left. With directories it
    returns a store with these directories and one remote store for each
    host that is not a local interface, in order. *)
Theorem Store_init_outcome (directories hosts : list string) :
  match Store_init bind EADDRNOTAVAIL str_error RemoteStore_new
          directories hosts with
  | Ok self =>
      directories <> []
      /\ Storage.directories self = directories
      /\ remote_stores self
         = map RemoteStore_new
             (List.filter
                (fun h => match is_local_interface bind EADDRNOTAVAIL
                                  str_error h
                          with Ok false => true | _ => false end) hosts)
  | Raise e =>
      e <> ValueError
      /\ (e = NameError <->
          directories = []
          /\ exists remote_hosts,
               remote_hosts_of bind EADDRNOTAVAIL str_error hosts
               = Ok remote_hosts)
  end.
Proof.
  unfold Store_init.
  pose proof (remote_hosts_of_spec hosts) as H.
  destruct (remote_hosts_of bind EADDRNOTAVAIL str_error hosts)
    as [remote_hosts|e]; cbn [Py.bind].
  - destruct H as [_ ->]. destruct directories as [|d ds].
    + split; [discriminate|]. split; [eauto | reflexivity].
    + split; [discriminate|]. split; reflexivity.
  - destruct H as [H1 H2]. split; [exact H1|]. split; [contradiction|].
    intros (_ & rh & Hrh). discriminate.
Qed.

End LocalInterfaceProps.

(** **** The canonical name behind a symbolic link *)

Lemma length_append (a b : string) :
  String.length (a ++ b) = (String.length a + String.length b)%nat.
Proof. induction a as [|c a IH]; [reflexivity|]. append_head. simpl. now rewrite IH. Qed.

Lemma substring_whole (b : string) : String.substring 0 (String.length b) b = b.
Proof. induction b as [|c b IH]; [reflexivity|]. simpl. now rewrite IH. Qed.

Lemma substring_prefix (a b : string) :
  String.substring 0 (String.length a) (a ++ b) = a.
Proof.
  induction a as [|c a IH]; append_head.
  - now destruct b.
  - simpl. now rewrite IH.
Qed.

Lemma substring_suffix (a b : string) :
  String.substring (String.length a) (String.length b) (a ++ b) = b.
Proof.
  induction a as [|c a IH]; append_head.
  - apply substring_whole.
  - simpl. exact IH.
Qed.

Lemma slice_from_append (a b : string) : slice_from (String.length a) (a ++ b) = b.
Proof.
  unfold slice_from. rewrite length_append.
  replace (String.length a + String.length b - String.length a)%nat
    with (String.length b) by lia.
  apply substring_suffix.
Qed.

Lemma slice_to_minus_append (a b : string) :
  b <> EmptyString -> slice_to_minus (String.length b) (a ++ b) = a.
Proof.
  intros Hb. unfold slice_to_minus.
  destruct (String.length b) as [|k] eqn:E.
  - destruct b; [contradiction | discriminate].
  - rewrite <- E, length_append.
    replace (String.length a + String.length b - String.length b)%nat
      with (String.length a) by lia.
    apply substring_prefix.
Qed.

Lemma real_metric_ext_under_symlink w cls ext base real_rel mp :
  ext <> EmptyString ->
  let fs := (base ++ replace_char "." "/" mp ++ ext)%string in
  realpath w fs = (base ++ real_rel ++ ext)%string ->
  realpath w fs <> fs ->
  real_metric (WhisperFile_init_ext w cls ext fs mp)
  = replace_char "/" "." real_rel.
Proof.
  intros Hext fs Hreal Hne. unfold WhisperFile_init_ext.
  cbn [Node_init Storage.fs_path Storage.metric_path].
  fold fs. rewrite Hreal.
  destruct (String.eqb_spec (base ++ real_rel ++ ext) fs) as [E|_];
    [rewrite Hreal in Hne; contradiction|].
  cbn [negb set_real_metric real_metric].
  assert (Hrel : (replace_char "." "/" mp ++ ext)%string <> EmptyString).
  { destruct (replace_char "." "/" mp); append_head; [exact Hext | discriminate]. }
  unfold fs at 1.
  rewrite (slice_to_minus_append base _ Hrel).
  rewrite slice_from_append, (slice_to_minus_append real_rel ext Hext).
  reflexivity.
Qed.

(** X11. Let the path of a whisper file be a base directory followed by
    its metric path, dots turned into slashes, and the extension, and let
    [realpath] resolve it to another file under the same base with the
    same extension. Then [real_metric] is the rest of the resolved path,
    slashes turned into dots, while [metric_path] stays the name that was
    asked for. The same holds for gzipped whisper files and [.wsp.gz]. *)
Theorem real_metric_under_symlink w base real_rel mp :
  (let fs := (base ++ replace_char "." "/" mp ++ ".wsp")%string in
   realpath w fs = (base ++ real_rel ++ ".wsp")%string ->
   realpath w fs <> fs ->
   real_metric (WhisperFile_init w fs mp) = replace_char "/" "." real_rel
   /\ metric_path (WhisperFile_init w fs mp) = mp)
  /\ (let fs := (base ++ replace_char "." "/" mp ++ ".wsp.gz")%string in
      realpath w fs = (base ++ real_rel ++ ".wsp.gz")%string ->
      realpath w fs <> fs ->
      real_metric (GzippedWhisperFile_init w fs mp)
      = replace_char "/" "." real_rel
      /\ metric_path (GzippedWhisperFile_init w fs mp) = mp).
Proof.
  split; intros fs Hreal Hne; (split;
    [apply real_metric_ext_under_symlink; [discriminate | exact Hreal | exact Hne]
    | apply metric_path_WhisperFile_init_ext]).
Qed.

Lemma real_metric_under_symlink_witness :
  realpath StorageDemo.world "/data/a/y.wsp" = "/data/x/y.wsp"
  /\ real_metric (WhisperFile_init StorageDemo.world "/data/a/y.wsp" "a.y")
     = "x.y"
  /\ metric_path (WhisperFile_init StorageDemo.world "/data/a/y.wsp" "a.y")
     = "a.y".
Proof.
  split; [reflexivity|].
  exact (proj1 (real_metric_under_symlink StorageDemo.world "/data/" "x/y" "a.y")
           eq_refl ltac:(discriminate)).
Defined.

(** **** The order of a directory listing *)

Lemma List_filter_Permutation {A} (f : A -> bool) l l' :
  Permutation l l' -> Permutation (List.filter f l) (List.filter f l').
Proof.
  induction 1 as [|x l l' H IH|x y l|l l' l'' H1 IH1 H2 IH2]; simpl.
  - constructor.
  - destruct (f x); [now constructor | exact IH].
  - destruct (f x), (f y); try reflexivity. constructor.
  - now transitivity (List.filter f l').
Qed.

Lemma gen_for_ext {A B} (l : list A) raised (f g : A -> Gen B) :
  (forall a, f a = g a) -> gen_for l raised f = gen_for l raised g.
Proof.
  intros H. induction l as [|a l IH]; simpl; [reflexivity|].
  now rewrite H, IH.
Qed.

Lemma _find_with_listdir w ld :
  (forall d, same_entries (listdir w d) (ld d)) ->
  forall patterns current_dir,
    _find (with_listdir w ld) current_dir patterns = _find w current_dir patterns.
Proof.
  intros Hld. induction patterns as [|pattern patterns IH]; intros current_dir;
    [reflexivity|].
  cbn [_find]. cbn [listdir isdir isfile rrdtool with_listdir].
  specialize (Hld current_dir). unfold same_entries in Hld.
  destruct (listdir w current_dir) as [entries|e],
           (ld current_dir) as [entries'|e']; try contradiction;
    [|now subst].
  unfold sorted_matches. cbn [fnmatch with_listdir].
  rewrite (merge_sort_Permutation_eq
             (List.filter (fun e => fnmatch w e pattern)
                (List.filter (fun e => isdir w (join current_dir e)) entries'))
             (List.filter (fun e => fnmatch w e pattern)
                (List.filter (fun e => isdir w (join current_dir e)) entries)))
    by (apply List_filter_Permutation, List_filter_Permutation;
        now symmetry).
  assert (Hfiles : forall pat,
             merge_sort str_le
               (List.filter (fun e => fnmatch w e pat)
                  (List.filter (fun e => isfile w (join current_dir e)) entries'))
             = merge_sort str_le
                 (List.filter (fun e => fnmatch w e pat)
                    (List.filter (fun e => isfile w (join current_dir e)) entries))).
  { intros pat. apply merge_sort_Permutation_eq.
    apply List_filter_Permutation, List_filter_Permutation. now symmetry. }
  rewrite !Hfiles.
  f_equal.
  destruct patterns as [|p ps]; [reflexivity|].
  apply gen_for_ext. intros subdir. apply IH.
Qed.

(** X12. What the finder yields does not depend on the order in which
    [os.listdir] lists a directory: with listings that are permutations of
    each other, and fail alike, [find] yields the same nodes in the same
    order. *)
Theorem find_independent_of_listing_order w ld root_dir query :
  (forall d, same_entries (listdir w d) (ld d)) ->
  find (with_listdir w ld) root_dir query = find w root_dir query.
Proof.
  intros Hld. unfold find. rewrite (_find_with_listdir w ld Hld).
  reflexivity.
Qed.

Lemma find_independent_of_listing_order_witness :
  find (with_listdir StorageDemo.world
          (fun d => match listdir StorageDemo.world d with
                    | Ok l => Ok (rev l)
                    | Raise e => Raise e
                    end))
       "/data" (mkQuery "*.y" None None)
  = find StorageDemo.world "/data" (mkQuery "*.y" None None).
Proof.
  apply (find_independent_of_listing_order StorageDemo.world).
  intros d. unfold same_entries.
  destruct (listdir StorageDemo.world d); [apply Permutation_rev | reflexivity].
Defined.

(** **** The kinds of nodes that the finder yields *)

Lemma class_WhisperFile_init_ext w cls ext fs mp :
  class (WhisperFile_init_ext w cls ext fs mp) = cls.
Proof.
  unfold WhisperFile_init_ext. cbn [Node_init fs_path].
  destruct (negb _); reflexivity.
Qed.

Lemma class_CeresDirectory_init w fs :
  class (CeresDirectory_init w fs) = CeresDirectory.
Proof.
  unfold CeresDirectory_init. cbn [fs_path].
  destruct (negb _); reflexivity.
Qed.

Lemma find_node_kind w root_dir query absolute_path n :
  In n (fst (find_node w root_dir query absolute_path)) ->
  kind_matches w query n.
Proof.
  unfold find_node, kind_matches.
  destruct (startswith_char "." (basename absolute_path)); [intros []|].
  destruct (if contains DATASOURCE_DELIMETER (basename absolute_path)
            then match rsplit1 DATASOURCE_DELIMETER absolute_path with
                 | Some (h, t) => (h, Some t)
                 | None => (absolute_path, None)
                 end
            else (absolute_path, None)) as [path datasource_pattern].
  destruct (isdir w path) eqn:Hdir.
  { destruct (isNodeDir w path) eqn:Hnode.
    - destruct (hasDataForInterval w path _ _) eqn:Hdata; [|intros []].
      intros H. apply In_yield_stop in H. subst n.
      rewrite class_CeresDirectory_init, fs_path_CeresDirectory_init. auto.
    - intros H. apply In_yield_stop in H. subst n. simpl. auto. }
  destruct (isfile w path) eqn:Hfile; [|intros []].
  destruct (splitext _) as [metric_path extension].
  destruct (String.eqb extension ".wsp").
  { intros H. apply In_yield_stop in H. subst n. unfold WhisperFile_init.
    rewrite class_WhisperFile_init_ext, fs_path_WhisperFile_init_ext. auto. }
  destruct (String.eqb extension ".gz" && endswith metric_path ".wsp").
  { intros H. apply In_yield_stop in H. subst n. unfold GzippedWhisperFile_init.
    rewrite class_WhisperFile_init_ext, fs_path_WhisperFile_init_ext. auto. }
  destruct (rrdtool w) eqn:Hrrd; [|intros []].
  destruct (String.eqb extension ".rrd"); [|intros []]. cbn [andb].
  destruct datasource_pattern as [datasource_pattern|].
  - destruct (getDataSources w _) as [sources|e] eqn:Hs; [|intros []].
    apply getDataSources_nil in Hs. subst sources. intros [].
  - intros H. apply In_yield_stop in H. subst n. simpl. auto.
Qed.

(** X19. What kind of node the finder yields for a path. A branch is a
    directory that is not a Ceres node; a Ceres directory is one that is,
    and has data for the interval of the query; a Whisper file, gzipped or
    not, is a file; an RRD file is a file, and is only found where [rrdtool]
    is there. A data source of an RRD file is never found. *)
Theorem find_yields_by_kind w root_dir query n :
  In n (fst (find w root_dir query)) -> kind_matches w query n.
Proof.
  unfold find. intros H.
  destruct (gen_bind_In _ _ _ H) as (absolute_path & _ & Hn).
  exact (find_node_kind _ _ _ _ _ Hn).
Qed.

Lemma find_yields_by_kind_witness :
  In StorageDemo.x_y
    (fst (find StorageDemo.world "/data" (mkQuery "x.*" None None)))
  /\ isdir StorageDemo.world (fs_path StorageDemo.x_y) = false
  /\ isfile StorageDemo.world (fs_path StorageDemo.x_y) = true.
Proof.
  assert (H : In StorageDemo.x_y
                (fst (find StorageDemo.world "/data" (mkQuery "x.*" None None))))
    by (vm_compute; tauto).
  split; [exact H|].
  exact (find_yields_by_kind StorageDemo.world "/data"
           (mkQuery "x.*" None None) StorageDemo.x_y H).
Defined.

(** **** What the finder matches *)

Lemma In_sorted_matches w names pattern e :
  In e (sorted_matches w names pattern)
  <-> In e names /\ fnmatch w e pattern = true.
Proof.
  unfold sorted_matches.
  rewrite <- list_elem_of_In, merge_sort_Permutation, list_elem_of_In.
  apply (filter_In (fun e => fnmatch w e pattern)).
Qed.

Lemma gen_app_None {A} (g1 g2 : Gen A) :
  snd (gen_app g1 g2) = None ->
  snd g1 = None /\ snd g2 = None
  /\ fst (gen_app g1 g2) = (fst g1 ++ fst g2)%list.
Proof.
  unfold gen_app. destruct (snd g1) eqn:E; simpl; [congruence | auto].
Qed.

Lemma gen_for_None {A B} (l : list A) (body : A -> Gen B) :
  snd (gen_for l None body) = None ->
  forall a, In a l ->
    snd (body a) = None
    /\ forall b, In b (fst (body a)) -> In b (fst (gen_for l None body)).
Proof.
  induction l as [|x l IH]; simpl; intros H a Ha; [destruct Ha|].
  destruct (gen_app_None _ _ H) as (Hx & Hl & ->).
  destruct Ha as [->|Ha].
  - split; [exact Hx|]. intros b Hb. apply in_app_iff. now left.
  - destruct (IH Hl a Ha) as [Hsnd Hfst]. split; [exact Hsnd|].
    intros b Hb. apply in_app_iff. right. now apply Hfst.
Qed.

Lemma _find_matching w : forall patterns current_dir path,
  In path (fst (_find w current_dir patterns)) ->
  matching w current_dir patterns path.
Proof.
  induction patterns as [|pattern patterns IH]; intros current_dir path;
    [intros []|].
  cbn [_find matching].
  destruct (listdir w current_dir) as [entries|e]; [|intros []].
  intros H. apply gen_app_In in H. destruct H as [H|H].
  - destruct patterns as [|datasource_pattern [|? ?]]; try destruct H.
    destruct (rrdtool w) eqn:Hrrd; [|destruct H].
    apply gen_for_In in H. destruct H as (rrd_file & Hin & H).
    apply In_yield_stop in H.
    apply In_sorted_matches in Hin. destruct Hin as [Hin Hmatch].
    apply filter_In in Hin. destruct Hin as [Hin Hfile].
    exists entries, rrd_file. split; [reflexivity|]. split; [exact Hin|].
    right. exists datasource_pattern. auto.
  - destruct patterns as [|p ps].
    + apply gen_for_In in H. destruct H as (e & Hin & H).
      apply In_yield_stop in H.
      exists entries, e. split; [reflexivity|].
      apply in_app_iff in Hin. destruct Hin as [Hin|Hin];
        apply In_sorted_matches in Hin; destruct Hin as [Hin Hmatch];
        apply filter_In in Hin; destruct Hin as [Hin Hkind]; auto.
    + apply gen_for_In in H. destruct H as (subdir & Hin & H).
      apply In_sorted_matches in Hin. destruct Hin as [Hin Hmatch].
      apply filter_In in Hin. destruct Hin as [Hin Hdir].
      exists entries, subdir. split; [reflexivity|]. split; [exact Hin|].
      left. auto.
Qed.

Lemma matching__find w : forall patterns current_dir path,
  snd (_find w current_dir patterns) = None ->
  matching w current_dir patterns path ->
  In path (fst (_find w current_dir patterns)).
Proof.
  induction patterns as [|pattern patterns IH]; intros current_dir path;
    [discriminate|].
  cbn [_find matching].
  intros Hnone (entries & e & Hlist & Hin & H). rewrite Hlist in Hnone |- *.
  destruct (gen_app_None _ _ Hnone) as (Hrrd & Hmain & ->).
  rewrite in_app_iff.
  destruct patterns as [|p ps].
  - right. destruct H as [-> H].
    apply (gen_for_None _ _ Hmain e); [|now left].
    rewrite in_app_iff, !In_sorted_matches, !filter_In. tauto.
  - destruct H as [(Hdir & Hmatch & H)|(dsp & [= -> ->] & Hr & Hfile & Hmatch & ->)].
    + right.
      assert (Hsub : In e (sorted_matches w
                             (List.filter (fun e => isdir w (join current_dir e))
                                entries) pattern)).
      { rewrite In_sorted_matches, filter_In. auto. }
      destruct (gen_for_None _ _ Hmain e Hsub) as [Hsnd Hfst].
      apply Hfst. now apply IH.
    + left. rewrite Hr in Hrrd |- *.
      apply (gen_for_None _ _ Hrrd e); [|now left].
      rewrite In_sorted_matches, filter_In. auto.
Qed.

(** X23. The search beneath a directory yields the paths that match the
    patterns component by component, and no others; and when it ends
    without an exception (no listing has failed), it yields every one of
    them. *)
Theorem search_yields_the_matching_paths w current_dir patterns path :
  (In path (fst (_find w current_dir patterns)) ->
   matching w current_dir patterns path)
  /\ (snd (_find w current_dir patterns) = None ->
      matching w current_dir patterns path ->
      In path (fst (_find w current_dir patterns))).
Proof.
  split; [apply _find_matching | apply matching__find].
Qed.

Lemma search_yields_the_matching_paths_witness :
  In "/data/x/y.wsp" (fst (_find StorageDemo.world "/data" ["x"; "*"]))
  /\ matching StorageDemo.world "/data" ["x"; "*"] "/data/x/y.wsp".
Proof.
  assert (H : In "/data/x/y.wsp"
                (fst (_find StorageDemo.world "/data" ["x"; "*"])))
    by (vm_compute; tauto).
  split; [exact H|].
  exact (proj1 (search_yields_the_matching_paths StorageDemo.world "/data"
                  ["x"; "*"] "/data/x/y.wsp") H).
Defined.

End StorageExtra.

(** ** render/datalib.py: [CarbonLinkPool] *)

Module CarbonLinkExtra.
Import Datalib DatalibSpec CarbonLink DatalibProps.

(** **** The length prefix *)

Lemma byte_val_byte_of n : byte_val (byte_of n) = n mod 256.
Proof.
  unfold byte_val, byte_of.
  pose proof (Z.mod_pos_bound n 256 ltac:(lia)) as Hr.
  destruct (Byte.of_N (Z.to_N (n mod 256))) as [b|] eqn:E.
  - simpl. rewrite (Byte.to_of_N _ E). lia.
  - apply Byte.of_N_None_iff in E. lia.
Qed.

Lemma pack_L_in_range n :
  0 <= n < 2 ^ 32 ->
  exists len_prefix,
    pack_L n = Ok len_prefix
    /\ length len_prefix = 4%nat
    /\ unpack_L len_prefix = Ok n.
Proof.
  unfold pack_L. intros H.
  destruct (Z.leb_spec 0 n); [|lia]. destruct (Z.ltb_spec n (2 ^ 32)); [|lia].
  eexists. split; [reflexivity|]. split; [reflexivity|].
  cbn [unpack_L andb]. rewrite !byte_val_byte_of. f_equal.
  change (2 ^ 24) with 16777216. change (2 ^ 16) with 65536.
  change (2 ^ 8) with 256. change (2 ^ 32) with 4294967296 in *.
  Z.to_euclidean_division_equations. lia.
Qed.

(** X13. The length prefix that [send_request] writes is read back by
    [recv_response]: for a length below 2^32, [pack] gives four bytes that
    [unpack] turns into the same number; any other number makes [pack]
    raise [struct.error]. *)
Theorem unpack_pack_L (n : Z) :
  (0 <= n < 2 ^ 32 ->
   exists len_prefix,
     pack_L n = Ok len_prefix
     /\ length len_prefix = 4%nat
     /\ unpack_L len_prefix = Ok n)
  /\ (~ 0 <= n < 2 ^ 32 -> pack_L n = Raise StructError).
Proof.
  split; [apply pack_L_in_range|]. unfold pack_L. intros H.
  destruct (Z.leb_spec 0 n); [|reflexivity].
  destruct (Z.ltb_spec n (2 ^ 32)); [lia | reflexivity].
Qed.

Lemma unpack_pack_L_witness :
  exists len_prefix,
    pack_L 66051 = Ok len_prefix
    /\ length len_prefix = 4%nat
    /\ unpack_L len_prefix = Ok 66051.
Proof.
  apply (proj1 (unpack_pack_L 66051)). split; [lia | reflexivity].
Defined.

(** **** Reading a frame that arrives in pieces *)

Lemma segments_loop fuel : forall segs n buf reads,
  Forall (fun s => s <> []) segs ->
  Z.of_nat (length buf) <= n ->
  n - Z.of_nat (length buf) <= Z.of_nat fuel ->
  n - Z.of_nat (length buf) <= Z.of_nat (length (concat segs)) ->
  let k := Z.to_nat (n - Z.of_nat (length buf)) in
  exists segs' reads',
    recv_exactly_loop segments_recv fuel segs n buf reads
    = Some (Ok (buf ++ take k (concat segs)), segs', reads ++ reads')%list
    /\ concat segs' = drop k (concat segs)
    /\ Forall (fun s => s <> []) segs'
    /\ concat reads' = take k (concat segs).
Proof.
  induction fuel as [|fuel IH]; intros segs n buf reads Hne Hbuf Hfuel Hlen k;
    cbn [recv_exactly_loop];
    destruct (Z.ltb_spec (Z.of_nat (length buf)) n) as [Hlt|Hge].
  - lia.
  - exists segs, []. replace k with O by lia. rewrite take_0, drop_0, !app_nil_r.
    auto.
  - destruct segs as [|seg segs0]; [simpl in Hlen; lia|].
    apply Forall_cons in Hne as [Hseg Hne0].
    destruct seg as [|x seg]; [contradiction|].
    unfold segments_recv at 1.
    destruct (Z.ltb_spec (n - Z.of_nat (length buf)) 0) as [|_]; [lia|].
    fold k. destruct k as [|k'] eqn:Ek; [lia|].
    cbn [firstn skipn].
    set (data := x :: take k' seg).
    set (conn1 := match drop k' seg with
                  | [] => segs0
                  | seg' => seg' :: segs0
                  end).
    assert (Hconn1 : concat conn1 = (drop k' seg ++ concat segs0)%list).
    { unfold conn1. destruct (drop k' seg); reflexivity. }
    assert (Hne1 : Forall (fun s => s <> []) conn1).
    { unfold conn1. destruct (drop k' seg) eqn:E; [exact Hne0|].
      constructor; [discriminate | exact Hne0]. }
    assert (Hdata : length data = S (Nat.min k' (length seg))).
    { unfold data. simpl. now rewrite length_take. }
    simpl in Hlen. rewrite length_app in Hlen.
    destruct (IH conn1 n (buf ++ data)%list (reads ++ [data])%list Hne1)
      as (segs' & reads' & Heq & Hrest & Hne' & Hreads).
    { rewrite length_app, Hdata. lia. }
    { rewrite length_app, Hdata. lia. }
    { rewrite length_app, Hdata, Hconn1, length_app, length_drop. lia. }
    rewrite length_app, Hdata in Heq, Hrest, Hreads.
    set (k1 := Z.to_nat (n - Z.of_nat (length buf + S (Nat.min k' (length seg)))))
      in *.
    assert (Hk1 : k1 = (k' - Nat.min k' (length seg))%nat) by lia.
    assert (Htake : take k1 (concat conn1)
                    = take (k' - length seg) (concat segs0)).
    { rewrite Hconn1, Hk1.
      destruct (Nat.le_gt_cases k' (length seg)) as [Hle|Hgt].
      - replace (k' - Nat.min k' (length seg))%nat with O by lia.
        replace (k' - length seg)%nat with O by lia. now rewrite !take_0.
      - rewrite (drop_ge seg k') by lia. simpl. f_equal. lia. }
    assert (Hdrop : drop k1 (concat conn1)
                    = drop k' (seg ++ concat segs0)).
    { rewrite Hconn1, Hk1.
      destruct (Nat.le_gt_cases k' (length seg)) as [Hle|Hgt].
      - replace (k' - Nat.min k' (length seg))%nat with O by lia.
        rewrite drop_0, drop_app.
        replace (k' - length seg)%nat with O by lia. now rewrite drop_0.
      - rewrite (drop_ge seg k') by lia. simpl.
        rewrite drop_app, (drop_ge seg k') by lia. simpl. f_equal. lia. }
    exists segs', (data :: reads').
    cbn [concat app].
    change (take (S k') (x :: seg ++ concat segs0))
      with (x :: take k' (seg ++ concat segs0)).
    change (drop (S k') (x :: seg ++ concat segs0))
      with (drop k' (seg ++ concat segs0)).
    rewrite take_app.
    split; [|split; [|split]].
    + rewrite Heq, Htake, <- !app_assoc. reflexivity.
    + now rewrite Hrest, Hdrop.
    + exact Hne'.
    + rewrite Hreads, Htake. reflexivity.
  - exists segs, []. replace k with O by lia. rewrite take_0, drop_0, !app_nil_r.
    auto.
Qed.

Lemma segments_recv_exactly segs n :
  Forall (fun s => s <> []) segs ->
  0 <= n <= Z.of_nat (length (concat segs)) ->
  exists segs' reads,
    recv_exactly segments_recv segs n
    = Some (Ok (take (Z.to_nat n) (concat segs)), segs', reads)
    /\ concat segs' = drop (Z.to_nat n) (concat segs)
    /\ Forall (fun s => s <> []) segs'
    /\ concat reads = take (Z.to_nat n) (concat segs).
Proof.
  intros Hne Hn.
  destruct (segments_loop (Z.to_nat n) segs n [] [] Hne)
    as (segs' & reads & Heq & H); simpl; try lia.
  simpl in Heq, H. rewrite Z.sub_0_r in Heq, H.
  exists segs', reads. split; [exact Heq | exact H].
Qed.

(** X14. A frame as [send_request] builds it, the packed length followed by
    the payload, is read back whole however the connection cuts it into
    segments: when the segments, none of them empty, carry the frame and
    then other bytes, [recv_response] returns the deserialised payload,
    has read the bytes of the frame and no others, and leaves the other
    bytes in the connection. *)
Theorem recv_response_reassembles_frame {Obj}
    (loads : list Byte.byte -> result Obj)
    (payload len_prefix rest : list Byte.byte) (segs : list (list Byte.byte)) :
  pack_L (Z.of_nat (length payload)) = Ok len_prefix ->
  Forall (fun s => s <> []) segs ->
  concat segs = (len_prefix ++ payload ++ rest)%list ->
  exists segs' reads,
    recv_response segments_recv loads segs = Some (loads payload, segs', reads)
    /\ concat segs' = rest
    /\ concat reads = (len_prefix ++ payload)%list.
Proof.
  intros Hpack Hne Hsegs.
  assert (Hrange : 0 <= Z.of_nat (length payload) < 2 ^ 32).
  { unfold pack_L in Hpack.
    destruct (Z.leb_spec 0 (Z.of_nat (length payload))); [|discriminate].
    destruct (Z.ltb_spec (Z.of_nat (length payload)) (2 ^ 32));
      [lia | discriminate]. }
  destruct (pack_L_in_range _ Hrange) as (lp & Hlp & Hlen & Hunpack).
  rewrite Hpack in Hlp. injection Hlp as <-.
  unfold recv_response.
  destruct (segments_recv_exactly segs 4 Hne) as (segs1 & reads1 & -> & H1 & Hne1 & Hr1).
  { rewrite Hsegs, length_app. lia. }
  rewrite Hsegs in H1, Hr1 |- *.
  change (Z.to_nat 4) with 4%nat in *. rewrite <- Hlen in H1, Hr1 |- *.
  rewrite take_app_length in Hr1 |- *. rewrite drop_app_length in H1.
  rewrite Hunpack.
  destruct (segments_recv_exactly segs1 (Z.of_nat (length payload)) Hne1)
    as (segs2 & reads2 & -> & H2 & Hne2 & Hr2).
  { rewrite H1, length_app. lia. }
  rewrite H1, Nat2Z.id in H2, Hr2 |- *.
  rewrite take_app_length in Hr2 |- *. rewrite drop_app_length in H2.
  exists segs2, (reads1 ++ reads2)%list.
  split; [reflexivity|]. split; [exact H2|].
  now rewrite concat_app, Hr1, Hr2.
Qed.

Lemma recv_response_reassembles_frame_witness :
  exists segs' reads,
    recv_response segments_recv Ok
      [[Byte.x00]; [Byte.x00; Byte.x00; Byte.x02; Byte.x61];
       [Byte.x62; Byte.x00; Byte.x00]]
    = Some (Ok [Byte.x61; Byte.x62], segs', reads)
    /\ concat segs' = [Byte.x00; Byte.x00]
    /\ concat reads
       = ([Byte.x00; Byte.x00; Byte.x00; Byte.x02]
            ++ [Byte.x61; Byte.x62])%list.
Proof.
  apply (recv_response_reassembles_frame Ok [Byte.x61; Byte.x62]
           [Byte.x00; Byte.x00; Byte.x00; Byte.x02] [Byte.x00; Byte.x00]).
  - reflexivity.
  - repeat constructor; discriminate.
  - reflexivity.
Defined.

(** **** The pool of connections *)

Ltac splits := repeat match goal with |- _ /\ _ => split end.

Section PoolProps.
Variable Conn : Type.
Variable connect : string -> Z -> Q -> result Conn.
Variable sendall : Conn -> list Byte.byte -> result unit * Conn.
Variable recv : Conn -> Z -> result (list Byte.byte) * Conn.
Variable pop : list Conn -> option (Conn * list Conn).
Variable Val : Type.
Variable dumps : Request Val -> list Byte.byte.
Variable loads : list Byte.byte -> result (gmap string Val).
Variable get_node : list Host -> string -> Host.

(** The contracts of [socket.recv] and of [set.pop]. *)
Hypothesis recv_bound : forall conn bufsize data conn',
    recv conn bufsize = (Ok data, conn') ->
    Z.of_nat (length data) <= bufsize.
Hypothesis pop_spec : forall l,
    match pop l with
    | Some (c, rest) => Permutation l (c :: rest)
    | None => l = []
    end.

Lemma recv_response_returns conn :
  exists r conn' reads, recv_response recv loads conn = Some (r, conn', reads).
Proof.
  unfold recv_response.
  destruct (recv_exactly_spec Conn recv _ loads recv_bound conn 4)
    as (r1 & conn1 & reads1 & -> & _ & Hok1); [lia|].
  destruct r1 as [len_prefix|e]; [|eauto].
  destruct (unpack_L len_prefix) as [body_size|e] eqn:Hu; [|eauto].
  destruct (recv_exactly_spec Conn recv _ loads recv_bound conn1 body_size)
    as (r2 & conn2 & reads2 & -> & _ & _).
  { apply (unpack_L_range _ _ Hu). }
  destruct r2; eauto.
Qed.

Lemma get_connection_spec (self : CarbonLinkPool Conn) now host :
  match get_connection Conn connect pop self now host with
  | (Ok conn, self') =>
      hosts self' = hosts self /\ ports self' = ports self
      /\ timeout self' = timeout self
      /\ last_failure self' = last_failure self
      /\ exists pool rest,
           connections self !! host = Some pool
           /\ connections self' = <[host := rest]> (connections self)
           /\ length rest = (length pool - 1)%nat
  | (Raise e, self') =>
      self' = self
      \/ (self' = set_last_failure Conn self host now
          /\ connections self !! host = Some [])
  end.
Proof.
  unfold get_connection.
  destruct (ports self !! host) as [port|]; [|now left].
  destruct (connections self !! host) as [pool|] eqn:Hpool; [|now left].
  pose proof (pop_spec pool) as Hpop.
  destruct (pop pool) as [[conn rest]|].
  - splits; try reflexivity.
    exists pool, rest. split; [reflexivity|]. split; [reflexivity|].
    apply Permutation_length in Hpop. simpl in Hpop. lia.
  - subst pool. destruct (connect _ _ _) as [conn|e].
    + splits; try reflexivity.
      exists [], []. split; [reflexivity|]. split; [|reflexivity].
      symmetry. now apply insert_id.
    + right. auto.
Qed.

(** X15. A request touches the pool and the failure time of one host only,
    the one the hash ring selects. When it gets a response, with or without
    an [error] entry, the connection goes back to that host's pool, which
    then holds as many connections as before, or one if it was empty, and
    no failure time changes. When it raises, either nothing has changed
    (the request could not be packed, or the host is unknown), or the
    failure time of the host is the current time and its pool has lost the
    connection that was taken from it. *)
Theorem send_request_pool (self : CarbonLinkPool Conn) (now : Q)
    (request : Request Val) :
  let host := select_host Conn get_node self (request_metric request) in
  exists outcome self',
    send_request Conn connect sendall recv pop Val dumps loads get_node
      self now request = Some (outcome, self')
    /\ hosts self' = hosts self /\ ports self' = ports self
    /\ timeout self' = timeout self
    /\ (forall h, h <> host ->
          connections self' !! h = connections self !! h
          /\ last_failure self' !! h = last_failure self !! h)
    /\ match outcome with
       | Raised e =>
           self' = self
           \/ (last_failure self' !! host = Some now
               /\ exists pool pool',
                    connections self !! host = Some pool
                    /\ connections self' !! host = Some pool'
                    /\ length pool' = (length pool - 1)%nat)
       | _ =>
           last_failure self' = last_failure self
           /\ exists pool pool',
                connections self !! host = Some pool
                /\ connections self' !! host = Some pool'
                /\ length pool' = Nat.max 1 (length pool)
       end.
Proof.
  intros host. unfold send_request. fold host.
  destruct (pack_L _) as [len_prefix|e].
  2:{ exists (Raised e), self. splits; auto. }
  pose proof (get_connection_spec self now host) as Hget.
  destruct (get_connection Conn connect pop self now host) as [[conn|e] self1].
  2:{ exists (Raised e), self1. split; [reflexivity|].
      destruct Hget as [->|[-> Hempty]].
      - splits; auto.
      - splits; try reflexivity.
        + simpl. intros h Hh. now rewrite lookup_insert_ne.
        + right. simpl. rewrite lookup_insert_eq. split; [reflexivity|].
          exists [], []. auto. }
  destruct Hget as (Hh & Hp & Ht & Hlf & pool & rest & Hpool & Hconn & Hlen).
  assert (Hother : forall h, h <> host ->
                     connections self1 !! h = connections self !! h).
  { intros h Hne. rewrite Hconn. now apply lookup_insert_ne. }
  assert (Hrest : connections self1 !! host = Some rest).
  { rewrite Hconn. apply lookup_insert_eq. }
  assert (Hfail : forall e,
             exists outcome self',
               Some (Raised e : Outcome Val (gmap string Val),
                     set_last_failure Conn self1 host now)
               = Some (outcome, self')
               /\ hosts self' = hosts self /\ ports self' = ports self
               /\ timeout self' = timeout self
               /\ (forall h, h <> host ->
                     connections self' !! h = connections self !! h
                     /\ last_failure self' !! h = last_failure self !! h)
               /\ match outcome with
                  | Raised e =>
                      self' = self
                      \/ (last_failure self' !! host = Some now
                          /\ exists pool pool',
                               connections self !! host = Some pool
                               /\ connections self' !! host = Some pool'
                               /\ length pool' = (length pool - 1)%nat)
                  | _ =>
                      last_failure self' = last_failure self
                      /\ exists pool pool',
                           connections self !! host = Some pool
                           /\ connections self' !! host = Some pool'
                           /\ length pool' = Nat.max 1 (length pool)
                  end).
  { intros e. exists (Raised e), (set_last_failure Conn self1 host now).
    split; [reflexivity|]. simpl. splits; auto.
    - intros h Hne. split; [now apply Hother|].
      rewrite Hlf. now apply lookup_insert_ne.
    - right. rewrite lookup_insert_eq. split; [reflexivity|].
      exists pool, rest. auto. }
  destruct (sendall conn _) as [[u|e] conn1]; [|apply Hfail].
  destruct (recv_response_returns conn1) as (r & conn2 & reads & ->).
  destruct r as [result|e]; [|apply Hfail].
  rewrite Hrest. simpl.
  assert (Hok : forall outcome : Outcome Val (gmap string Val),
             (forall e, outcome <> Raised e) ->
             exists outcome' self',
               Some (outcome, set_connections Conn self1 host (conn2 :: rest))
               = Some (outcome', self')
               /\ hosts self' = hosts self /\ ports self' = ports self
               /\ timeout self' = timeout self
               /\ (forall h, h <> host ->
                     connections self' !! h = connections self !! h
                     /\ last_failure self' !! h = last_failure self !! h)
               /\ match outcome' with
                  | Raised e =>
                      self' = self
                      \/ (last_failure self' !! host = Some now
                          /\ exists pool pool',
                               connections self !! host = Some pool
                               /\ connections self' !! host = Some pool'
                               /\ length pool' = (length pool - 1)%nat)
                  | _ =>
                      last_failure self' = last_failure self
                      /\ exists pool pool',
                           connections self !! host = Some pool
                           /\ connections self' !! host = Some pool'
                           /\ length pool' = Nat.max 1 (length pool)
                  end).
  { intros outcome Hnot.
    exists outcome, (set_connections Conn self1 host (conn2 :: rest)).
    split; [reflexivity|]. simpl. splits; auto.
    - intros h Hne. rewrite lookup_insert_ne by auto.
      split; [now apply Hother | now rewrite Hlf].
    - assert (Hgoal : last_failure self1 = last_failure self
                      /\ exists pool0 pool',
                           connections self !! host = Some pool0
                           /\ <[host := conn2 :: rest]> (connections self1) !! host
                              = Some pool'
                           /\ length pool' = Nat.max 1 (length pool0)).
      { split; [exact Hlf|]. exists pool, (conn2 :: rest).
        rewrite lookup_insert_eq. splits; auto.
        simpl. destruct pool as [|c pool].
        - simpl in Hlen. rewrite Hlen. reflexivity.
        - simpl in *. lia. }
      destruct outcome; [exact Hgoal | exfalso; eapply Hnot; reflexivity
                        | exact Hgoal]. }
  destruct (result !! "error") as [error|]; apply Hok; discriminate.
Qed.

End PoolProps.

Lemma send_request_pool_witness :
  let host := select_host _ (fun _ _ => CarbonLinkDemo.carbon)
                CarbonLinkDemo.pool "cpu" in
  exists outcome self',
    send_request _ (fun _ _ _ => Raise SocketError) (fun c _ => (Ok tt, c))
      segments_recv CarbonLinkDemo.pop_first Z (fun _ => [Byte.x61])
      (fun _ => Ok ∅) (fun _ _ => CarbonLinkDemo.carbon)
      CarbonLinkDemo.pool 5 (cache_query "cpu") = Some (outcome, self')
    /\ hosts self' = hosts CarbonLinkDemo.pool
    /\ ports self' = ports CarbonLinkDemo.pool
    /\ timeout self' = timeout CarbonLinkDemo.pool
    /\ (forall h, h <> host ->
          connections self' !! h = connections CarbonLinkDemo.pool !! h
          /\ last_failure self' !! h = last_failure CarbonLinkDemo.pool !! h)
    /\ match outcome with
       | Raised e =>
           self' = CarbonLinkDemo.pool
           \/ (last_failure self' !! host = Some 5%Q
               /\ exists pool pool',
                    connections CarbonLinkDemo.pool !! host = Some pool
                    /\ connections self' !! host = Some pool'
                    /\ length pool' = (length pool - 1)%nat)
       | _ =>
           last_failure self' = last_failure CarbonLinkDemo.pool
           /\ exists pool pool',
                connections CarbonLinkDemo.pool !! host = Some pool
                /\ connections self' !! host = Some pool'
                /\ length pool' = Nat.max 1 (length pool)
       end.
Proof.
  apply (send_request_pool _ (fun _ _ _ => Raise SocketError)
           (fun c _ => (Ok tt, c)) segments_recv CarbonLinkDemo.pop_first Z
           (fun _ => [Byte.x61]) (fun _ => Ok ∅)
           (fun _ _ => CarbonLinkDemo.carbon)).
  - exact segments_recv_bound.
  - intros [|c l]; simpl; reflexivity.
Defined.

(** **** A new pool *)

Section NewPool.
Variable Conn : Type.
Variable connect : string -> Z -> Q -> result Conn.
Variable pop : list Conn -> option (Conn * list Conn).

Lemma empty_pools (hs : list Host) host :
  forall connections : gmap Host (list Conn),
    In host hs ->
    fold_left (fun c host => <[host := []]> c) hs connections !! host
    = Some [].
Proof.
  assert (Hkeep : forall (l : list Host) (connections : gmap Host (list Conn)),
             connections !! host = Some [] ->
             fold_left (fun c host => <[host := []]> c) l connections
               !! host = Some []).
  { induction l as [|h l IH]; intros c Hc; [exact Hc|].
    simpl. apply IH. destruct (decide (h = host)) as [->|Hne].
    - apply lookup_insert_eq.
    - now rewrite lookup_insert_ne. }
  induction hs as [|h hs IH]; intros c Hin; [destruct Hin|].
  simpl. destruct Hin as [->|Hin]; [|now apply IH].
  apply Hkeep, lookup_insert_eq.
Qed.

Lemma new_pool_ports (before after : list (string * Z * option string))
    server port instance timeout :
  (forall port', ~ In (server, port', instance) after) ->
  ports (CarbonLinkPool_init Conn (before ++ (server, port, instance) :: after)
           timeout) !! ((server, instance) : Host) = Some port.
Proof.
  intros Hafter. unfold CarbonLinkPool_init. cbn [ports].
  rewrite map_app, rev_app_distr. cbn [map rev fst snd].
  rewrite <- app_assoc. cbn [app].
  rewrite list_to_map_app, lookup_union_r.
  - cbn [list_to_map foldr]. apply lookup_insert_eq.
  - apply not_elem_of_list_to_map_1. intros Hin.
    apply list_elem_of_In, in_map_iff in Hin.
    destruct Hin as ([k v] & Hk & Hin). simpl in Hk. subst k.
    apply in_rev, in_map_iff in Hin.
    destruct Hin as ([[s p] i] & [= <- <- <-] & Hin).
    exact (Hafter _ Hin).
Qed.

Lemma new_pool_connections (l : list (string * Z * option string))
    server port instance timeout :
  In (server, port, instance) l ->
  connections (CarbonLinkPool_init Conn l timeout)
    !! ((server, instance) : Host) = Some [].
Proof.
  intros Hin. unfold CarbonLinkPool_init. cbn [connections].
  apply empty_pools. apply in_map_iff. exists (server, port, instance).
  split; [reflexivity | exact Hin].
Qed.

(** X24. A new pool knows every host it was built with: asking for a
    connection to one of them does not fail for want of a pool or of a
    port. It opens a connection to the port of the last entry that lists
    this server and instance, with the timeout of the pool, and when that
    fails it notes the time of the failure and lets the exception pass. *)
Theorem get_connection_of_new_pool
    (before after : list (string * Z * option string))
    (server : string) (port : Z) (instance : option string)
    (timeout now : Q) :
  pop [] = None ->
  (forall port', ~ In (server, port', instance) after) ->
  let self :=
    CarbonLinkPool_init Conn (before ++ (server, port, instance) :: after)
      timeout in
  get_connection Conn connect pop self now (server, instance)
  = match connect server port timeout with
    | Ok connection => (Ok connection, self)
    | Raise e => (Raise e, set_last_failure Conn self (server, instance) now)
    end.
Proof.
  intros Hpop Hafter self. unfold get_connection. subst self.
  rewrite (new_pool_ports before after server port instance timeout Hafter).
  rewrite (new_pool_connections _ server port instance)
    by (apply in_app_iff; right; now left).
  rewrite Hpop. reflexivity.
Qed.

End NewPool.

Lemma get_connection_of_new_pool_witness :
  get_connection (list (list Byte.byte)) (fun _ _ _ => Raise SocketError)
    CarbonLinkDemo.pop_first
    (CarbonLinkPool_init _
       ([("a", 2003, None)] ++ ("a", 7002, None) :: [("b", 7002, None)])
       (3#1)%Q)
    (10#1)%Q ("a", None)
  = (Raise SocketError,
     set_last_failure _
       (CarbonLinkPool_init _
          ([("a", 2003, None)] ++ ("a", 7002, None) :: [("b", 7002, None)])
          (3#1)%Q)
       ("a", None) (10#1)%Q).
Proof.
  apply (get_connection_of_new_pool (list (list Byte.byte))
           (fun _ _ _ => Raise SocketError) CarbonLinkDemo.pop_first
           [("a", 2003, None)] [("b", 7002, None)] "a" 7002 None
           (3#1)%Q (10#1)%Q).
  - reflexivity.
  - intros port' [E|[]]. discriminate.
Defined.

End CarbonLinkExtra.


(** ** render/datalib.py: [fetchDataLocal] *)

Module RenderExtra.
Import Datalib Storage StoreOps Render RenderSpec DatalibExtraSpec DatalibProps.

Lemma merged_Some timeInfo values cachedResults :
  exists values',
    merged (Some (timeInfo, values)) cachedResults
    = Some (DbResults timeInfo values')
    /\ length values' = length values.
Proof.
  unfold merged. destruct cachedResults as [cache|e]; cbn [Py.bind]; [|eauto].
  destruct timeInfo as [[start end_] step]. unfold mergeResults.
  destruct cache as [|s cache]; [eauto|].
  destruct (Z.eq_dec step 0) as [->|Hstep].
  - destruct s as [t v]. simpl. eauto.
  - destruct (DatalibExtra.merge_loop_spec start step (s :: cache) values Hstep)
      as (values' & -> & Hlen & _).
    simpl. eauto.
Qed.

Section FetchDataLocalProps.
Variable DateTime : Type.
Variable timestamp : DateTime -> Q.
Variable w : World.
Variables LOCAL_STORE STORE : Store.
Variable fetch_data :
  Node -> Q -> Q -> result (option (TimeInfo * list (option Q))).
Variable Pool : Type.

Lemma fetch_loop_quiet query startTime endTime pathExpr raised dbFiles :
  forall pool,
    fetch_loop fetch_data Pool (quiet query) startTime endTime pathExpr
      dbFiles raised pool
    = fetch_loop fetch_data Pool query startTime endTime pathExpr
        dbFiles raised pool.
Proof.
  induction dbFiles as [|dbFile dbFiles IH]; intros pool; [reflexivity|].
  cbn [fetch_loop].
  destruct (Node_fetch fetch_data dbFile startTime endTime)
    as [dbResults|e]; [|reflexivity].
  unfold quiet.
  destruct (query pool (real_metric dbFile)) as [[cache|e] pool'].
  - destruct (merged dbResults (Ok cache)) as [[[|s c]|[[start end_] step] values]|];
      rewrite ?IH; reflexivity.
  - destruct dbResults as [[[[start end_] step] values]|]; simpl.
    + rewrite IH. reflexivity.
    + apply IH.
Qed.

(** X20. A failure of the cache never reaches the caller: the fetch returns
    what it returns, and leaves the pool as it leaves it, when the cache
    answers with no sample wherever it raises. *)
Theorem fetchDataLocal_cache_failure_is_empty_answer
    (query : Pool -> string -> result (list (Z * option Q)) * Pool)
    (requestContext : RequestContext DateTime) (pathExpr : string)
    (pool : Pool) :
  fetchDataLocal DateTime timestamp w LOCAL_STORE STORE fetch_data Pool
    query requestContext pathExpr pool
  = fetchDataLocal DateTime timestamp w LOCAL_STORE STORE fetch_data Pool
      (quiet query) requestContext pathExpr pool.
Proof. unfold fetchDataLocal. symmetry. apply fetch_loop_quiet. Qed.

Variable query : Pool -> string -> result (list (Z * option Q)) * Pool.

Lemma fetch_loop_series startTime endTime pathExpr raised dbFiles :
  forall pool seriesList,
    fst (fetch_loop fetch_data Pool query startTime endTime pathExpr
           dbFiles raised pool) = Ok seriesList ->
    raised = None
    /\ Forall2
         (fun dbFile series =>
            exists start end_ step values,
              Node_fetch fetch_data dbFile startTime endTime
              = Ok (Some ((start, end_, step), values))
              /\ length (Datalib.values series) = length values
              /\ series = mkTimeSeries (metric_path dbFile) start end_ step
                            (Datalib.values series) "average" 1
                            (Some pathExpr))
         (List.filter
            (fun dbFile =>
               has_data (Node_fetch fetch_data dbFile startTime endTime))
            dbFiles)
         seriesList.
Proof.
  induction dbFiles as [|dbFile dbFiles IH]; intros pool seriesList.
  - simpl. destruct raised; [discriminate|]. intros [= <-].
    split; [reflexivity | constructor].
  - cbn [fetch_loop List.filter].
    destruct (Node_fetch fetch_data dbFile startTime endTime)
      as [[[timeInfo values]|]|e] eqn:Hfetch; cbn [has_data].
    + destruct (query pool (real_metric dbFile)) as [cachedResults pool'].
      destruct (merged_Some timeInfo values cachedResults)
        as (values' & -> & Hlen).
      destruct timeInfo as [[start end_] step].
      destruct (fetch_loop _ _ _ _ _ _ dbFiles raised pool')
        as [[rest|e] pool''] eqn:Hrest; [|discriminate].
      simpl. intros [= <-].
      destruct (IH pool' rest) as [Hraised Hall]; [now rewrite Hrest|].
      split; [exact Hraised|]. constructor; [|exact Hall].
      exists start, end_, step, values. simpl. auto.
    + destruct (query pool (real_metric dbFile)) as [[cache|e] pool'].
      * unfold merged. simpl. destruct cache; [apply IH | discriminate].
      * unfold merged. simpl. apply IH.
    + discriminate.
Qed.

(** X21. The series of a fetch that returns: the search has ended without
    an exception, and there is one series for each node found whose
    database fetch returned data, in the order in which the nodes were
    found. The series has the metric path of its node as its name, the time
    information of the database result, as many values as the database
    returned, whatever the cache added, and the path expression. *)
Theorem fetchDataLocal_series (requestContext : RequestContext DateTime)
    (pathExpr : string) (pool : Pool) (seriesList : list TimeSeries) :
  fst (fetchDataLocal DateTime timestamp w LOCAL_STORE STORE fetch_data Pool
         query requestContext pathExpr pool) = Ok seriesList ->
  let store :=
    if ctx_localOnly _ requestContext then LOCAL_STORE else STORE in
  let found := Store_find w store pathExpr None None in
  let fetch dbFile :=
    Node_fetch fetch_data dbFile
      (timestamp (ctx_startTime _ requestContext))
      (timestamp (ctx_endTime _ requestContext)) in
  snd found = None
  /\ Forall2
       (fun dbFile series =>
          exists start end_ step values,
            fetch dbFile = Ok (Some ((start, end_, step), values))
            /\ length (Datalib.values series) = length values
            /\ series = mkTimeSeries (metric_path dbFile) start end_ step
                          (Datalib.values series) "average" 1 (Some pathExpr))
       (List.filter (fun dbFile => has_data (fetch dbFile)) (fst found))
       seriesList.
Proof.
  intros H store found fetch. unfold fetchDataLocal in H.
  exact (fetch_loop_series _ _ _ _ _ _ _ H).
Qed.

(** X22. A node without data in the database and with samples in the cache
    stops the fetch. When the nodes found before it all have data in the
    database, and the fetch of the node returns a falsy value (as that of
    every branch does) while the cache has a sample or more for its name,
    the fetch raises [ValueError]. *)
Theorem fetchDataLocal_cache_without_database
    (requestContext : RequestContext DateTime) (pathExpr : string)
    (pool : Pool) (before after : list Node) (dbFile : Node) :
  let store :=
    if ctx_localOnly _ requestContext then LOCAL_STORE else STORE in
  let fetch dbFile :=
    Node_fetch fetch_data dbFile
      (timestamp (ctx_startTime _ requestContext))
      (timestamp (ctx_endTime _ requestContext)) in
  fst (Store_find w store pathExpr None None)
  = (before ++ dbFile :: after)%list ->
  Forall (fun dbFile => has_data (fetch dbFile) = true) before ->
  fetch dbFile = Ok None ->
  (forall pool, exists cache,
      fst (query pool (real_metric dbFile)) = Ok cache /\ cache <> []) ->
  fst (fetchDataLocal DateTime timestamp w LOCAL_STORE STORE fetch_data Pool
         query requestContext pathExpr pool) = Raise ValueError.
Proof.
  intros store fetch Hfound Hbefore Hfetch Hcache.
  unfold fetchDataLocal. fold store. rewrite Hfound.
  generalize (snd (Store_find w store pathExpr None None)). intros raised.
  clear Hfound.
  revert pool. induction Hbefore as [|n before Hn _ IH]; intros pool.
  - cbn [app fetch_loop]. fold (fetch dbFile). rewrite Hfetch.
    destruct (Hcache pool) as (cache & Hq & Hne).
    destruct (query pool (real_metric dbFile)) as [cachedResults pool'].
    simpl in Hq. subst cachedResults.
    destruct cache as [|s cache]; [congruence | reflexivity].
  - cbn [app fetch_loop]. fold (fetch n).
    destruct (fetch n) as [[[timeInfo values]|]|e]; try discriminate.
    destruct (query pool (real_metric n)) as [cachedResults pool'].
    destruct (merged_Some timeInfo values cachedResults) as (values' & -> & _).
    destruct timeInfo as [[start end_] step].
    specialize (IH pool').
    destruct (fetch_loop _ _ _ _ _ _ _ raised pool') as [[rest|e] pool''];
      simpl in IH |- *; [discriminate | exact IH].
Qed.

End FetchDataLocalProps.

Lemma fetchDataLocal_series_witness :
  snd (Store_find StorageDemo.world StorageDemo.store "x.*" None None) = None
  /\ Forall2
       (fun dbFile series =>
          exists start end_ step values,
            Node_fetch RenderDemo.fetch_data dbFile (inject_Z 0) (inject_Z 40)
            = Ok (Some ((start, end_, step), values))
            /\ length (Datalib.values series) = length values
            /\ series = mkTimeSeries (metric_path dbFile) start end_ step
                          (Datalib.values series) "average" 1 (Some "x.*"))
       (List.filter
          (fun dbFile =>
             has_data (Node_fetch RenderDemo.fetch_data dbFile
                         (inject_Z 0) (inject_Z 40)))
          (fst (Store_find StorageDemo.world StorageDemo.store "x.*" None None)))
       [mkTimeSeries "x.y" 0 40 10 [Some (1#1)%Q; Some (7#1)%Q; None; None]
          "average" 1 (Some "x.*");
        mkTimeSeries "a.y" 0 40 10 [Some (1#1)%Q; Some (7#1)%Q; None; None]
          "average" 1 (Some "x.*")].
Proof.
  apply (fetchDataLocal_series Z inject_Z StorageDemo.world StorageDemo.store
           StorageDemo.store RenderDemo.fetch_data unit RenderDemo.query
           RenderDemo.requestContext "x.*" tt).
  vm_compute. reflexivity.
Defined.

Lemma fetchDataLocal_cache_without_database_witness :
  fst (RenderDemo.fetchDataLocal "x") = Raise ValueError.
Proof.
  apply (fetchDataLocal_cache_without_database Z inject_Z StorageDemo.world
           StorageDemo.store StorageDemo.store RenderDemo.fetch_data unit
           RenderDemo.query RenderDemo.requestContext "x" tt [] []
           (Node_init Branch "/data/x" "x")).
  - vm_compute. reflexivity.
  - constructor.
  - reflexivity.
  - intros pool'. exists [(15, Some (7#1)%Q)]. split; [reflexivity | discriminate].
Defined.

End RenderExtra.
